(** * list_sort: sorting the elements of every list of a list column

    A shallow embedding of [src/function/scalar/list/list_sort.cpp]:
    the bind data and its two-level sort order, the binders of
    [list_sort] and [list_reverse_sort], [ListSortFunction], which
    builds (group, element, payload) rows, sinks them into the sort
    engine, drains the sorted payloads into a selection vector and
    re-slices the shared child vector of the input lists, and the
    registration of the four functions.

    Conventions.
    - [idx_t] counters index rows and elements of vectors that are held in
      memory, so they stay far below 2^64; they are natural numbers here.
    - The [uint16_t] list indices and the [uint32_t] payloads are numbers in
      [N] and every store into them is reduced modulo 2^16 resp. 2^32.
    - [D_ASSERT] does not change control flow (it is compiled out of release
      builds); the assertion of [ListSortFunction] is logged as a call so
      that its truth can be stated. *)

From Stdlib Require Import Ascii.
From stdpp Require Import base decidable option numbers list sorting strings gmap.
From Equations Require Import Equations.

Local Open Scope string_scope.
Local Open Scope list_scope.
Local Open Scope nat_scope.

(** ** Types of the surrounding engine that the file uses *)

(** Modelled from the spec: the direction of a sort key
    ([OrderType], declared outside this file). *)
Inductive OrderType := ORDER_TYPE_INVALID | ORDER_TYPE_DEFAULT | ASCENDING | DESCENDING.

(** Modelled from the spec: the null-placement policy of a sort key
    ([OrderByNullType], declared outside this file). *)
Inductive OrderByNullType := NULL_ORDER_INVALID | ORDER_DEFAULT | NULLS_FIRST | NULLS_LAST.

(** Modelled from the spec: the logical types the file names
    ([LogicalType], declared outside this file). *)
Inductive LogicalType :=
| SQLNULL
| ANY
| INTEGER
| USMALLINT
| UINTEGER
| VARCHAR
| LIST (child : LogicalType).

Global Instance OrderType_eq_dec : EqDecision OrderType.
Proof. solve_decision. Defined.
Global Instance OrderByNullType_eq_dec : EqDecision OrderByNullType.
Proof. solve_decision. Defined.
Global Instance LogicalType_eq_dec : EqDecision LogicalType.
Proof. solve_decision. Defined.

(** [ListType::GetChildType]; the engine asserts that the type is a list. *)
Definition GetChildType (t : LogicalType) : LogicalType :=
  match t with
  | LIST child => child
  | _ => SQLNULL
  end.

(** [BoundReferenceExpression(type, index)]: column [index] of the key chunk. *)
Record BoundReferenceExpression := {
  ref_type : LogicalType;
  ref_index : nat
}.

(** [BoundOrderByNode(type, null_order, expression)]. *)
Record BoundOrderByNode := {
  node_type : OrderType;
  node_null_order : OrderByNullType;
  node_expression : BoundReferenceExpression
}.

(** ** ListSortBindData *)

Record ListSortBindData := {
  order_type : OrderType;
  null_order : OrderByNullType;
  return_type : LogicalType;
  child_type : LogicalType;
  types : list LogicalType;
  payload_types : list LogicalType;
  orders : list BoundOrderByNode
}.

(** The constructor (lines 35-58): the key chunk has the columns
    (USMALLINT list index, child), the payload chunk one UINTEGER column, and
    the order is: list index ascending, then the child as requested. *)
Definition new_ListSortBindData (order_type_p : OrderType) (null_order_p : OrderByNullType)
    (return_type_p child_type_p : LogicalType) : ListSortBindData :=
  let types := [] ++ [USMALLINT] in
  let types := types ++ [child_type_p] in
  let payload_types := [] ++ [UINTEGER] in
  let idx_col_expr := {| ref_type := USMALLINT; ref_index := 0 |} in
  let lists_col_expr := {| ref_type := child_type_p; ref_index := 1 |} in
  let orders := [] ++ [ {| node_type := ASCENDING; node_null_order := ORDER_DEFAULT;
                           node_expression := idx_col_expr |} ] in
  let orders := orders ++ [ {| node_type := order_type_p; node_null_order := null_order_p;
                               node_expression := lists_col_expr |} ] in
  {| order_type := order_type_p; null_order := null_order_p;
     return_type := return_type_p; child_type := child_type_p;
     types := types; payload_types := payload_types; orders := orders |}.

(** [ListSortBindData::Equals] (lines 64-67). *)
Definition Equals (this other : ListSortBindData) : bool :=
  bool_decide (order_type this = order_type other) &&
  bool_decide (null_order this = null_order other).

(** [ListSortBindData::Copy] (lines 60-62): a new bind data made by the
    constructor from the four fields it was given. *)
Definition Copy (this : ListSortBindData) : ListSortBindData :=
  new_ListSortBindData (order_type this) (null_order this) (return_type this) (child_type this).

(** ** Binding *)

(** Modelled from the spec: an argument expression as the binder sees it, its
    type, whether it is a compile-time constant ([IsFoldable]) and the text of
    its constant value ([ExpressionExecutor::EvaluateScalar] followed by
    [ToString]); the expression classes are declared outside this file. *)
Record Expression := {
  expr_return_type : LogicalType;
  IsFoldable : bool;
  EvaluateScalar : string
}.

Global Instance Expression_inhabited : Inhabited Expression :=
  populate {| expr_return_type := SQLNULL; IsFoldable := false; EvaluateScalar := "" |}.

(** The part of [ScalarFunction] that binding writes. *)
Record ScalarFunction := {
  fun_arguments : list LogicalType;
  fun_return_type : LogicalType
}.

(** The part of [DBConfig] that binding reads. *)
Record DBConfig := {
  default_order_type : OrderType;
  default_null_order : OrderByNullType
}.

Inductive FunctionData :=
| VariableReturnBindData (stype : LogicalType)
| SortBindData (info : ListSortBindData).

Inductive Exception :=
| InvalidInputException (msg : string).

(** A bind either throws or returns its value. *)
Inductive Bound (A : Type) :=
| Throw (e : Exception)
| Return (a : A).
Arguments Throw {A} e.
Arguments Return {A} a.

Definition bind_bound {A B} (m : Bound A) (k : A -> Bound B) : Bound B :=
  match m with
  | Throw e => Throw e
  | Return a => k a
  end.

Notation "x <-! m ;; k" := (bind_bound m (fun x => k))
  (at level 100, m at next level, right associativity, only parsing).

(** [::toupper] in the C locale: the letters a-z go to A-Z. *)
Definition toupper (c : ascii) : ascii :=
  let n := nat_of_ascii c in
  if (97 <=? n) && (n <=? 122) then ascii_of_nat (n - 32) else c.

(** [std::transform(s.begin(), s.end(), s.begin(), ::toupper)]. *)
Fixpoint transform_toupper (s : string) : string :=
  match s with
  | EmptyString => EmptyString
  | String c rest => String (toupper c) (transform_toupper rest)
  end.

(** [ListSortBind] (lines 232-247): writes the argument and return type of the
    bound function and builds the bind data. *)
Definition ListSortBind (bound_function : ScalarFunction) (arguments : list Expression)
    (order : OrderType) (null_order : OrderByNullType) : ScalarFunction * FunctionData :=
  let arg0 := arguments !!! 0 in
  if decide (expr_return_type arg0 = SQLNULL) then
    let bound_function :=
      {| fun_arguments := <[0 := SQLNULL]> (fun_arguments bound_function);
         fun_return_type := SQLNULL |} in
    (bound_function, VariableReturnBindData (fun_return_type bound_function))
  else
    let bound_function :=
      {| fun_arguments := <[0 := expr_return_type arg0]> (fun_arguments bound_function);
         fun_return_type := expr_return_type arg0 |} in
    let child_type := GetChildType (expr_return_type arg0) in
    (bound_function,
     SortBindData (new_ListSortBindData order null_order (fun_return_type bound_function) child_type)).

(** [GetNullOrder] (lines 249-265). *)
Definition GetNullOrder (arguments : list Expression) (idx : nat) : Bound OrderByNullType :=
  if negb (IsFoldable (arguments !!! idx)) then
    Throw (InvalidInputException "Null sorting order must be a constant")
  else
    let null_order_value := EvaluateScalar (arguments !!! idx) in
    let null_order_name := transform_toupper null_order_value in
    if negb (String.eqb null_order_name "NULLS FIRST") && negb (String.eqb null_order_name "NULLS LAST") then
      Throw (InvalidInputException "Null sorting order must be either NULLS FIRST or NULLS LAST")
    else if String.eqb null_order_name "NULLS LAST" then
      Return NULLS_LAST
    else
      Return NULLS_FIRST.

(** [ListNormalSortBind] (lines 267-303). *)
Definition ListNormalSortBind (config : DBConfig) (bound_function : ScalarFunction)
    (arguments : list Expression) : Bound (ScalarFunction * FunctionData) :=
  let order := default_order_type config in
  let null_order := default_null_order config in
  order <-! (if 2 <=? length arguments then
               if negb (IsFoldable (arguments !!! 1)) then
                 Throw (InvalidInputException "Sorting order must be a constant")
               else
                 let order_value := EvaluateScalar (arguments !!! 1) in
                 let order_name := transform_toupper order_value in
                 if negb (String.eqb order_name "DESC") && negb (String.eqb order_name "ASC") then
                   Throw (InvalidInputException "Sorting order must be either ASC or DESC")
                 else if String.eqb order_name "DESC" then
                   Return DESCENDING
                 else
                   Return ASCENDING
             else Return order) ;;
  null_order <-! (if length arguments =? 3 then GetNullOrder arguments 2
                  else Return null_order) ;;
  Return (ListSortBind bound_function arguments order null_order).

(** [ListReverseSortBind] (lines 305-322). *)
Definition ListReverseSortBind (config : DBConfig) (bound_function : ScalarFunction)
    (arguments : list Expression) : Bound (ScalarFunction * FunctionData) :=
  let order :=
    if decide (default_order_type config = ASCENDING) then DESCENDING else ASCENDING in
  let null_order := default_null_order config in
  null_order <-! (if length arguments =? 2 then GetNullOrder arguments 1
                  else Return null_order) ;;
  Return (ListSortBind bound_function arguments order null_order).

(** ** Vectors and the store they live in *)

(** An element of a list: an integer or SQL NULL.  (The child type is
    arbitrary in the source; integers stand for any ordered type.) *)
Definition Value := option Z.

Module list_entry_t.
Record t := { offset : nat; length : nat }.
End list_entry_t.
Abbreviation list_entry_t := list_entry_t.t.

Global Instance list_entry_t_inhabited : Inhabited list_entry_t :=
  populate {| list_entry_t.offset := 0; list_entry_t.length := 0 |}.

(** Modelled from the spec: the selection vector of the columnar batch
    representation, which maps a row of a vector to a position of its data. A
    flat vector has the incremental selection, a constant vector the zero
    selection and a dictionary vector an explicit one. *)
Inductive SelectionVector :=
| incremental
| zero
| selection (sel : list nat).

Definition get_index (s : SelectionVector) (i : nat) : nat :=
  match s with
  | incremental => i
  | zero => 0
  | selection sel => sel !!! i
  end.

Definition loc := nat.

(** The child vector of a list vector: FlatChildStorage seen through the
    selection of the child vector. *)
Record ChildVector := {
  child_sel : SelectionVector;
  child_values : list Value
}.

Global Instance ChildVector_inhabited : Inhabited ChildVector :=
  populate {| child_sel := incremental; child_values := [] |}.

(** A list vector holds references: [buffer] is the address of its
    [list_entry_t] array and [auxiliary] the address of its child vector.
    [validity] is the set of rows of the data that are NULL. *)
Record Vector := {
  vtype : LogicalType;
  vsel : SelectionVector;
  validity : gset nat;
  buffer : loc;
  auxiliary : loc
}.

Global Instance Vector_inhabited : Inhabited Vector :=
  populate {| vtype := SQLNULL; vsel := incremental; validity := ∅; buffer := 0; auxiliary := 0 |}.

Record Store := {
  entries : gmap loc (list list_entry_t);
  children : gmap loc ChildVector
}.

Record DataChunk := {
  chunk_data : list Vector;
  chunk_size : nat
}.

Definition RowIsValid (mask : gset nat) (row : nat) : bool := bool_decide (row ∉ mask).
Definition SetInvalid (mask : gset nat) (row : nat) : gset nat := {[ row ]} ∪ mask.

(** Modelled from the spec: reading row [k] of a child vector goes through
    its selection. A position outside the storage, which the source reads
    without a check, reads as NULL here. *)
Definition GetValue (v : ChildVector) (k : nat) : Value :=
  child_values v !!! get_index (child_sel v) k.

(** Modelled from the spec: selection-vector slicing. [Slice v sel count]
    selects the rows [sel[0..count)] of [v]; a constant vector stays constant,
    otherwise the new selection is composed with the one [v] has. *)
Definition Slice (v : ChildVector) (sel : list nat) (count : nat) : ChildVector :=
  match child_sel v with
  | zero => v
  | s => {| child_sel := selection ((fun k => get_index s (sel !!! k)) <$> seq 0 count);
            child_values := child_values v |}
  end.

(** Modelled from the spec: the gather of the Result Materializer, which
    builds new flat storage from the first [count] rows of [v]. *)
Definition Normalify (v : ChildVector) (count : nat) : ChildVector :=
  {| child_sel := incremental; child_values := GetValue v <$> seq 0 count |}.

(** ** The sort engine *)

(** One sunk row: the two key columns and the payload column. *)
Record SortRow := {
  group : N;
  element : Value;
  payload : N
}.

Global Instance SortRow_inhabited : Inhabited SortRow :=
  populate {| group := 0; element := None; payload := 0 |}.

(** The key chunk and the payload chunk of [SinkDataChunk]; their columns
    reference whole vectors, of which the first [cardinality] rows count. *)
Record KeyChunk := {
  key_indices : list N;
  key_slice : ChildVector;
  key_cardinality : nat
}.

Record PayloadChunk := {
  payload_column : list N;
  payload_cardinality : nat
}.

Definition key_column (r : SortRow) (idx : nat) : Value :=
  match idx with
  | 0 => Some (Z.of_N (group r))
  | 1 => element r
  | _ => None
  end.

Definition nulls_first (o : OrderByNullType) : bool :=
  match o with
  | NULLS_LAST => false
  | _ => true
  end.

(** Modelled from the spec: comparison of one key column, "ascending =
    natural value order, descending = reversed", NULLS FIRST places a null
    before all non-null values irrespective of direction, NULLS LAST after. *)
Definition compare_column (o : BoundOrderByNode) (a b : Value) : comparison :=
  match a, b with
  | None, None => Eq
  | None, Some _ => if nulls_first (node_null_order o) then Lt else Gt
  | Some _, None => if nulls_first (node_null_order o) then Gt else Lt
  | Some x, Some y =>
      match node_type o with
      | DESCENDING => Z.compare y x
      | _ => Z.compare x y
      end
  end.

(** Modelled from the spec: the comparator of the Sort Engine, lexicographic
    over the configured order nodes. *)
Fixpoint compare_rows (orders : list BoundOrderByNode) (a b : SortRow) : comparison :=
  match orders with
  | [] => Eq
  | o :: rest =>
      let idx := ref_index (node_expression o) in
      match compare_column o (key_column a idx) (key_column b idx) with
      | Eq => compare_rows rest a b
      | c => c
      end
  end.

Definition row_le (orders : list BoundOrderByNode) : relation SortRow :=
  fun a b => compare_rows orders a b ≠ Gt.

Global Instance comparison_eq_dec : EqDecision comparison.
Proof. solve_decision. Defined.

Global Instance row_le_dec orders : RelDecision (row_le orders).
Proof. intros a b. unfold row_le. apply _. Defined.

(** Modelled from the spec: the rows a local sort state has been given, in
    the order they were sunk. *)
Definition LocalSortState := list SortRow.

(** Modelled from the spec: the rows of a key chunk and a payload chunk are
    the first [cardinality] rows of their columns. *)
Definition chunk_rows (key_chunk : KeyChunk) (payload_chunk : PayloadChunk) : list SortRow :=
  (fun k => {| group := key_indices key_chunk !!! k;
               element := GetValue (key_slice key_chunk) k;
               payload := payload_column payload_chunk !!! k |})
    <$> seq 0 (key_cardinality key_chunk).

(** Modelled from the spec: [SinkChunk] appends the rows of the chunks to the
    local sort state. *)
Definition SinkChunk (local_sort_state : LocalSortState) (key_chunk : KeyChunk)
    (payload_chunk : PayloadChunk) : LocalSortState :=
  local_sort_state ++ chunk_rows key_chunk payload_chunk.

Record GlobalSortState := {
  gs_orders : list BoundOrderByNode;
  sorted_blocks : list (list SortRow)
}.

(** Modelled from the spec: adding a local state sorts its rows by the
    comparator into one block of the global state. The spec leaves the order
    of rows that compare equal to the engine; here they stay in the order
    they were sunk. *)
Definition AddLocalState (global_sort_state : GlobalSortState)
    (local_sort_state : LocalSortState) : GlobalSortState :=
  {| gs_orders := gs_orders global_sort_state;
     sorted_blocks := sorted_blocks global_sort_state ++
       [merge_sort (row_le (gs_orders global_sort_state)) local_sort_state] |}.

(** Modelled from the spec: with one local state there is one sorted block
    and nothing is left to merge. *)
Definition PrepareMergePhase (global_sort_state : GlobalSortState) : GlobalSortState :=
  global_sort_state.

(** Modelled from the spec: a scanner over the payload column of a sorted
    block, "a finite, single-pass lazy sequence of PayloadRow values in final
    order"; what it holds is what it has not returned yet. *)
Definition PayloadScanner := list N.

Definition new_PayloadScanner (global_sort_state : GlobalSortState) : PayloadScanner :=
  payload <$> (sorted_blocks global_sort_state !!! 0).

(** The calls [ListSortFunction] makes to the sort engine and to the child
    vector, with what they are given or return, and its assertion. *)
Inductive Call :=
| NewGlobalSortState (orders : list BoundOrderByNode)
| LocalSortStateInitialize
| CallSinkChunk (rows : list SortRow)
| CallAddLocalState
| CallPrepareMergePhase
| CallScan (result_chunk : list N)
| CallAssert (holds : bool)
| CallSlice (sel : list nat) (count : nat)
| CallNormalify (count : nat).

(** ** ListSortFunction *)

(** The locals of [ListSortFunction] that the key-building loop writes
    (lines 136-151), with the validity mask of the result, the local sort
    state and the calls made so far. *)
Record KeyBuilder := {
  result_validity : gset nat;
  sel : list nat;
  lists_indices_data : list N;
  payload_vector_data : list N;
  offset_lists_indices : nat;
  incr_payload_count : N;
  data_to_sort : bool;
  local_sort_state : LocalSortState;
  calls : list Call
}.

(** What an invocation leaves behind: the store, the result vector and the
    calls it made. *)
Record Outcome := {
  out_store : Store;
  out_result : Vector;
  out_calls : list Call
}.

(** A value with the proof that it is the value, for the scan loop below. *)
Definition inspect {A} (a : A) : {b | a = b} := exist _ a eq_refl.

(** Narrowing to the unsigned 16-bit and 32-bit types. *)
Definition uint16_t (n : N) : N := (n mod 2 ^ 16)%N.
Definition uint32_t (n : N) : N := (n mod 2 ^ 32)%N.

Section ListSortFunction.

(** The capacity of a vector, a positive build constant declared outside
    this file. *)
Context (STANDARD_VECTOR_SIZE : positive).

(** [PayloadScanner::Scan]: the next rows, at most a vector of them. *)
Definition Scan (scanner : PayloadScanner) : list N * PayloadScanner :=
  (take (Pos.to_nat STANDARD_VECTOR_SIZE) scanner,
   drop (Pos.to_nat STANDARD_VECTOR_SIZE) scanner).

(** [SinkDataChunk] (lines 73-96), for the key builder that calls it: the
    chunks are built from the first [offset_lists_indices] rows and sunk. *)
Definition SinkDataChunk (child_vector : ChildVector) (kb : KeyBuilder) : KeyBuilder :=
  let slice := Slice child_vector (sel kb) (offset_lists_indices kb) in
  let key_chunk :=
    {| key_indices := lists_indices_data kb; key_slice := slice;
       key_cardinality := offset_lists_indices kb |} in
  let payload_chunk :=
    {| payload_column := payload_vector_data kb;
       payload_cardinality := offset_lists_indices kb |} in
  {| result_validity := result_validity kb;
     sel := sel kb;
     lists_indices_data := lists_indices_data kb;
     payload_vector_data := payload_vector_data kb;
     offset_lists_indices := offset_lists_indices kb;
     incr_payload_count := incr_payload_count kb;
     data_to_sort := true;
     local_sort_state := SinkChunk (local_sort_state kb) key_chunk payload_chunk;
     calls := calls kb ++ [CallSinkChunk (chunk_rows key_chunk payload_chunk)] |}.

Definition reset_offset (kb : KeyBuilder) : KeyBuilder :=
  {| result_validity := result_validity kb;
     sel := sel kb;
     lists_indices_data := lists_indices_data kb;
     payload_vector_data := payload_vector_data kb;
     offset_lists_indices := 0;
     incr_payload_count := incr_payload_count kb;
     data_to_sort := data_to_sort kb;
     local_sort_state := local_sort_state kb;
     calls := calls kb |}.

(** Storing one element (lines 179-183). The offset is below the capacity of
    the three vectors when this is reached ([kb_inv] below), so the stores are
    in range. *)
Definition store_element (kb : KeyBuilder) (i source_idx : nat) : KeyBuilder :=
  {| result_validity := result_validity kb;
     sel := <[offset_lists_indices kb := source_idx]> (sel kb);
     lists_indices_data :=
       <[offset_lists_indices kb := uint16_t (uint32_t (N.of_nat i))]> (lists_indices_data kb);
     payload_vector_data :=
       <[offset_lists_indices kb := incr_payload_count kb]> (payload_vector_data kb);
     offset_lists_indices := offset_lists_indices kb + 1;
     incr_payload_count := uint32_t (incr_payload_count kb + 1);
     data_to_sort := data_to_sort kb;
     local_sort_state := local_sort_state kb;
     calls := calls kb |}.

(** One turn of the loop over the elements of a list (lines 169-184). *)
Definition child_step (child_vector : ChildVector) (i : nat) (list_entry : list_entry_t)
    (kb : KeyBuilder) (child_idx : nat) : KeyBuilder :=
  let kb :=
    if offset_lists_indices kb =? Pos.to_nat STANDARD_VECTOR_SIZE
    then reset_offset (SinkDataChunk child_vector kb)
    else kb in
  let source_idx :=
    get_index (child_sel child_vector) (list_entry_t.offset list_entry + child_idx) in
  store_element kb i source_idx.

Definition mark_invalid (kb : KeyBuilder) (i : nat) : KeyBuilder :=
  {| result_validity := SetInvalid (result_validity kb) i;
     sel := sel kb;
     lists_indices_data := lists_indices_data kb;
     payload_vector_data := payload_vector_data kb;
     offset_lists_indices := offset_lists_indices kb;
     incr_payload_count := incr_payload_count kb;
     data_to_sort := data_to_sort kb;
     local_sort_state := local_sort_state kb;
     calls := calls kb |}.

(** One turn of the loop over the rows (lines 153-185). [lists] is the
    list vector, [list_entries] its entries and [child_vector] its child. *)
Definition row_step (lists : Vector) (list_entries : list list_entry_t)
    (child_vector : ChildVector) (kb : KeyBuilder) (i : nat) : KeyBuilder :=
  let lists_index := get_index (vsel lists) i in
  let list_entry := list_entries !!! lists_index in
  if negb (RowIsValid (validity lists) lists_index) then
    mark_invalid kb i
  else if list_entry_t.length list_entry =? 0 then
    kb
  else
    foldl (child_step child_vector i list_entry) kb (seq 0 (list_entry_t.length list_entry)).

(** The locals before the loop (lines 136-151). *)
Definition new_KeyBuilder (result_validity : gset nat) (calls : list Call) : KeyBuilder :=
  {| result_validity := result_validity;
     sel := replicate (Pos.to_nat STANDARD_VECTOR_SIZE) 0;
     lists_indices_data := replicate (Pos.to_nat STANDARD_VECTOR_SIZE) 0%N;
     payload_vector_data := replicate (Pos.to_nat STANDARD_VECTOR_SIZE) 0%N;
     offset_lists_indices := 0;
     incr_payload_count := 0;
     data_to_sort := false;
     local_sort_state := [];
     calls := calls |}.

(** The Key Builder: the loop over the rows and the sink of what is left
    (lines 149-190). *)
Definition key_builder (count : nat) (lists : Vector) (list_entries : list list_entry_t)
    (child_vector : ChildVector) (kb : KeyBuilder) : KeyBuilder :=
  let kb := foldl (row_step lists list_entries child_vector) kb (seq 0 count) in
  if negb (offset_lists_indices kb =? 0) then SinkDataChunk child_vector kb else kb.

(** The loop over one scanned chunk (lines 218-221). The length of
    [sel_sorted] is the capacity it was created with. A store at an index
    outside it is undefined in the source; here it leaves [sel_sorted] as it
    is, and the index is still counted up. *)
Definition fill_sel_sorted (acc : list nat * nat) (result_data : list N) : list nat * nat :=
  foldl (fun '(sel_sorted, sel_sorted_idx) v =>
           (<[sel_sorted_idx := N.to_nat v]> sel_sorted, sel_sorted_idx + 1))
        acc result_data.

(** The scan loop (lines 204-222): it ends at the first empty chunk. Every
    other chunk shortens what the scanner holds, which is why it ends. *)
Equations scan_loop (scanner : PayloadScanner) (acc : list nat * nat) (calls : list Call) :
    list nat * nat * list Call by wf (length scanner) lt :=
  scan_loop scanner acc calls with inspect (Scan scanner) := {
    | exist _ ([], _) _ := (acc, calls ++ [CallScan []]);
    | exist _ (v :: result_chunk, rest) _ :=
        scan_loop rest (fill_sel_sorted acc (v :: result_chunk))
                  (calls ++ [CallScan (v :: result_chunk)]) }.
Next Obligation.
  intros. destruct scanner as [|x xs]; [by rewrite take_nil in *|].
  rewrite length_drop; simpl; lia.
Qed.

(** Sorting and scanning (lines 194-222): the local state is added to the
    global one, and the sorted payloads are drained into [sel_sorted]. *)
Definition sort_and_scan (info : ListSortBindData) (kb : KeyBuilder) : list nat * nat * list Call :=
  let global_sort_state := {| gs_orders := orders info; sorted_blocks := [] |} in
  let global_sort_state := AddLocalState global_sort_state (local_sort_state kb) in
  let global_sort_state := PrepareMergePhase global_sort_state in
  let log := calls kb ++ [CallAddLocalState; CallPrepareMergePhase] in
  let sel_sorted := replicate (N.to_nat (incr_payload_count kb)) 0 in
  let sel_sorted_idx := 0 in
  let scanner := new_PayloadScanner global_sort_state in
  scan_loop scanner (sel_sorted, sel_sorted_idx) log.

(** [ListSortFunction] (lines 98-230). [st] is the store the vectors of
    [args] live in and [result] the result vector the caller hands in. The
    source keeps the global sort state in the bind data; nothing reads it
    there after the call, and it is a local here. The assertion on the number
    of columns (line 100) is on the caller; the one of line 224 is logged. *)
Definition ListSortFunction (args : DataChunk) (info : ListSortBindData) (st : Store)
    (result : Vector) : Outcome :=
  let count := chunk_size args in
  let lists := chunk_data args !!! 0 in
  let result :=
    {| vtype := vtype result; vsel := incremental; validity := validity result;
       buffer := buffer result; auxiliary := auxiliary result |} in
  if decide (vtype lists = SQLNULL) then
    {| out_store := st;
       out_result :=
         {| vtype := vtype result; vsel := vsel result;
            validity := SetInvalid (validity result) 0;
            buffer := buffer result; auxiliary := auxiliary result |};
       out_calls := [] |}
  else
    let log := [NewGlobalSortState (orders info); LocalSortStateInitialize] in
    let child_vector := children st !!! auxiliary lists in
    let list_entries := entries st !!! buffer lists in
    let kb :=
      key_builder count lists list_entries child_vector
                  (new_KeyBuilder (validity result) log) in
    let '(st, log) :=
      if data_to_sort kb then
        let '(sel_sorted, sel_sorted_idx, log) := sort_and_scan info kb in
        let log :=
          log ++ [CallAssert (bool_decide (N.of_nat sel_sorted_idx = incr_payload_count kb))] in
        let child_vector := Slice child_vector sel_sorted sel_sorted_idx in
        let log := log ++ [CallSlice sel_sorted sel_sorted_idx] in
        let child_vector := Normalify child_vector sel_sorted_idx in
        let log := log ++ [CallNormalify sel_sorted_idx] in
        ({| entries := entries st;
            children := <[auxiliary lists := child_vector]> (children st) |}, log)
      else (st, calls kb) in
    (* result.Reference(lists) *)
    {| out_store := st; out_result := lists; out_calls := log |}.

End ListSortFunction.

(** ** Reading a list vector *)

(** Modelled from the spec: a list value is the "(offset, length) window
    into a shared FlatChildStorage" of its row, or null. A position outside
    the storage has no value. *)
Definition list_value (st : Store) (v : Vector) (i : nat) : option (list (option Value)) :=
  let idx := get_index (vsel v) i in
  if RowIsValid (validity v) idx then
    let list_entry := (entries st !!! buffer v) !!! idx in
    let child_vector := children st !!! auxiliary v in
    Some ((fun child_idx =>
             child_values child_vector !!
               get_index (child_sel child_vector) (list_entry_t.offset list_entry + child_idx))
            <$> seq 0 (list_entry_t.length list_entry))
  else None.

(** ** Registration *)

(** Modelled from the spec: the entry points a scalar function is registered
    with, the function that executes it and the function that binds it
    ([scalar_function_t] and [bind_scalar_function_t], declared outside this
    file). *)
Definition scalar_function_t : Type :=
  DataChunk → ListSortBindData → Store → Vector → Outcome.

Definition bind_scalar_function_t : Type :=
  DBConfig → ScalarFunction → list Expression → Bound (ScalarFunction * FunctionData).

(** Modelled from the spec: what the constructor calls of [RegisterFunction]
    give a [ScalarFunction], in the order they give it: the argument types
    and the return type, the executing function, the two flags, and the
    binder. *)
Record RegisteredFunction := {
  reg_signature : ScalarFunction;
  reg_function : scalar_function_t;
  reg_has_side_effects : bool;
  reg_propagates_null_values : bool;
  reg_bind : bind_scalar_function_t
}.

(** Modelled from the spec: [ScalarFunctionSet], a name and the overloads
    added to it, in order. *)
Record ScalarFunctionSet := {
  set_name : string;
  set_functions : list RegisteredFunction
}.

(** Modelled from the spec: [ScalarFunctionSet(name)] and
    [ScalarFunctionSet::AddFunction]. *)
Definition new_ScalarFunctionSet (name : string) : ScalarFunctionSet :=
  {| set_name := name; set_functions := [] |}.

Definition AddFunction (set : ScalarFunctionSet) (f : RegisteredFunction) : ScalarFunctionSet :=
  {| set_name := set_name set; set_functions := set_functions set ++ [f] |}.

(** Modelled from the spec: [BuiltinFunctions], as the sets handed to
    [BuiltinFunctions::AddFunction], in order. *)
Definition BuiltinFunctions := list ScalarFunctionSet.

Definition AddFunctionSet (set : BuiltinFunctions) (functions : ScalarFunctionSet) :
    BuiltinFunctions :=
  set ++ [functions].

Section RegisterFunction.

Context (STANDARD_VECTOR_SIZE : positive).

(** [ListSortFun::RegisterFunction] (lines 324-372). *)
Definition RegisterFunction (set : BuiltinFunctions) : BuiltinFunctions :=
  (* normal sort *)
  let sort :=
    {| reg_signature := {| fun_arguments := [LIST ANY]; fun_return_type := LIST ANY |};
       reg_function := ListSortFunction STANDARD_VECTOR_SIZE;
       reg_has_side_effects := false; reg_propagates_null_values := false;
       reg_bind := ListNormalSortBind |} in
  let sort_order :=
    {| reg_signature := {| fun_arguments := [LIST ANY; VARCHAR]; fun_return_type := LIST ANY |};
       reg_function := ListSortFunction STANDARD_VECTOR_SIZE;
       reg_has_side_effects := false; reg_propagates_null_values := false;
       reg_bind := ListNormalSortBind |} in
  let sort_orders :=
    {| reg_signature :=
         {| fun_arguments := [LIST ANY; VARCHAR; VARCHAR]; fun_return_type := LIST ANY |};
       reg_function := ListSortFunction STANDARD_VECTOR_SIZE;
       reg_has_side_effects := false; reg_propagates_null_values := false;
       reg_bind := ListNormalSortBind |} in
  let list_sort := new_ScalarFunctionSet "list_sort" in
  let list_sort := AddFunction list_sort sort in
  let list_sort := AddFunction list_sort sort_order in
  let list_sort := AddFunction list_sort sort_orders in
  let set := AddFunctionSet set list_sort in
  let array_sort := new_ScalarFunctionSet "array_sort" in
  let array_sort := AddFunction array_sort sort in
  let array_sort := AddFunction array_sort sort_order in
  let array_sort := AddFunction array_sort sort_orders in
  let set := AddFunctionSet set array_sort in
  (* reverse sort *)
  let sort_reverse :=
    {| reg_signature := {| fun_arguments := [LIST ANY]; fun_return_type := LIST ANY |};
       reg_function := ListSortFunction STANDARD_VECTOR_SIZE;
       reg_has_side_effects := false; reg_propagates_null_values := false;
       reg_bind := ListReverseSortBind |} in
  let sort_reverse_null_order :=
    {| reg_signature := {| fun_arguments := [LIST ANY; VARCHAR]; fun_return_type := LIST ANY |};
       reg_function := ListSortFunction STANDARD_VECTOR_SIZE;
       reg_has_side_effects := false; reg_propagates_null_values := false;
       reg_bind := ListReverseSortBind |} in
  let list_reverse_sort := new_ScalarFunctionSet "list_reverse_sort" in
  let list_reverse_sort := AddFunction list_reverse_sort sort_reverse in
  let list_reverse_sort := AddFunction list_reverse_sort sort_reverse_null_order in
  let set := AddFunctionSet set list_reverse_sort in
  let array_reverse_sort := new_ScalarFunctionSet "array_reverse_sort" in
  let array_reverse_sort := AddFunction array_reverse_sort sort_reverse in
  let array_reverse_sort := AddFunction array_reverse_sort sort_reverse_null_order in
  AddFunctionSet set array_reverse_sort.

End RegisterFunction.


(** * The words of the claims

    Definitions the statements below are written with. None of them is used
    by the functions above. *)

(** The spec's words for the comparison of a token: "case-insensitive".
    [tolower] and [equal_ignoring_case] are independent of the code, which
    upper-cases the argument before it compares. *)
Definition tolower (c : ascii) : ascii :=
  let n := nat_of_ascii c in
  if (65 <=? n) && (n <=? 90) then ascii_of_nat (n + 32) else c.

Fixpoint lower_case (s : string) : string :=
  match s with
  | EmptyString => EmptyString
  | String c rest => String (tolower c) (lower_case rest)
  end.

Definition equal_ignoring_case (s t : string) : Prop := lower_case s = lower_case t.

Definition is_order_token (s : string) : Prop :=
  equal_ignoring_case s "ASC" ∨ equal_ignoring_case s "DESC".

Definition is_null_order_token (s : string) : Prop :=
  equal_ignoring_case s "NULLS FIRST" ∨ equal_ignoring_case s "NULLS LAST".

Definition raises_invalid_input {A} (b : Bound A) : Prop :=
  ∃ msg, b = Throw (InvalidInputException msg).

(** The rows handed to [SinkChunk] so far, read off the calls. *)
Definition sunk_rows (log : list Call) : list SortRow :=
  concat ((λ c, match c with CallSinkChunk rows => rows | _ => [] end) <$> log).

(** The payloads [Scan] has returned so far, read off the calls. *)
Definition scanned (log : list Call) : list N :=
  concat ((λ c, match c with CallScan result_chunk => result_chunk | _ => [] end) <$> log).

(** What the Key Builder owes for row [i], in the words of the source
    comment on [lists_indices]: one key per element of a valid list, the list
    index next to the element read at its source index. *)
Definition row_keys (lists : Vector) (list_entries : list list_entry_t)
    (child_vector : ChildVector) (i : nat) : list (N * Value) :=
  let lists_index := get_index (vsel lists) i in
  let list_entry := list_entries !!! lists_index in
  if RowIsValid (validity lists) lists_index then
    (λ child_idx,
       ((N.of_nat i mod 2 ^ 16)%N,
        GetValue child_vector
          (get_index (child_sel child_vector)
                     (list_entry_t.offset list_entry + child_idx)))) <$>
      seq 0 (list_entry_t.length list_entry)
  else [].

(** Keys numbered from [start] by the running 32-bit payload count. *)
Fixpoint number_rows (start : nat) (keys : list (N * Value)) : list SortRow :=
  match keys with
  | [] => []
  | (g, v) :: keys =>
      {| group := g; element := v; payload := (N.of_nat start mod 2 ^ 32)%N |}
        :: number_rows (S start) keys
  end.

Definition emitted_keys (count : nat) (lists : Vector) (list_entries : list list_entry_t)
    (child_vector : ChildVector) : list (N * Value) :=
  concat (row_keys lists list_entries child_vector <$> seq 0 count).


(** Whether row [i] of the list vector is a valid list, and its entry. *)
Definition row_valid (lists : Vector) (i : nat) : bool :=
  RowIsValid (validity lists) (get_index (vsel lists) i).

Definition row_entry (st : Store) (lists : Vector) (i : nat) : list_entry_t :=
  (entries st !!! buffer lists) !!! get_index (vsel lists) i.

(** The claim as the spec words it: every emitted element is assigned the
    GroupIndex of its owning row. The element [child_idx] of row [i] is the
    sunk row that comes after the keys of the rows before [i] and the
    elements before it in its own row. *)
Definition assigns_owning_row (STANDARD_VECTOR_SIZE : positive) (args : DataChunk)
    (info : ListSortBindData) (st : Store) (result : Vector) : Prop :=
  let lists := chunk_data args !!! 0 in
  let out := ListSortFunction STANDARD_VECTOR_SIZE args info st result in
  ∀ i child_idx,
    i < chunk_size args → row_valid lists i = true →
    child_idx < list_entry_t.length (row_entry st lists i) →
    ∃ r, sunk_rows (out_calls out)
           !! (length (emitted_keys i lists (entries st !!! buffer lists)
                         (children st !!! auxiliary lists)) + child_idx) = Some r ∧
         group r = N.of_nat i.

(** The claim as the spec words it: the assertion of line 224 holds. *)
Definition assertion_holds (STANDARD_VECTOR_SIZE : positive) (args : DataChunk)
    (info : ListSortBindData) (st : Store) (result : Vector) : Prop :=
  CallAssert false ∉ out_calls (ListSortFunction STANDARD_VECTOR_SIZE args info st result).

(** The calls before the loop (lines 117-120). *)
Definition setup_calls (info : ListSortBindData) : list Call :=
  [NewGlobalSortState (orders info); LocalSortStateInitialize].

(** The rows stored in the three vectors and not sunk yet. *)
Definition pending_rows (child_vector : ChildVector) (kb : KeyBuilder) : list SortRow :=
  (λ k, {| group := lists_indices_data kb !!! k;
           element := GetValue child_vector (sel kb !!! k);
           payload := payload_vector_data kb !!! k |}) <$> seq 0 (offset_lists_indices kb).

(** The rows sunk and the rows still to be sunk. *)
Definition all_rows (child_vector : ChildVector) (kb : KeyBuilder) : list SortRow :=
  local_sort_state kb ++ pending_rows child_vector kb.

(** What the loop keeps true of its locals; [log0] are the calls made before
    the loop. *)
Record kb_inv (STANDARD_VECTOR_SIZE : positive) (child_vector : ChildVector)
    (log0 : list Call) (kb : KeyBuilder) : Prop := {
  inv_offset : offset_lists_indices kb ≤ Pos.to_nat STANDARD_VECTOR_SIZE;
  inv_sel : length (sel kb) = Pos.to_nat STANDARD_VECTOR_SIZE;
  inv_indices : length (lists_indices_data kb) = Pos.to_nat STANDARD_VECTOR_SIZE;
  inv_payload : length (payload_vector_data kb) = Pos.to_nat STANDARD_VECTOR_SIZE;
  inv_count : incr_payload_count kb = uint32_t (N.of_nat (length (all_rows child_vector kb)));
  inv_sort : data_to_sort kb = true ↔ local_sort_state kb ≠ [];
  inv_calls : ∃ sinks, calls kb = log0 ++ (CallSinkChunk <$> sinks) ∧
                       concat sinks = local_sort_state kb
}.

(** ** Further words *)

(** The chunks handed to [SinkChunk], one per call, read off the calls. *)
Definition sink_calls (log : list Call) : list (list SortRow) :=
  omap (λ c, match c with CallSinkChunk rows => Some rows | _ => None end) log.

(** An element does not come after another under an order node. *)
Definition value_le (o : BoundOrderByNode) : relation Value :=
  λ a b, compare_column o a b ≠ Gt.

Global Instance value_le_dec o : RelDecision (value_le o).
Proof. intros a b. unfold value_le. apply _. Defined.

(** The two key columns of a sunk row, and their order: the list index
    first, then the element. *)
Definition key_of (r : SortRow) : N * Value := (group r, element r).

Definition key_le (o : BoundOrderByNode) : relation (N * Value) :=
  λ a b, (a.1 < b.1)%N ∨ a.1 = b.1 ∧ value_le o a.2 b.2.

(** The layout list vectors are built in: the valid lists that are not empty
    lie one after the other from position 0 of the child vector, in the order
    of the rows. *)
Definition back_to_back (count : nat) (st : Store) (lists : Vector) : Prop :=
  ∀ i, i < count → row_valid lists i = true →
       list_entry_t.length (row_entry st lists i) ≠ 0 →
       list_entry_t.offset (row_entry st lists i) =
         length (emitted_keys i lists (entries st !!! buffer lists)
                   (children st !!! auxiliary lists)).

(** Every valid list lies inside the storage of the child vector. *)
Definition lists_in_storage (count : nat) (st : Store) (lists : Vector) : Prop :=
  ∀ i, i < count → row_valid lists i = true →
       list_entry_t.offset (row_entry st lists i) + list_entry_t.length (row_entry st lists i)
         ≤ length (child_values (children st !!! auxiliary lists)).

(** What the loop keeps true of the chunks it has sunk: every one of them
    is a full vector. *)
Definition full_sinks (STANDARD_VECTOR_SIZE : positive) (log0 : list Call)
    (kb : KeyBuilder) : Prop :=
  ∃ sinks, calls kb = log0 ++ (CallSinkChunk <$> sinks) ∧
           Forall (λ rows, length rows = Pos.to_nat STANDARD_VECTOR_SIZE) sinks.

(** The locals of the Key Builder with another validity mask of the result. *)
Definition with_validity (mask : gset nat) (kb : KeyBuilder) : KeyBuilder :=
  {| result_validity := mask;
     sel := sel kb;
     lists_indices_data := lists_indices_data kb;
     payload_vector_data := payload_vector_data kb;
     offset_lists_indices := offset_lists_indices kb;
     incr_payload_count := incr_payload_count kb;
     data_to_sort := data_to_sort kb;
     local_sort_state := local_sort_state kb;
     calls := calls kb |}.

(** The assertions of the binders on the number of declared parameters
    (lines 270 and 308). *)
Definition normal_bind_assertion (bound_function : ScalarFunction) : Prop :=
  1 ≤ length (fun_arguments bound_function) ≤ 3.

Definition reverse_bind_assertion (bound_function : ScalarFunction) : Prop :=
  length (fun_arguments bound_function) = 1 ∨ length (fun_arguments bound_function) = 2.

(** The assertion of [ListSortFunction] on the number of columns of its
    arguments (line 100), which has one column for every declared parameter. *)
Definition column_count_assertion (bound_function : ScalarFunction) : Prop :=
  1 ≤ length (fun_arguments bound_function) ≤ 3.

(** * Inputs *)

(** A flat list vector without nulls, with its entries at address 1 and its
    child vector at address 2. *)
Definition wide_lists : Vector :=
  {| vtype := LIST INTEGER; vsel := incremental; validity := ∅; buffer := 1; auxiliary := 2 |}.

(** A batch of [count] rows, each a list of one element. *)
Definition wide_store (count : nat) : Store :=
  {| entries :=
       {[ 1 := (λ i, {| list_entry_t.offset := i; list_entry_t.length := 1 |}) <$> seq 0 count ]};
     children :=
       {[ 2 := {| child_sel := incremental; child_values := replicate count (Some 0%Z) |} ]} |}.

Definition wide_args (count : nat) : DataChunk :=
  {| chunk_data := [wide_lists]; chunk_size := count |}.

(** The result vector a caller hands in: flat, all rows valid. *)
Definition fresh_result : Vector :=
  {| vtype := LIST INTEGER; vsel := incremental; validity := ∅; buffer := 3; auxiliary := 4 |}.

(** A batch of one row, a list of [len] elements. *)
Definition long_store (len : nat) : Store :=
  {| entries := {[ 1 := [ {| list_entry_t.offset := 0; list_entry_t.length := len |} ] ]};
     children :=
       {[ 2 := {| child_sel := incremental; child_values := replicate len (Some 0%Z) |} ]} |}.

Definition long_args : DataChunk := {| chunk_data := [wide_lists]; chunk_size := 1 |}.

(** The list [[3, 1, 2]] held at the positions 1, 2, 3 of the child storage:
    a list vector that selects its second entry, as a filter leaves it. *)
Definition sliced_store : Store :=
  {| entries :=
       {[ 1 := [ {| list_entry_t.offset := 0; list_entry_t.length := 1 |};
                 {| list_entry_t.offset := 1; list_entry_t.length := 3 |} ] ]};
     children :=
       {[ 2 := {| child_sel := incremental;
                  child_values := [Some 9; Some 3; Some 1; Some 2]%Z |} ]} |}.

Definition sliced_lists : Vector :=
  {| vtype := LIST INTEGER; vsel := selection [1]; validity := ∅; buffer := 1; auxiliary := 2 |}.

Definition sliced_args : DataChunk := {| chunk_data := [sliced_lists]; chunk_size := 1 |}.

(** The bind data of [list_sort(l, 'ASC', 'NULLS LAST')] on a list of
    integers. *)
Definition ascending_info : ListSortBindData :=
  new_ListSortBindData ASCENDING NULLS_LAST (LIST INTEGER) INTEGER.

(** The example of the spec, [[[3, 1, 2], NULL, [], [5, NULL, 1]]]: the lists
    lie one after the other from position 0 of the child storage. *)
Definition example_store : Store :=
  {| entries :=
       {[ 1 := [ {| list_entry_t.offset := 0; list_entry_t.length := 3 |};
                 {| list_entry_t.offset := 3; list_entry_t.length := 0 |};
                 {| list_entry_t.offset := 3; list_entry_t.length := 0 |};
                 {| list_entry_t.offset := 3; list_entry_t.length := 3 |} ] ]};
     children :=
       {[ 2 := {| child_sel := incremental;
                  child_values := [Some 3; Some 1; Some 2; Some 5; None; Some 1]%Z |} ]} |}.

Definition example_lists : Vector :=
  {| vtype := LIST INTEGER; vsel := incremental; validity := {[ 1 ]};
     buffer := 1; auxiliary := 2 |}.

Definition example_args : DataChunk := {| chunk_data := [example_lists]; chunk_size := 4 |}.

(** A constant NULL of the untyped-null type, in a batch of two rows. *)
Definition sqlnull_lists : Vector :=
  {| vtype := SQLNULL; vsel := zero; validity := {[ 0 ]}; buffer := 1; auxiliary := 2 |}.

Definition sqlnull_args : DataChunk := {| chunk_data := [sqlnull_lists]; chunk_size := 2 |}.

Definition sqlnull_result : Vector :=
  {| vtype := SQLNULL; vsel := incremental; validity := ∅; buffer := 3; auxiliary := 4 |}.

Definition empty_store : Store := {| entries := ∅; children := ∅ |}.

(** A batch of a null list and an empty list. *)
Definition idle_store : Store :=
  {| entries :=
       {[ 1 := [ {| list_entry_t.offset := 0; list_entry_t.length := 0 |};
                 {| list_entry_t.offset := 0; list_entry_t.length := 0 |} ] ]};
     children := {[ 2 := {| child_sel := incremental; child_values := [Some 4%Z] |} ]} |}.

Definition idle_lists : Vector :=
  {| vtype := LIST INTEGER; vsel := incremental; validity := {[ 0 ]};
     buffer := 1; auxiliary := 2 |}.

Definition idle_args : DataChunk := {| chunk_data := [idle_lists]; chunk_size := 2 |}.

(** The arguments of [list_sort(l, 'Desc', 'nulls first')] on a list of
    integers, the overload they bind, and a configuration. *)
Definition desc_nulls_first_arguments : list Expression :=
  [ {| expr_return_type := LIST INTEGER; IsFoldable := false; EvaluateScalar := "" |};
    {| expr_return_type := VARCHAR; IsFoldable := true; EvaluateScalar := "Desc" |};
    {| expr_return_type := VARCHAR; IsFoldable := true; EvaluateScalar := "nulls first" |} ].

Definition sort_orders_signature : ScalarFunction :=
  {| fun_arguments := [LIST ANY; VARCHAR; VARCHAR]; fun_return_type := LIST ANY |}.

Definition ascending_config : DBConfig :=
  {| default_order_type := ASCENDING; default_null_order := NULLS_LAST |}.

(** * Properties *)

(** ** Binding: the accepted tokens *)

Lemma tolower_toupper c : tolower (toupper c) = tolower c.
Proof. destruct c as [[] [] [] [] [] [] [] []]; reflexivity. Qed.

Lemma toupper_tolower c : toupper (tolower c) = toupper c.
Proof. destruct c as [[] [] [] [] [] [] [] []]; reflexivity. Qed.

Lemma lower_case_transform_toupper s : lower_case (transform_toupper s) = lower_case s.
Proof. induction s as [|c s IH]; simpl; [done|]. by rewrite tolower_toupper, IH. Qed.

Lemma transform_toupper_lower_case s : transform_toupper (lower_case s) = transform_toupper s.
Proof. induction s as [|c s IH]; simpl; [done|]. by rewrite toupper_tolower, IH. Qed.

(** Upper-casing and comparing with an upper-case token is the
    case-insensitive comparison with that token. *)
Lemma transform_toupper_eq s token :
  transform_toupper token = token →
  transform_toupper s = token ↔ equal_ignoring_case s token.
Proof.
  intros Htoken. unfold equal_ignoring_case. split; intros H.
  - by rewrite <- H, lower_case_transform_toupper.
  - by rewrite <- transform_toupper_lower_case, H, transform_toupper_lower_case.
Qed.

Lemma eqb_token s token :
  transform_toupper token = token →
  String.eqb (transform_toupper s) token = true ↔ equal_ignoring_case s token.
Proof. intros H. rewrite String.eqb_eq. by apply transform_toupper_eq. Qed.

Lemma eqb_not_token s token :
  transform_toupper token = token →
  String.eqb (transform_toupper s) token = false ↔ ¬ equal_ignoring_case s token.
Proof. intros H. rewrite <- (eqb_token s token H). by destruct (String.eqb _ _). Qed.

Ltac token_hyps :=
  repeat match goal with
  | H : String.eqb (transform_toupper _) _ = true |- _ =>
      apply eqb_token in H; [|reflexivity]
  | H : String.eqb (transform_toupper _) _ = false |- _ =>
      apply eqb_not_token in H; [|reflexivity]
  end.

Lemma GetNullOrder_throws arguments idx :
  raises_invalid_input (GetNullOrder arguments idx) ↔
  IsFoldable (arguments !!! idx) = false ∨
  ¬ is_null_order_token (EvaluateScalar (arguments !!! idx)).
Proof.
  unfold GetNullOrder, raises_invalid_input, is_null_order_token.
  destruct (IsFoldable (arguments !!! idx)); simpl; [|split; eauto].
  set (name := EvaluateScalar _).
  destruct (String.eqb (transform_toupper name) "NULLS FIRST") eqn:Hfirst;
    destruct (String.eqb (transform_toupper name) "NULLS LAST") eqn:Hlast; simpl;
    token_hyps.
  all: split; [intros [msg Hmsg] | intros [Hconst|Hno]]; try discriminate.
  all: try (exfalso; tauto); try (right; tauto); eauto.
Qed.

Lemma GetNullOrder_returns arguments idx :
  IsFoldable (arguments !!! idx) = true →
  (equal_ignoring_case (EvaluateScalar (arguments !!! idx)) "NULLS LAST" →
   GetNullOrder arguments idx = Return NULLS_LAST) ∧
  (equal_ignoring_case (EvaluateScalar (arguments !!! idx)) "NULLS FIRST" →
   GetNullOrder arguments idx = Return NULLS_FIRST).
Proof.
  intros Hfold. unfold GetNullOrder. rewrite Hfold. simpl.
  set (name := EvaluateScalar _).
  destruct (String.eqb (transform_toupper name) "NULLS FIRST") eqn:Hfirst;
    destruct (String.eqb (transform_toupper name) "NULLS LAST") eqn:Hlast; simpl;
    token_hyps.
  all: split; intros H; try done.
  unfold equal_ignoring_case in *. rewrite Hfirst in Hlast. done.
Qed.

Lemma bind_bound_throws {A B} (m : Bound A) (k : A → Bound B) :
  raises_invalid_input (bind_bound m k) ↔
  raises_invalid_input m ∨ ∃ a, m = Return a ∧ raises_invalid_input (k a).
Proof.
  unfold raises_invalid_input. destruct m as [[msg]|a]; simpl.
  - split; eauto.
  - split.
    + intros H. right. eauto.
    + intros [[msg [=]]|[a' [[= <-] H]]]. done.
Qed.

Lemma raises_Throw {A} msg :
  raises_invalid_input (@Throw A (InvalidInputException msg)) ↔ True.
Proof. split; [done|]. intros _. by eexists. Qed.

(** C7. At binding time an invalid-input error is raised if and only if the
    order argument (the second argument of [list_sort]) is present and is not
    a constant or is not ASC or DESC compared case-insensitively, or the
    null-order argument (the third argument of [list_sort], the second of
    [list_reverse_sort]) is present and is not a constant or is not NULLS
    FIRST or NULLS LAST compared case-insensitively; in particular every case
    variant of the accepted tokens binds. *)
Theorem bind_raises_invalid_input (config : DBConfig) (bound_function : ScalarFunction)
    (arguments : list Expression) :
  (raises_invalid_input (ListNormalSortBind config bound_function arguments) ↔
     (2 ≤ length arguments ∧
      (IsFoldable (arguments !!! 1) = false ∨
       ¬ is_order_token (EvaluateScalar (arguments !!! 1)))) ∨
     (length arguments = 3 ∧
      (IsFoldable (arguments !!! 2) = false ∨
       ¬ is_null_order_token (EvaluateScalar (arguments !!! 2))))) ∧
  (raises_invalid_input (ListReverseSortBind config bound_function arguments) ↔
     length arguments = 2 ∧
     (IsFoldable (arguments !!! 1) = false ∨
      ¬ is_null_order_token (EvaluateScalar (arguments !!! 1)))) ∧
  (∀ list_arg order_arg null_arg,
     IsFoldable order_arg = true → is_order_token (EvaluateScalar order_arg) →
     IsFoldable null_arg = true → is_null_order_token (EvaluateScalar null_arg) →
     (∃ bound, ListNormalSortBind config bound_function [list_arg; order_arg; null_arg]
               = Return bound) ∧
     (∃ bound, ListNormalSortBind config bound_function [list_arg; order_arg]
               = Return bound) ∧
     (∃ bound, ListReverseSortBind config bound_function [list_arg; null_arg]
               = Return bound)).
Proof.
  assert (Hnormal : raises_invalid_input (ListNormalSortBind config bound_function arguments) ↔
     (2 ≤ length arguments ∧
      (IsFoldable (arguments !!! 1) = false ∨
       ¬ is_order_token (EvaluateScalar (arguments !!! 1)))) ∨
     (length arguments = 3 ∧
      (IsFoldable (arguments !!! 2) = false ∨
       ¬ is_null_order_token (EvaluateScalar (arguments !!! 2))))).
  { assert (Hnull : ∀ order,
      raises_invalid_input
        (bind_bound (if length arguments =? 3 then GetNullOrder arguments 2
                     else Return (default_null_order config))
           (λ null_order, Return (ListSortBind bound_function arguments order null_order))) ↔
      length arguments = 3 ∧
      (IsFoldable (arguments !!! 2) = false ∨
       ¬ is_null_order_token (EvaluateScalar (arguments !!! 2)))).
    { intros order. rewrite bind_bound_throws.
      destruct (Nat.eqb_spec (length arguments) 3) as [Hlen|Hlen].
      - rewrite GetNullOrder_throws. split.
        + intros [H|(p & _ & msg & [=])]. done.
        + intros [_ H]. by left.
      - split.
        + intros [[msg [=]]|(p & _ & msg & [=])].
        + intros [? _]. done. }
    unfold ListNormalSortBind, is_order_token.
    destruct (Nat.leb_spec 2 (length arguments)) as [Hlen|Hlen]; cbn [bind_bound].
    - destruct (IsFoldable (arguments !!! 1)); cbn [negb bind_bound].
      + set (name := EvaluateScalar _).
        destruct (String.eqb (transform_toupper name) "DESC") eqn:Hdesc;
          destruct (String.eqb (transform_toupper name) "ASC") eqn:Hasc;
          cbn [negb andb bind_bound]; token_hyps;
          rewrite ?Hnull, ?raises_Throw; intuition discriminate.
      + rewrite raises_Throw. intuition.
    - rewrite Hnull. intuition lia. }
  assert (Hreverse : raises_invalid_input (ListReverseSortBind config bound_function arguments) ↔
     length arguments = 2 ∧
     (IsFoldable (arguments !!! 1) = false ∨
      ¬ is_null_order_token (EvaluateScalar (arguments !!! 1)))).
  { unfold ListReverseSortBind. rewrite bind_bound_throws.
    destruct (Nat.eqb_spec (length arguments) 2) as [Hlen|Hlen].
    - rewrite GetNullOrder_throws. split.
      + intros [H|(p & _ & msg & [=])]. done.
      + intros [_ H]. by left.
    - split.
      + intros [[msg [=]]|(p & _ & msg & [=])].
      + intros [? _]. done. }
  split; [exact Hnormal|]. split; [exact Hreverse|].
  intros list_arg order_arg null_arg Hoc Hot Hnc Hnt.
  assert (Hgno : ∀ (args : list Expression) (idx : nat), args !!! idx = null_arg →
            ∃ p, GetNullOrder args idx = Return p).
  { intros args idx Harg.
    destruct (GetNullOrder args idx) as [[msg]|p] eqn:Hg; [|by eauto].
    assert (Hthrows : raises_invalid_input (GetNullOrder args idx)) by (rewrite Hg; by eexists).
    apply GetNullOrder_throws in Hthrows. rewrite Harg in Hthrows.
    destruct Hthrows as [Hf|Hno]; [congruence|done]. }
  assert (Horder : ∃ order : OrderType,
    (if negb (String.eqb (transform_toupper (EvaluateScalar order_arg)) "DESC") &&
        negb (String.eqb (transform_toupper (EvaluateScalar order_arg)) "ASC")
     then Throw (InvalidInputException "Sorting order must be either ASC or DESC")
     else if String.eqb (transform_toupper (EvaluateScalar order_arg)) "DESC"
          then Return DESCENDING else Return ASCENDING) = Return order).
  { unfold is_order_token in Hot.
    destruct (String.eqb (transform_toupper (EvaluateScalar order_arg)) "DESC") eqn:Hdesc;
      destruct (String.eqb (transform_toupper (EvaluateScalar order_arg)) "ASC") eqn:Hasc;
      simpl; token_hyps; eauto. tauto. }
  destruct Horder as [order Horder].
  destruct (Hgno [list_arg; order_arg; null_arg] 2 eq_refl) as [p2 Hp2].
  destruct (Hgno [list_arg; null_arg] 1 eq_refl) as [p1 Hp1].
  unfold ListNormalSortBind, ListReverseSortBind.
  change ([list_arg; order_arg; null_arg] !!! 1) with order_arg.
  change ([list_arg; order_arg] !!! 1) with order_arg.
  cbn [length Nat.leb Nat.eqb].
  rewrite Hoc. cbn [negb]. rewrite Horder, Hp2, Hp1. cbn [bind_bound].
  repeat split; by eexists.
Qed.

(** ** Binding: the defaults *)

(** C8. With the order and null-order arguments omitted, [list_sort] binds
    with the configured default order and default null order (and with the
    default null order whenever only the null-order argument is omitted);
    [list_reverse_sort] binds with the inverse of the default order,
    descending for an ascending default and ascending for a descending one,
    and with the default null order unless a null-order argument is given,
    whose policy is then used. For a list argument the bind data carries
    exactly this order and null order. *)
Theorem bind_default_orders (config : DBConfig) (bound_function : ScalarFunction)
    (list_arg : Expression) :
  ListNormalSortBind config bound_function [list_arg] =
    Return (ListSortBind bound_function [list_arg]
              (default_order_type config) (default_null_order config)) ∧
  (∀ order_arg bound,
     ListNormalSortBind config bound_function [list_arg; order_arg] = Return bound →
     ∃ order, bound = ListSortBind bound_function [list_arg; order_arg]
                        order (default_null_order config)) ∧
  (∀ inverse,
     default_order_type config = ASCENDING ∧ inverse = DESCENDING ∨
     default_order_type config = DESCENDING ∧ inverse = ASCENDING →
     ListReverseSortBind config bound_function [list_arg] =
       Return (ListSortBind bound_function [list_arg] inverse (default_null_order config)) ∧
     ∀ null_arg, IsFoldable null_arg = true →
       (equal_ignoring_case (EvaluateScalar null_arg) "NULLS LAST" →
        ListReverseSortBind config bound_function [list_arg; null_arg] =
          Return (ListSortBind bound_function [list_arg; null_arg] inverse NULLS_LAST)) ∧
       (equal_ignoring_case (EvaluateScalar null_arg) "NULLS FIRST" →
        ListReverseSortBind config bound_function [list_arg; null_arg] =
          Return (ListSortBind bound_function [list_arg; null_arg] inverse NULLS_FIRST))) ∧
  (∀ arguments order null_order_p,
     expr_return_type (arguments !!! 0) ≠ SQLNULL →
     ∃ info, (ListSortBind bound_function arguments order null_order_p).2 = SortBindData info ∧
             order_type info = order ∧ null_order info = null_order_p).
Proof.
  split; [reflexivity|]. split; [|split].
  - intros order_arg bound. unfold ListNormalSortBind.
    change ([list_arg; order_arg] !!! 1) with order_arg. cbn [length Nat.leb Nat.eqb].
    destruct (IsFoldable order_arg); cbn [negb bind_bound]; [|done].
    destruct (negb _ && negb _); cbn [bind_bound]; [done|].
    destruct (String.eqb _ _); cbn [bind_bound]; intros [= <-]; by eexists.
  - intros inverse Hinverse.
    assert (Hinv : (if decide (default_order_type config = ASCENDING)
                    then DESCENDING else ASCENDING) = inverse).
    { destruct Hinverse as [[Hd ->]|[Hd ->]]; rewrite Hd; reflexivity. }
    split.
    + unfold ListReverseSortBind. cbn [length Nat.eqb bind_bound]. by rewrite Hinv.
    + intros null_arg Hconst.
      destruct (GetNullOrder_returns [list_arg; null_arg] 1 Hconst) as [Hlast Hfirst].
      unfold ListReverseSortBind. cbn [length Nat.eqb]. rewrite Hinv.
      split; intros Htoken.
      * by rewrite (Hlast Htoken).
      * by rewrite (Hfirst Htoken).
  - intros arguments order null_order_p Htype. unfold ListSortBind.
    destruct (decide (expr_return_type (arguments !!! 0) = SQLNULL)); [done|].
    eexists. split; [reflexivity|]. done.
Qed.

(** The binder run on [list_reverse_sort(l, 'nulls last')] under the
    configuration (ASC, NULLS FIRST). *)
Lemma bind_default_orders_witness :
  ListReverseSortBind
    {| default_order_type := ASCENDING; default_null_order := NULLS_FIRST |}
    {| fun_arguments := [LIST ANY; VARCHAR]; fun_return_type := LIST ANY |}
    [ {| expr_return_type := LIST INTEGER; IsFoldable := false; EvaluateScalar := "" |};
      {| expr_return_type := VARCHAR; IsFoldable := true; EvaluateScalar := "nulls last" |} ] =
  Return (ListSortBind
            {| fun_arguments := [LIST ANY; VARCHAR]; fun_return_type := LIST ANY |}
            [ {| expr_return_type := LIST INTEGER; IsFoldable := false; EvaluateScalar := "" |};
              {| expr_return_type := VARCHAR; IsFoldable := true;
                 EvaluateScalar := "nulls last" |} ]
            DESCENDING NULLS_LAST).
Proof.
  refine (proj1 (proj2 (proj1 (proj2 (proj2 (bind_default_orders
    {| default_order_type := ASCENDING; default_null_order := NULLS_FIRST |}
    {| fun_arguments := [LIST ANY; VARCHAR]; fun_return_type := LIST ANY |}
    {| expr_return_type := LIST INTEGER; IsFoldable := false; EvaluateScalar := "" |})))
    DESCENDING (or_introl (conj eq_refl eq_refl)))
    {| expr_return_type := VARCHAR; IsFoldable := true; EvaluateScalar := "nulls last" |}
    eq_refl) _).
  reflexivity.
Defined.

(** ** The sort order *)

Ltac compare_cases :=
  repeat match goal with
  | |- context [Z.compare ?x ?y] => destruct (Z.compare_spec x y)
  | H : context [Z.compare ?x ?y] |- _ => destruct (Z.compare_spec x y)
  end.

Lemma compare_column_opp o a b :
  compare_column o b a = CompOpp (compare_column o a b).
Proof.
  destruct a as [x|], b as [y|]; simpl; try done.
  - destruct (node_type o); apply Z.compare_antisym.
  - by destruct (nulls_first _).
  - by destruct (nulls_first _).
Qed.

Lemma compare_column_trans o a b c :
  compare_column o a b ≠ Gt → compare_column o b c ≠ Gt →
  compare_column o a c ≠ Gt ∧
  (compare_column o a c = Eq → compare_column o a b = Eq ∧ compare_column o b c = Eq).
Proof.
  destruct a as [x|], b as [y|], c as [z|]; simpl;
    destruct (nulls_first (node_null_order o)), (node_type o); try done;
    compare_cases; try done; lia.
Qed.

Lemma compare_rows_opp orders a b :
  compare_rows orders b a = CompOpp (compare_rows orders a b).
Proof.
  induction orders as [|o orders IH]; simpl; [done|].
  rewrite (compare_column_opp o (key_column a _) (key_column b _)).
  by destruct (compare_column o (key_column a _) (key_column b _)).
Qed.

Global Instance row_le_total orders : Total (row_le orders).
Proof.
  intros a b. unfold row_le. rewrite (compare_rows_opp orders a b).
  destruct (compare_rows orders a b); simpl; auto.
Qed.

Global Instance row_le_trans orders : Transitive (row_le orders).
Proof.
  unfold row_le. intros a b c. induction orders as [|o orders IH]; simpl; [done|].
  set (idx := ref_index _).
  pose proof (compare_column_trans o (key_column a idx) (key_column b idx) (key_column c idx))
    as Hcol.
  destruct (compare_column o (key_column a idx) (key_column b idx)) eqn:Hab;
    destruct (compare_column o (key_column b idx) (key_column c idx)) eqn:Hbc;
    try done; intros Hle1 Hle2;
    destruct Hcol as [Hac Heq]; try done;
    destruct (compare_column o (key_column a idx) (key_column c idx)); try done;
    try (by apply IH); by destruct Heq.
Qed.

(** In a strongly sorted list the earlier of two elements is below the later. *)
Lemma StronglySorted_lookup_le {A} (R : relation A) l i j a b :
  StronglySorted R l → l !! i = Some a → l !! j = Some b → i < j → R a b.
Proof.
  intros Hsorted. revert i j. induction Hsorted as [|x l Hsorted IH Hall]; intros i j Hi Hj Hlt.
  - done.
  - destruct j as [|j]; [lia|]. simpl in Hj. destruct i as [|i].
    + injection Hi as <-. rewrite Forall_forall in Hall. apply Hall.
      by eapply list_elem_of_lookup_2.
    + simpl in Hi. eapply IH; eauto. lia.
Qed.

(** The order the bind data configures compares the list indices first, and
    the elements of rows of one list as the user asks. *)
Lemma row_le_levels (order_type_p : OrderType) (null_order_p : OrderByNullType)
    (return_type_p child_type_p : LogicalType) (a b : SortRow) :
  let info := new_ListSortBindData order_type_p null_order_p return_type_p child_type_p in
  let node := {| node_type := order_type_p; node_null_order := null_order_p;
                 node_expression := {| ref_type := child_type_p; ref_index := 1 |} |} in
  row_le (orders info) a b →
  (group a ≤ group b)%N ∧ (group a = group b → value_le node (element a) (element b)).
Proof.
  intros info node. unfold row_le, value_le. simpl.
  destruct (Z.compare_spec (Z.of_N (group a)) (Z.of_N (group b))) as [Heq|Hlt|Hgt].
  - intros Hle. split; [lia|]. intros _.
    by destruct (compare_column _ (element a) (element b)).
  - intros _. split; lia.
  - done.
Qed.

(** ** The Key Builder *)

Lemma scanned_app log1 log2 : scanned (log1 ++ log2) = scanned log1 ++ scanned log2.
Proof. unfold scanned. by rewrite fmap_app, concat_app. Qed.

Lemma sunk_rows_app log1 log2 : sunk_rows (log1 ++ log2) = sunk_rows log1 ++ sunk_rows log2.
Proof. unfold sunk_rows. by rewrite fmap_app, concat_app. Qed.

Lemma number_rows_app start keys1 keys2 :
  number_rows start (keys1 ++ keys2) =
  number_rows start keys1 ++ number_rows (start + length keys1) keys2.
Proof.
  revert start. induction keys1 as [|[g v] keys1 IH]; intros start; simpl.
  - by rewrite Nat.add_0_r.
  - rewrite IH. do 3 f_equal. lia.
Qed.

Lemma length_number_rows start keys : length (number_rows start keys) = length keys.
Proof. revert start. induction keys as [|[g v] keys IH]; intros start; simpl; auto. Qed.

Lemma number_rows_lookup start keys k g v :
  keys !! k = Some (g, v) →
  number_rows start keys !! k =
    Some {| group := g; element := v; payload := (N.of_nat (start + k) mod 2 ^ 32)%N |}.
Proof.
  revert start k. induction keys as [|[g' v'] keys IH]; intros start k Hk; [done|].
  destruct k as [|k]; simpl in *.
  - injection Hk as -> ->. by rewrite Nat.add_0_r.
  - rewrite (IH (S start) k Hk). do 4 f_equal. lia.
Qed.

Lemma uint16_uint32 n : uint16_t (uint32_t n) = (n mod 2 ^ 16)%N.
Proof.
  unfold uint16_t, uint32_t.
  change (2 ^ 32)%N with (2 ^ 16 * 2 ^ 16)%N.
  rewrite N.Div0.mod_mul_r.
  rewrite (N.mul_comm (2 ^ 16)), N.Div0.mod_add. by rewrite N.Div0.mod_mod.
Qed.

Lemma uint32_succ n : uint32_t (uint32_t (N.of_nat n) + 1) = uint32_t (N.of_nat (S n)).
Proof.
  unfold uint32_t. rewrite N.Div0.add_mod_idemp_l. f_equal. lia.
Qed.

Lemma GetValue_Slice (v : ChildVector) (sel : list nat) (count k : nat) :
  k < count → GetValue (Slice v sel count) k = GetValue v (sel !!! k).
Proof.
  intros Hk. unfold Slice, GetValue.
  destruct (child_sel v) as [| |dict] eqn:Hsel; simpl; rewrite ?Hsel; simpl; try done.
  all: rewrite (list_lookup_total_alt (_ <$> _)), list_lookup_fmap.
  all: by rewrite lookup_seq_lt by lia.
Qed.

Section key_builder_rows.

Context (STANDARD_VECTOR_SIZE : positive).
Context (lists : Vector) (list_entries : list list_entry_t) (child_vector : ChildVector).
Context (log0 : list Call).

Local Abbreviation pending_rows := (pending_rows child_vector).
Local Abbreviation all_rows := (all_rows child_vector).
Local Abbreviation kb_inv := (kb_inv STANDARD_VECTOR_SIZE child_vector log0).
Local Abbreviation inv_offset := (inv_offset STANDARD_VECTOR_SIZE child_vector log0).
Local Abbreviation inv_count := (inv_count STANDARD_VECTOR_SIZE child_vector log0).
Local Abbreviation inv_sort := (inv_sort STANDARD_VECTOR_SIZE child_vector log0).
Local Abbreviation inv_calls := (inv_calls STANDARD_VECTOR_SIZE child_vector log0).

Lemma new_KeyBuilder_inv mask :
  kb_inv (new_KeyBuilder STANDARD_VECTOR_SIZE mask log0).
Proof.
  split; simpl; rewrite ?length_replicate; try done; try lia.
  exists []. simpl. by rewrite app_nil_r.
Qed.

Lemma chunk_rows_pending (kb : KeyBuilder) :
  chunk_rows
    {| key_indices := lists_indices_data kb;
       key_slice := Slice child_vector (sel kb) (offset_lists_indices kb);
       key_cardinality := offset_lists_indices kb |}
    {| payload_column := payload_vector_data kb;
       payload_cardinality := offset_lists_indices kb |} = pending_rows kb.
Proof.
  unfold chunk_rows, pending_rows. simpl.
  apply list_fmap_ext. intros k x Hk. apply lookup_seq in Hk as [-> Hk]. simpl.
  by rewrite GetValue_Slice.
Qed.

Lemma SinkChunk_pending (kb : KeyBuilder) :
  SinkChunk (local_sort_state kb)
    {| key_indices := lists_indices_data kb;
       key_slice := Slice child_vector (sel kb) (offset_lists_indices kb);
       key_cardinality := offset_lists_indices kb |}
    {| payload_column := payload_vector_data kb;
       payload_cardinality := offset_lists_indices kb |} = all_rows kb.
Proof. unfold SinkChunk. by rewrite chunk_rows_pending. Qed.

Lemma SinkDataChunk_rows (kb : KeyBuilder) :
  local_sort_state (SinkDataChunk child_vector kb) = all_rows kb ∧
  calls (SinkDataChunk child_vector kb) = calls kb ++ [CallSinkChunk (pending_rows kb)].
Proof.
  unfold SinkDataChunk. simpl. by rewrite SinkChunk_pending, chunk_rows_pending.
Qed.

Lemma SinkDataChunk_calls (kb : KeyBuilder) :
  kb_inv kb →
  ∃ sinks, calls (SinkDataChunk child_vector kb) = log0 ++ (CallSinkChunk <$> sinks) ∧
           concat sinks = all_rows kb.
Proof.
  intros Hinv. destruct (inv_calls kb Hinv) as (sinks & Hcalls & Hsinks).
  exists (sinks ++ [pending_rows kb]). split.
  - rewrite (proj2 (SinkDataChunk_rows kb)), Hcalls, fmap_app, <- app_assoc. done.
  - rewrite concat_app, Hsinks. simpl. by rewrite app_nil_r.
Qed.

Lemma sink_reset_inv (kb : KeyBuilder) :
  kb_inv kb → 0 < offset_lists_indices kb →
  let kb' := reset_offset (SinkDataChunk child_vector kb) in
  kb_inv kb' ∧ all_rows kb' = all_rows kb ∧ offset_lists_indices kb' = 0 ∧
  result_validity kb' = result_validity kb.
Proof.
  intros Hinv Hpos kb'.
  destruct (SinkDataChunk_rows kb) as (Hlocal & Hlog).
  destruct (SinkDataChunk_calls kb Hinv) as (sinks & Hsinks & Hconcat).
  assert (Hall : all_rows kb' = all_rows kb).
  { unfold all_rows at 1. unfold pending_rows. subst kb'. simpl.
    rewrite SinkChunk_pending. by rewrite app_nil_r. }
  split; [|done].
  destruct Hinv as [Hoffset Hsel Hindices Hpayload Hcount Hsort Hcalls].
  split; subst kb'; simpl; try done; try lia.
  - by rewrite Hall in *.
  - rewrite SinkChunk_pending. split; [intros _|done].
    unfold all_rows, pending_rows.
    destruct (offset_lists_indices kb) as [|n] eqn:Hoff; [lia|].
    simpl. by destruct (local_sort_state kb).
  - exists sinks. split; [exact Hsinks|]. by rewrite SinkChunk_pending.
Qed.

Lemma store_element_inv (kb : KeyBuilder) (i source_idx : nat) :
  kb_inv kb → offset_lists_indices kb < Pos.to_nat STANDARD_VECTOR_SIZE →
  let kb' := store_element kb i source_idx in
  kb_inv kb' ∧
  all_rows kb' = all_rows kb ++
    [ {| group := (N.of_nat i mod 2 ^ 16)%N;
         element := GetValue child_vector source_idx;
         payload := (N.of_nat (length (all_rows kb)) mod 2 ^ 32)%N |} ] ∧
  result_validity kb' = result_validity kb.
Proof.
  intros Hinv Hlt kb'.
  destruct Hinv as [Hoffset Hsel Hindices Hpayload Hcount Hsort Hcalls].
  assert (Hall : all_rows kb' = all_rows kb ++
    [ {| group := (N.of_nat i mod 2 ^ 16)%N;
         element := GetValue child_vector source_idx;
         payload := (N.of_nat (length (all_rows kb)) mod 2 ^ 32)%N |} ]).
  { unfold all_rows at 1. unfold pending_rows. subst kb'. simpl.
    rewrite Nat.add_1_r, seq_S, fmap_app. simpl. unfold all_rows at 1.
    rewrite <- app_assoc. f_equal. f_equal.
    - apply list_fmap_ext. intros k x Hk. apply lookup_seq in Hk as [-> Hk]. simpl.
      by rewrite !list_lookup_total_insert_ne by lia.
    - rewrite !list_lookup_total_insert_eq by lia.
      by rewrite uint16_uint32, Hcount. }
  split; [|done].
  split; subst kb'; simpl; rewrite ?length_insert; try done; try lia.
  change (uint32_t (incr_payload_count kb + 1) =
          uint32_t (N.of_nat (length (all_rows (store_element kb i source_idx))))).
  rewrite Hall, length_app, Hcount, uint32_succ. simpl. f_equal. lia.
Qed.

Lemma child_step_inv (kb : KeyBuilder) (i : nat) (list_entry : list_entry_t) (child_idx : nat) :
  kb_inv kb →
  let kb' := child_step STANDARD_VECTOR_SIZE child_vector i list_entry kb child_idx in
  kb_inv kb' ∧
  all_rows kb' = all_rows kb ++
    [ {| group := (N.of_nat i mod 2 ^ 16)%N;
         element := GetValue child_vector
           (get_index (child_sel child_vector) (list_entry_t.offset list_entry + child_idx));
         payload := (N.of_nat (length (all_rows kb)) mod 2 ^ 32)%N |} ] ∧
  result_validity kb' = result_validity kb.
Proof.
  intros Hinv. unfold child_step.
  destruct (Nat.eqb_spec (offset_lists_indices kb) (Pos.to_nat STANDARD_VECTOR_SIZE))
    as [Hfull|Hroom].
  - destruct (sink_reset_inv kb Hinv) as (Hinv' & Hall & Hoff & Hmask); [lia|].
    destruct (store_element_inv _ i
      (get_index (child_sel child_vector) (list_entry_t.offset list_entry + child_idx)) Hinv')
      as (Hinv'' & Hall' & Hmask'); [lia|].
    split; [done|]. split; [|congruence]. by rewrite Hall', Hall.
  - pose proof (inv_offset kb Hinv). apply store_element_inv; [done|lia].
Qed.

Lemma child_loop_inv (i : nat) (list_entry : list_entry_t) (len start : nat) (kb : KeyBuilder) :
  kb_inv kb →
  let kb' := foldl (child_step STANDARD_VECTOR_SIZE child_vector i list_entry) kb
                   (seq start len) in
  kb_inv kb' ∧
  all_rows kb' = all_rows kb ++
    number_rows (length (all_rows kb))
      ((λ child_idx,
          ((N.of_nat i mod 2 ^ 16)%N,
           GetValue child_vector
             (get_index (child_sel child_vector)
                        (list_entry_t.offset list_entry + child_idx)))) <$> seq start len) ∧
  result_validity kb' = result_validity kb.
Proof.
  revert start kb. induction len as [|len IH]; intros start kb Hinv; simpl.
  - by rewrite app_nil_r.
  - destruct (child_step_inv kb i list_entry start Hinv) as (Hinv1 & Hall1 & Hmask1).
    destruct (IH (S start) _ Hinv1) as (Hinv2 & Hall2 & Hmask2).
    split; [done|]. split; [|congruence].
    rewrite Hall2, Hall1, <- app_assoc. simpl. do 3 f_equal.
    rewrite length_app. simpl. lia.
Qed.

Lemma row_step_inv (kb : KeyBuilder) (i : nat) :
  kb_inv kb →
  let kb' := row_step STANDARD_VECTOR_SIZE lists list_entries child_vector kb i in
  kb_inv kb' ∧
  all_rows kb' = all_rows kb ++
    number_rows (length (all_rows kb)) (row_keys lists list_entries child_vector i).
Proof.
  intros Hinv. unfold row_step, row_keys.
  destruct (RowIsValid (validity lists) (get_index (vsel lists) i)); simpl.
  - destruct (Nat.eqb_spec (list_entry_t.length (list_entries !!! get_index (vsel lists) i)) 0)
      as [Hempty|Hlen].
    + rewrite Hempty. simpl. by rewrite app_nil_r.
    + by destruct (child_loop_inv i (list_entries !!! get_index (vsel lists) i)
        (list_entry_t.length (list_entries !!! get_index (vsel lists) i)) 0 kb Hinv)
        as (? & ? & ?).
  - rewrite app_nil_r. split; [|done]. by destruct Hinv.
Qed.

Lemma row_loop_inv (rows : list nat) (kb : KeyBuilder) :
  kb_inv kb →
  let kb' := foldl (row_step STANDARD_VECTOR_SIZE lists list_entries child_vector) kb rows in
  kb_inv kb' ∧
  all_rows kb' = all_rows kb ++
    number_rows (length (all_rows kb))
      (concat (row_keys lists list_entries child_vector <$> rows)).
Proof.
  revert kb. induction rows as [|i rows IH]; intros kb Hinv; simpl.
  - by rewrite app_nil_r.
  - destruct (row_step_inv kb i Hinv) as (Hinv1 & Hall1).
    destruct (IH _ Hinv1) as (Hinv2 & Hall2).
    split; [done|].
    rewrite Hall2, Hall1, <- app_assoc, number_rows_app. do 3 f_equal.
    rewrite length_app, length_number_rows. lia.
Qed.

(** The Key Builder refines the row-by-row description: whatever the
    capacity of the vectors and however often they are flushed, the rows sunk
    are the keys of the rows in order, numbered by the running payload count,
    and they are exactly the rows of the [SinkChunk] calls. *)
Lemma key_builder_rows (count : nat) (mask : gset nat) :
  let keys := emitted_keys count lists list_entries child_vector in
  let kb := key_builder STANDARD_VECTOR_SIZE count lists list_entries child_vector
              (new_KeyBuilder STANDARD_VECTOR_SIZE mask log0) in
  local_sort_state kb = number_rows 0 keys ∧
  (∃ sinks, calls kb = log0 ++ (CallSinkChunk <$> sinks) ∧
            concat sinks = number_rows 0 keys) ∧
  incr_payload_count kb = (N.of_nat (length keys) mod 2 ^ 32)%N ∧
  (data_to_sort kb = true ↔ keys ≠ []).
Proof.
  intros keys kb.
  destruct (row_loop_inv (seq 0 count) _ (new_KeyBuilder_inv mask)) as (Hinv & Hall).
  change (all_rows (new_KeyBuilder STANDARD_VECTOR_SIZE mask log0)) with (@nil SortRow) in Hall.
  simpl in Hall. fold (emitted_keys count lists list_entries child_vector) in Hall.
  fold keys in Hall.
  assert (Hnil : number_rows 0 keys ≠ [] ↔ keys ≠ []).
  { destruct keys as [|[g v] keys']; simpl; split; done. }
  subst kb. unfold key_builder.
  set (kb := foldl _ _ _) in *.
  destruct (Nat.eqb_spec (offset_lists_indices kb) 0) as [Hoff|Hoff]; cbn [negb].
  - assert (Hlocal : local_sort_state kb = number_rows 0 keys).
    { rewrite <- Hall. unfold all_rows, pending_rows. rewrite Hoff. simpl.
      by rewrite app_nil_r. }
    split; [done|]. split; [rewrite <- Hlocal; by apply (inv_calls kb Hinv)|].
    split.
    + rewrite (inv_count kb Hinv), Hall, length_number_rows. done.
    + rewrite (inv_sort kb Hinv), Hlocal. done.
  - destruct (SinkDataChunk_rows kb) as (Hlocal & _).
    rewrite Hlocal, Hall.
    split; [done|]. split; [rewrite <- Hall; by apply SinkDataChunk_calls|]. split.
    + change (incr_payload_count (SinkDataChunk child_vector kb))
        with (incr_payload_count kb).
      rewrite (inv_count kb Hinv), Hall, length_number_rows. done.
    + change (data_to_sort (SinkDataChunk child_vector kb)) with true.
      split; [intros _|done]. apply Hnil. rewrite <- Hall.
      unfold all_rows, pending_rows.
      destruct (offset_lists_indices kb) as [|n]; [done|].
      simpl. by destruct (local_sort_state kb).
Qed.

End key_builder_rows.

(** ** Draining the scan *)

Lemma fill_sel_sorted_app acc chunk1 chunk2 :
  fill_sel_sorted (fill_sel_sorted acc chunk1) chunk2 = fill_sel_sorted acc (chunk1 ++ chunk2).
Proof. unfold fill_sel_sorted. by rewrite foldl_app. Qed.

Lemma fill_sel_sorted_idx sel_sorted sel_sorted_idx result_data :
  (fill_sel_sorted (sel_sorted, sel_sorted_idx) result_data).2 =
  sel_sorted_idx + length result_data.
Proof.
  revert sel_sorted sel_sorted_idx.
  induction result_data as [|v result_data IH]; intros sel_sorted sel_sorted_idx; simpl.
  - lia.
  - unfold fill_sel_sorted in IH. rewrite IH. lia.
Qed.

(** Within its capacity the selection vector is filled from the front. *)
Lemma fill_sel_sorted_prefix prefix room result_data :
  length result_data ≤ room →
  fill_sel_sorted (prefix ++ replicate room 0, length prefix) result_data =
  (prefix ++ (N.to_nat <$> result_data) ++ replicate (room - length result_data) 0,
   length prefix + length result_data).
Proof.
  revert prefix room.
  induction result_data as [|v result_data IH]; intros prefix room Hroom; simpl.
  - by rewrite Nat.sub_0_r, Nat.add_0_r.
  - destruct room as [|room]; simpl in *; [lia|].
    rewrite <- (Nat.add_0_r (length prefix)) at 1. rewrite insert_app_r. simpl.
    rewrite (cons_middle (N.to_nat v) prefix), app_assoc.
    replace (length prefix + 1) with (length (prefix ++ [N.to_nat v]))
      by (rewrite length_app; simpl; lia).
    unfold fill_sel_sorted in IH. rewrite IH by lia.
    rewrite length_app, <- !app_assoc. simpl. f_equal. lia.
Qed.

Lemma fill_sel_sorted_exact result_data :
  fill_sel_sorted (replicate (length result_data) 0, 0) result_data =
  (N.to_nat <$> result_data, length result_data).
Proof.
  pose proof (fill_sel_sorted_prefix [] (length result_data) result_data (le_n _)) as H.
  simpl in H. rewrite H, Nat.sub_diag. simpl. by rewrite app_nil_r.
Qed.

(** The scan loop returns: it calls [Scan] until the scanner is empty, the
    chunks it is given make up what the scanner held, in order, and all of
    them have gone through [fill_sel_sorted]. *)
Lemma scan_loop_drains (STANDARD_VECTOR_SIZE : positive) (scanner : PayloadScanner)
    (acc : list nat * nat) (log : list Call) :
  ∃ chunks,
    scan_loop STANDARD_VECTOR_SIZE scanner acc log =
      (fill_sel_sorted acc scanner, log ++ (CallScan <$> chunks) ++ [CallScan []]) ∧
    concat chunks = scanner.
Proof.
  funelim (scan_loop STANDARD_VECTOR_SIZE scanner acc log).
  - match goal with Htake : take _ _ = [] |- _ => rename Htake into Hempty end.
    assert (Hnil : scanner = []).
    { destruct scanner as [|x scanner]; [done|].
      destruct (Pos.to_nat STANDARD_VECTOR_SIZE) eqn:Hsize; [lia|done]. }
    exists []. by rewrite Hnil.
  - match goal with Htake : take _ _ = _ :: _ |- _ => rename Htake into Hchunk end.
    match goal with IH : ∃ _, _ |- _ => destruct IH as (chunks & -> & Hconcat) end.
    exists ((v :: result_chunk) :: chunks).
    assert (Hsplit : scanner =
              (v :: result_chunk) ++ drop (Pos.to_nat STANDARD_VECTOR_SIZE) scanner).
    { by rewrite <- Hchunk, take_drop. }
    split.
    + rewrite fill_sel_sorted_app, <- Hsplit, <- app_assoc. done.
    + simpl. rewrite Hconcat. by rewrite Hsplit at 2.
Qed.

(** ** The whole function *)

Section ListSortFunction_facts.

Context (STANDARD_VECTOR_SIZE : positive).
Context (args : DataChunk) (info : ListSortBindData) (st : Store) (result : Vector).

Let lists : Vector := chunk_data args !!! 0.
Let list_entries : list list_entry_t := entries st !!! buffer lists.
Let child_vector : ChildVector := children st !!! auxiliary lists.
Let keys : list (N * Value) := emitted_keys (chunk_size args) lists list_entries child_vector.

(** A row without keys leaves everything but the validity mask as it is. *)
Lemma row_step_idle (kb : KeyBuilder) (i : nat) :
  row_keys lists list_entries child_vector i = [] →
  row_step STANDARD_VECTOR_SIZE lists list_entries child_vector kb i = kb ∨
  row_step STANDARD_VECTOR_SIZE lists list_entries child_vector kb i = mark_invalid kb i.
Proof.
  unfold row_keys, row_step.
  destruct (RowIsValid (validity lists) (get_index (vsel lists) i)); simpl; [|by right].
  destruct (list_entry_t.length (list_entries !!! get_index (vsel lists) i)); [by left|done].
Qed.

Lemma row_loop_idle (rows : list nat) (kb : KeyBuilder) :
  concat (row_keys lists list_entries child_vector <$> rows) = [] →
  let kb' := foldl (row_step STANDARD_VECTOR_SIZE lists list_entries child_vector) kb rows in
  offset_lists_indices kb' = offset_lists_indices kb ∧
  data_to_sort kb' = data_to_sort kb ∧
  local_sort_state kb' = local_sort_state kb ∧
  calls kb' = calls kb.
Proof.
  revert kb. induction rows as [|i rows IH]; intros kb Hkeys; simpl in *; [done|].
  apply app_eq_nil in Hkeys as [Hrow Hrows].
  destruct (IH (row_step STANDARD_VECTOR_SIZE lists list_entries child_vector kb i) Hrows)
    as (-> & -> & -> & ->).
  by destruct (row_step_idle kb i Hrow) as [-> | ->].
Qed.

(** Without keys the function only sets up the engine. *)
Lemma ListSortFunction_idle :
  vtype lists ≠ SQLNULL → keys = [] →
  ListSortFunction STANDARD_VECTOR_SIZE args info st result =
  {| out_store := st; out_result := lists; out_calls := (setup_calls info) |}.
Proof.
  intros Htype Hkeys. unfold ListSortFunction. fold lists.
  destruct (decide (vtype lists = SQLNULL)); [done|].
  fold list_entries child_vector. unfold key_builder.
  destruct (row_loop_idle (seq 0 (chunk_size args))
              (new_KeyBuilder STANDARD_VECTOR_SIZE (validity result) (setup_calls info)) Hkeys)
    as (Hoff & Hsort & Hlocal & Hcalls).
  simpl in Hoff, Hsort, Hcalls.
  set (kb := foldl _ _ _) in *. rewrite Hoff. simpl. by rewrite Hsort, Hcalls.
Qed.

(** With keys the function sinks them, has the engine sort them, drains the
    sorted payloads into [sel_sorted], and gathers the child vector in place.
    These are all the calls it makes, in order. [n] is the number of keys. *)
Lemma ListSortFunction_sorts :
  vtype lists ≠ SQLNULL → keys ≠ [] →
  let n := length keys in
  let block := merge_sort (row_le (orders info)) (number_rows 0 keys) in
  ∃ sinks chunks sel_sorted,
    ListSortFunction STANDARD_VECTOR_SIZE args info st result =
    {| out_store :=
         {| entries := entries st;
            children := <[auxiliary lists := Normalify (Slice child_vector sel_sorted n) n]>
                          (children st) |};
       out_result := lists;
       out_calls :=
         (setup_calls info) ++ (CallSinkChunk <$> sinks) ++
         [CallAddLocalState; CallPrepareMergePhase] ++ (CallScan <$> chunks) ++
         [CallScan [];
          CallAssert (bool_decide (N.of_nat n = (N.of_nat n mod 2 ^ 32)%N));
          CallSlice sel_sorted n; CallNormalify n] |} ∧
    concat sinks = number_rows 0 keys ∧
    concat chunks = payload <$> block ∧
    (sel_sorted, n) =
      fill_sel_sorted (replicate (N.to_nat (N.of_nat n mod 2 ^ 32)) 0, 0) (payload <$> block).
Proof.
  intros Htype Hkeys n block.
  destruct (key_builder_rows STANDARD_VECTOR_SIZE lists list_entries child_vector
              (setup_calls info) (chunk_size args) (validity result))
    as (Hlocal & (sinks & Hcalls & Hsinks) & Hcount & Hsort).
  fold keys in Hlocal, Hsinks, Hcount, Hsort.
  apply Hsort in Hkeys as Hdata.
  unfold ListSortFunction. fold lists.
  destruct (decide (vtype lists = SQLNULL)); [done|].
  fold list_entries child_vector. simpl.
  set (kb := key_builder _ _ _ _ _ _) in *. rewrite Hdata.
  unfold sort_and_scan, new_PayloadScanner, PrepareMergePhase, AddLocalState. simpl.
  rewrite Hlocal. fold block.
  destruct (scan_loop_drains STANDARD_VECTOR_SIZE (payload <$> block)
              (replicate (N.to_nat (incr_payload_count kb)) 0, 0)
              (calls kb ++ [CallAddLocalState; CallPrepareMergePhase]))
    as (chunks & -> & Hchunks).
  assert (Hlen : length (payload <$> block) = n).
  { rewrite length_fmap. subst block n.
    by rewrite (Permutation_length (merge_sort_Permutation _ _)), length_number_rows. }
  destruct (fill_sel_sorted _ (payload <$> block)) as [sel_sorted sel_sorted_idx] eqn:Hfill.
  assert (Hidx : sel_sorted_idx = n).
  { pose proof (fill_sel_sorted_idx (replicate (N.to_nat (incr_payload_count kb)) 0) 0
                  (payload <$> block)) as H.
    rewrite Hfill in H. simpl in H. lia. }
  subst sel_sorted_idx.
  exists sinks, chunks, sel_sorted.
  split; [|split; [|split]]; [|done|done|].
  - rewrite Hcount, Hcalls. fold n. rewrite <- !app_assoc. reflexivity.
  - unfold n. rewrite <- Hcount. by rewrite Hfill.
Qed.

End ListSortFunction_facts.

Lemma sunk_rows_cons c log :
  sunk_rows (c :: log) = match c with CallSinkChunk rows => rows | _ => [] end ++ sunk_rows log.
Proof. reflexivity. Qed.

Lemma scanned_cons c log :
  scanned (c :: log) = match c with CallScan chunk => chunk | _ => [] end ++ scanned log.
Proof. reflexivity. Qed.

Lemma sunk_rows_sinks sinks : sunk_rows (CallSinkChunk <$> sinks) = concat sinks.
Proof.
  induction sinks as [|rows sinks IH]; [done|].
  rewrite fmap_cons, sunk_rows_cons, IH. done.
Qed.

Lemma sunk_rows_scans chunks : sunk_rows (CallScan <$> chunks) = [].
Proof.
  induction chunks as [|chunk chunks IH]; [done|].
  rewrite fmap_cons, sunk_rows_cons, IH. done.
Qed.

Lemma scanned_sinks sinks : scanned (CallSinkChunk <$> sinks) = [].
Proof.
  induction sinks as [|rows sinks IH]; [done|].
  rewrite fmap_cons, scanned_cons, IH. done.
Qed.

Lemma scanned_scans chunks : scanned (CallScan <$> chunks) = concat chunks.
Proof.
  induction chunks as [|chunk chunks IH]; [done|].
  rewrite fmap_cons, scanned_cons, IH. done.
Qed.

Lemma row_keys_nil st lists i :
  row_valid lists i = false ∨ list_entry_t.length (row_entry st lists i) = 0 →
  row_keys lists (entries st !!! buffer lists) (children st !!! auxiliary lists) i = [].
Proof.
  unfold row_keys, row_valid, row_entry. intros [-> | ->]; [done|].
  by destruct (RowIsValid _ _).
Qed.

Lemma emitted_keys_nil st lists count :
  (∀ i, i < count →
        row_valid lists i = false ∨ list_entry_t.length (row_entry st lists i) = 0) →
  emitted_keys count lists (entries st !!! buffer lists) (children st !!! auxiliary lists) = [].
Proof.
  intros Hrows. unfold emitted_keys.
  induction count as [|count IH]; [done|].
  rewrite seq_S, fmap_app, concat_app, IH by (intros; apply Hrows; lia).
  simpl. rewrite row_keys_nil by (apply Hrows; lia). done.
Qed.

(** What a call on a list vector leaves of the store and returns. *)
Lemma ListSortFunction_frame (STANDARD_VECTOR_SIZE : positive) (args : DataChunk)
    (info : ListSortBindData) (st : Store) (result : Vector) :
  let lists := chunk_data args !!! 0 in
  let out := ListSortFunction STANDARD_VECTOR_SIZE args info st result in
  vtype lists ≠ SQLNULL →
  out_result out = lists ∧ entries (out_store out) = entries st.
Proof.
  intros lists out Htype. subst out.
  destruct (decide (emitted_keys (chunk_size args) lists (entries st !!! buffer lists)
                      (children st !!! auxiliary lists) = [])) as [Hkeys|Hkeys].
  - by rewrite (ListSortFunction_idle STANDARD_VECTOR_SIZE args info st result Htype Hkeys).
  - by destruct (ListSortFunction_sorts STANDARD_VECTOR_SIZE args info st result Htype Hkeys)
      as (sinks & chunks & sel_sorted & -> & _).
Qed.

(** C10. For a list vector that is not of the untyped-null type, the vector
    the function returns is the input vector itself: the same address of the
    list entries, the same child vector, the same validity and selection.
    The store of list entries is the one before the call, so no list-entry
    storage is allocated or written; the only cell of the store that may
    change is the child vector the input and the result share, and it
    changes in place to the gather ([Slice], then [Normalify]) of what it
    held. *)
Theorem result_references_input (STANDARD_VECTOR_SIZE : positive) (args : DataChunk)
    (info : ListSortBindData) (st : Store) (result : Vector) :
  let lists := chunk_data args !!! 0 in
  let child_vector := children st !!! auxiliary lists in
  let out := ListSortFunction STANDARD_VECTOR_SIZE args info st result in
  vtype lists ≠ SQLNULL →
  out_result out = lists ∧
  entries (out_store out) = entries st ∧
  (children (out_store out) = children st ∨
   ∃ sel_sorted count,
     children (out_store out) =
       <[auxiliary lists := Normalify (Slice child_vector sel_sorted count) count]>
         (children st) ∧
     [CallSlice sel_sorted count; CallNormalify count] `suffix_of` out_calls out) ∧
  (∀ l, l ≠ auxiliary lists → children (out_store out) !! l = children st !! l).
Proof.
  intros lists child_vector out Htype. subst out.
  destruct (decide (emitted_keys (chunk_size args) lists (entries st !!! buffer lists)
                      child_vector = [])) as [Hkeys|Hkeys].
  - rewrite (ListSortFunction_idle STANDARD_VECTOR_SIZE args info st result Htype Hkeys).
    simpl. auto.
  - destruct (ListSortFunction_sorts STANDARD_VECTOR_SIZE args info st result Htype Hkeys)
      as (sinks & chunks & sel_sorted & -> & _).
    simpl. split; [done|]. split; [done|]. split.
    + right. eexists _, _. split; [done|].
      eexists (setup_calls info ++ (CallSinkChunk <$> sinks) ++
               [CallAddLocalState; CallPrepareMergePhase] ++ (CallScan <$> chunks) ++
               [CallScan []; CallAssert _]).
      rewrite <- !app_assoc. reflexivity.
    + intros l Hl. by rewrite lookup_insert_ne.
Qed.

(** C5. If no row of a list vector gives a key, every row being null or of
    length zero, then the function calls nothing after setting up the engine
    (no sink, no sort, no merge, no scan, no slice, no gather), the store is
    the one before the call, child storage included, and the result is the
    input vector. *)
Theorem no_keys_no_sort (STANDARD_VECTOR_SIZE : positive) (args : DataChunk)
    (info : ListSortBindData) (st : Store) (result : Vector) :
  let lists := chunk_data args !!! 0 in
  vtype lists ≠ SQLNULL →
  (∀ i, i < chunk_size args →
        row_valid lists i = false ∨ list_entry_t.length (row_entry st lists i) = 0) →
  ListSortFunction STANDARD_VECTOR_SIZE args info st result =
  {| out_store := st; out_result := lists;
     out_calls := [NewGlobalSortState (orders info); LocalSortStateInitialize] |}.
Proof.
  intros lists Htype Hrows.
  apply ListSortFunction_idle; [done|]. by apply emitted_keys_nil.
Qed.

(** What enters the engine, over the whole call, are the numbered keys. *)
Lemma ListSortFunction_sunk (STANDARD_VECTOR_SIZE : positive) (args : DataChunk)
    (info : ListSortBindData) (st : Store) (result : Vector) :
  let lists := chunk_data args !!! 0 in
  let keys := emitted_keys (chunk_size args) lists (entries st !!! buffer lists)
                (children st !!! auxiliary lists) in
  vtype lists ≠ SQLNULL →
  sunk_rows (out_calls (ListSortFunction STANDARD_VECTOR_SIZE args info st result)) =
  number_rows 0 keys.
Proof.
  intros lists keys Htype.
  destruct (decide (keys = [])) as [Hkeys|Hkeys].
  - rewrite (ListSortFunction_idle STANDARD_VECTOR_SIZE args info st result Htype Hkeys).
    fold keys. by rewrite Hkeys.
  - destruct (ListSortFunction_sorts STANDARD_VECTOR_SIZE args info st result Htype Hkeys)
      as (sinks & chunks & sel_sorted & -> & Hsinks & _).
    cbn [out_calls]. rewrite !sunk_rows_app, sunk_rows_sinks, sunk_rows_scans, Hsinks.
    unfold sunk_rows. simpl. by rewrite app_nil_r.
Qed.

(** What leaves the engine, over the whole call, are the payloads of the
    block it sorted from the numbered keys. *)
Lemma ListSortFunction_scanned (STANDARD_VECTOR_SIZE : positive) (args : DataChunk)
    (info : ListSortBindData) (st : Store) (result : Vector) :
  let lists := chunk_data args !!! 0 in
  let keys := emitted_keys (chunk_size args) lists (entries st !!! buffer lists)
                (children st !!! auxiliary lists) in
  vtype lists ≠ SQLNULL →
  scanned (out_calls (ListSortFunction STANDARD_VECTOR_SIZE args info st result)) =
  payload <$> merge_sort (row_le (orders info)) (number_rows 0 keys).
Proof.
  intros lists keys Htype.
  destruct (decide (keys = [])) as [Hkeys|Hkeys].
  - rewrite (ListSortFunction_idle STANDARD_VECTOR_SIZE args info st result Htype Hkeys).
    fold keys. by rewrite Hkeys.
  - destruct (ListSortFunction_sorts STANDARD_VECTOR_SIZE args info st result Htype Hkeys)
      as (sinks & chunks & sel_sorted & -> & _ & Hchunks & _).
    cbn [out_calls]. rewrite !scanned_app, scanned_sinks, scanned_scans, Hchunks.
    unfold scanned. simpl. by rewrite app_nil_r.
Qed.

(** The engine is set up first, and once. *)
Lemma ListSortFunction_setup (STANDARD_VECTOR_SIZE : positive) (args : DataChunk)
    (info : ListSortBindData) (st : Store) (result : Vector) :
  let lists := chunk_data args !!! 0 in
  vtype lists ≠ SQLNULL →
  ∃ rest,
    out_calls (ListSortFunction STANDARD_VECTOR_SIZE args info st result) =
      NewGlobalSortState (orders info) :: rest ∧
    ∀ orders, NewGlobalSortState orders ∉ rest.
Proof.
  intros lists Htype.
  destruct (decide (emitted_keys (chunk_size args) lists (entries st !!! buffer lists)
                      (children st !!! auxiliary lists) = [])) as [Hkeys|Hkeys].
  - rewrite (ListSortFunction_idle STANDARD_VECTOR_SIZE args info st result Htype Hkeys).
    eexists. split; [reflexivity|].
    intros orders Hin. apply list_elem_of_singleton in Hin. done.
  - destruct (ListSortFunction_sorts STANDARD_VECTOR_SIZE args info st result Htype Hkeys)
      as (sinks & chunks & sel_sorted & -> & _).
    eexists. split; [reflexivity|].
    intros orders.
    rewrite !elem_of_cons, !elem_of_app, !list_elem_of_fmap, !elem_of_cons, elem_of_nil.
    intros [Hin|[Hin|[Hin|[Hin|Hin]]]];
      repeat (destruct Hin as [Hin|Hin]); try done;
      by destruct Hin as (? & ? & ?).
Qed.

(** C3. The order an invocation configures the engine with is exactly
    two-level: first the list index, ascending whatever order the user asks
    for, then the element, with the order and null order the user asks for.
    No invocation sets up the engine with anything else, and an invocation on
    a list vector sets it up with this order first, and once. The payloads an
    invocation scans are those of a block that holds the rows it sank, and in
    this block a row with the lower list index comes before a row with the
    higher one, whatever their elements, and rows of one list index come in
    the order asked for their elements. *)
Theorem two_level_order (STANDARD_VECTOR_SIZE : positive) (args : DataChunk)
    (order_type_p : OrderType) (null_order_p : OrderByNullType)
    (return_type_p child_type_p : LogicalType) (st : Store) (result : Vector) :
  let info := new_ListSortBindData order_type_p null_order_p return_type_p child_type_p in
  let index_node := {| node_type := ASCENDING; node_null_order := ORDER_DEFAULT;
                       node_expression := {| ref_type := USMALLINT; ref_index := 0 |} |} in
  let node := {| node_type := order_type_p; node_null_order := null_order_p;
                 node_expression := {| ref_type := child_type_p; ref_index := 1 |} |} in
  let lists := chunk_data args !!! 0 in
  let out := ListSortFunction STANDARD_VECTOR_SIZE args info st result in
  orders info = [index_node; node] ∧
  (∀ orders, NewGlobalSortState orders ∈ out_calls out → orders = [index_node; node]) ∧
  (vtype lists ≠ SQLNULL →
   ∃ rest, out_calls out = NewGlobalSortState [index_node; node] :: rest ∧
           ∀ orders, NewGlobalSortState orders ∉ rest) ∧
  ∃ block,
    block ≡ₚ sunk_rows (out_calls out) ∧
    scanned (out_calls out) = payload <$> block ∧
    (∀ i j a b, block !! i = Some a → block !! j = Some b →
                (group a < group b)%N → i < j) ∧
    (∀ i j a b, block !! i = Some a → block !! j = Some b → i < j →
                group a = group b → value_le node (element a) (element b)).
Proof.
  intros info index_node node lists out.
  split; [reflexivity|].
  destruct (decide (vtype lists = SQLNULL)) as [Hnull|Htype].
  { (* the untyped null: nothing is called *)
    assert (Hcalls : out_calls out = []).
    { subst out. unfold ListSortFunction. fold lists.
      by destruct (decide (vtype lists = SQLNULL)). }
    rewrite Hcalls. split; [|split; [done|]].
    - intros orders Hin. by apply elem_of_nil in Hin.
    - exists []. repeat split; done. }
  destruct (ListSortFunction_setup STANDARD_VECTOR_SIZE args info st result Htype)
    as (rest & Hcalls & Hrest).
  fold out in Hcalls.
  split; [|split].
  { intros orders Hin. rewrite Hcalls in Hin. apply elem_of_cons in Hin as [Heq|Hin].
    - by injection Heq as ->.
    - by apply Hrest in Hin. }
  { intros _. by exists rest. }
  subst out.
  rewrite (ListSortFunction_sunk STANDARD_VECTOR_SIZE args info st result Htype).
  rewrite (ListSortFunction_scanned STANDARD_VECTOR_SIZE args info st result Htype).
  fold lists.
  set (keys := emitted_keys _ _ _ _).
  set (block := merge_sort (row_le (orders info)) (number_rows 0 keys)).
  assert (Hsorted : StronglySorted (row_le (orders info)) block)
    by (apply StronglySorted_merge_sort; apply _).
  exists block. split; [apply merge_sort_Permutation|]. split; [done|]. split.
  - intros i j a b Hi Hj Hgroup.
    destruct (Nat.lt_trichotomy i j) as [Hij|[->|Hji]]; [done| |].
    + rewrite Hi in Hj. injection Hj as ->. lia.
    + exfalso.
      pose proof (StronglySorted_lookup_le _ _ _ _ _ _ Hsorted Hj Hi Hji) as Hle.
      apply (row_le_levels order_type_p null_order_p return_type_p child_type_p) in Hle
        as [Hle _]. lia.
  - intros i j a b Hi Hj Hij Hgroup.
    pose proof (StronglySorted_lookup_le _ _ _ _ _ _ Hsorted Hi Hj Hij) as Hle.
    apply (row_le_levels order_type_p null_order_p return_type_p child_type_p) in Hle
      as [_ Hle]. by apply Hle.
Qed.

(** C4. A null row of a list vector makes the loop mark the row null in the
    validity mask of the result and nothing else, and a valid row of length
    zero makes it do nothing at all; neither gives a key, and what the call
    sinks into the engine are the keys of the rows and nothing more. In the
    result the null row is null and the empty row is the empty list it was,
    with the entry it had. *)
Theorem null_and_empty_rows (STANDARD_VECTOR_SIZE : positive) (args : DataChunk)
    (info : ListSortBindData) (st : Store) (result : Vector) (i : nat) :
  let lists := chunk_data args !!! 0 in
  let list_entries := entries st !!! buffer lists in
  let child_vector := children st !!! auxiliary lists in
  let out := ListSortFunction STANDARD_VECTOR_SIZE args info st result in
  vtype lists ≠ SQLNULL → i < chunk_size args →
  (row_valid lists i = false →
     (∀ kb, row_step STANDARD_VECTOR_SIZE lists list_entries child_vector kb i =
            mark_invalid kb i) ∧
     (∀ kb, RowIsValid (result_validity
              (row_step STANDARD_VECTOR_SIZE lists list_entries child_vector kb i)) i = false) ∧
     row_keys lists list_entries child_vector i = [] ∧
     list_value (out_store out) (out_result out) i = None) ∧
  (row_valid lists i = true → list_entry_t.length (row_entry st lists i) = 0 →
     (∀ kb, row_step STANDARD_VECTOR_SIZE lists list_entries child_vector kb i = kb) ∧
     row_keys lists list_entries child_vector i = [] ∧
     list_value (out_store out) (out_result out) i = Some [] ∧
     row_entry (out_store out) (out_result out) i = row_entry st lists i) ∧
  sunk_rows (out_calls out) =
    number_rows 0 (concat (row_keys lists list_entries child_vector <$> seq 0 (chunk_size args))).
Proof.
  intros lists list_entries child_vector out Htype Hi.
  destruct (ListSortFunction_frame STANDARD_VECTOR_SIZE args info st result Htype)
    as (Hresult & Hentries).
  fold lists out in Hresult, Hentries.
  split; [|split].
  - intros Hnull.
    assert (Hstep : ∀ kb, row_step STANDARD_VECTOR_SIZE lists list_entries child_vector kb i =
                          mark_invalid kb i).
    { intros kb. unfold row_step. unfold row_valid in Hnull. by rewrite Hnull. }
    split; [exact Hstep|]. split; [|split].
    + intros kb. rewrite Hstep. unfold mark_invalid, RowIsValid, SetInvalid. simpl.
      apply bool_decide_eq_false. set_solver.
    + apply row_keys_nil. by left.
    + unfold list_value. rewrite Hresult. unfold row_valid in Hnull. by rewrite Hnull.
  - intros Hvalid Hempty.
    split; [|split; [|split]].
    + intros kb. unfold row_step. unfold row_valid in Hvalid. unfold row_entry in Hempty.
      fold list_entries in Hempty. by rewrite Hvalid, Hempty.
    + apply row_keys_nil. by right.
    + unfold list_value. rewrite Hresult, Hentries. unfold row_valid in Hvalid.
      unfold row_entry in Hempty. by rewrite Hvalid, Hempty.
    + unfold row_entry. by rewrite Hresult, Hentries.
  - by apply ListSortFunction_sunk.
Qed.

(** ** The list index of an element *)

Lemma row_keys_lookup st lists i child_idx :
  row_valid lists i = true →
  child_idx < list_entry_t.length (row_entry st lists i) →
  row_keys lists (entries st !!! buffer lists) (children st !!! auxiliary lists) i !! child_idx =
  Some ((N.of_nat i mod 2 ^ 16)%N,
        GetValue (children st !!! auxiliary lists)
          (get_index (child_sel (children st !!! auxiliary lists))
                     (list_entry_t.offset (row_entry st lists i) + child_idx))).
Proof.
  unfold row_valid, row_entry, row_keys. intros -> Hlen.
  by rewrite list_lookup_fmap, lookup_seq_lt.
Qed.

Lemma emitted_keys_lookup count lists list_entries child_vector i child_idx key :
  i < count →
  row_keys lists list_entries child_vector i !! child_idx = Some key →
  emitted_keys count lists list_entries child_vector
    !! (length (emitted_keys i lists list_entries child_vector) + child_idx) = Some key.
Proof.
  intros Hi Hkey. unfold emitted_keys.
  replace count with (i + S (count - S i)) by lia.
  rewrite seq_app, fmap_app, concat_app. simpl.
  rewrite lookup_app_r by lia.
  replace (_ + child_idx - _) with child_idx by lia.
  by rewrite lookup_app_l by (by eapply lookup_lt_Some).
Qed.

(** The row sunk for element [child_idx] of row [i]: it comes after the keys
    of the rows before [i] and the elements before it in its own row, and it
    carries the list index modulo 2^16, the element read at its source index,
    and as payload its own place in the sunk rows modulo 2^32. *)
Lemma sunk_row_lookup (STANDARD_VECTOR_SIZE : positive) (args : DataChunk)
    (info : ListSortBindData) (st : Store) (result : Vector) (i child_idx : nat) :
  let lists := chunk_data args !!! 0 in
  let child_vector := children st !!! auxiliary lists in
  let out := ListSortFunction STANDARD_VECTOR_SIZE args info st result in
  let place := length (emitted_keys i lists (entries st !!! buffer lists) child_vector)
               + child_idx in
  vtype lists ≠ SQLNULL →
  i < chunk_size args → row_valid lists i = true →
  child_idx < list_entry_t.length (row_entry st lists i) →
  sunk_rows (out_calls out) !! place =
  Some {| group := (N.of_nat i mod 2 ^ 16)%N;
          element :=
            GetValue child_vector
              (get_index (child_sel child_vector)
                         (list_entry_t.offset (row_entry st lists i) + child_idx));
          payload := (N.of_nat place mod 2 ^ 32)%N |}.
Proof.
  intros lists child_vector out place Htype Hi Hvalid Hchild. subst out.
  rewrite (ListSortFunction_sunk STANDARD_VECTOR_SIZE args info st result Htype).
  pose proof (emitted_keys_lookup (chunk_size args) lists (entries st !!! buffer lists)
                child_vector i child_idx _ Hi (row_keys_lookup st lists i child_idx Hvalid Hchild))
    as Hkey.
  change (chunk_data args !!! 0) with lists.
  change (children st !!! auxiliary lists) with child_vector.
  subst place. by rewrite (number_rows_lookup 0 _ _ _ _ Hkey).
Qed.

(** Where the lists lie one after the other from position 0 of a flat child
    vector, the running count is the position: the payload of an element is
    its place in the child storage. *)
Lemma payload_is_position_when_dense (STANDARD_VECTOR_SIZE : positive) (args : DataChunk)
    (info : ListSortBindData) (st : Store) (result : Vector) (i child_idx : nat) :
  let lists := chunk_data args !!! 0 in
  let child_vector := children st !!! auxiliary lists in
  let out := ListSortFunction STANDARD_VECTOR_SIZE args info st result in
  let place := length (emitted_keys i lists (entries st !!! buffer lists) child_vector)
               + child_idx in
  vtype lists ≠ SQLNULL →
  i < chunk_size args → row_valid lists i = true →
  child_idx < list_entry_t.length (row_entry st lists i) →
  child_sel child_vector = incremental →
  list_entry_t.offset (row_entry st lists i) =
    length (emitted_keys i lists (entries st !!! buffer lists) child_vector) →
  ∃ r, sunk_rows (out_calls out) !! place = Some r ∧
       payload r =
         (N.of_nat (get_index (child_sel child_vector)
                      (list_entry_t.offset (row_entry st lists i) + child_idx)) mod 2 ^ 32)%N.
Proof.
  intros lists child_vector out place Htype Hi Hvalid Hchild Hflat Hdense.
  eexists. split; [by apply sunk_row_lookup|].
  cbn [payload]. rewrite Hflat, Hdense. done.
Qed.

(** The list index stored for every element of row [i] is [i] narrowed to 16
    bits: the index of the owning row for the rows below 65536, and the index
    of another row from row 65536 on. *)
Lemma group_index_modulo (STANDARD_VECTOR_SIZE : positive) (args : DataChunk)
    (info : ListSortBindData) (st : Store) (result : Vector) (i child_idx : nat) :
  let lists := chunk_data args !!! 0 in
  let child_vector := children st !!! auxiliary lists in
  let out := ListSortFunction STANDARD_VECTOR_SIZE args info st result in
  vtype lists ≠ SQLNULL →
  i < chunk_size args → row_valid lists i = true →
  child_idx < list_entry_t.length (row_entry st lists i) →
  ∃ r, sunk_rows (out_calls out)
         !! (length (emitted_keys i lists (entries st !!! buffer lists) child_vector)
             + child_idx) = Some r ∧
       group r = (N.of_nat i mod 2 ^ 16)%N ∧
       ((N.of_nat i < 2 ^ 16)%N → group r = N.of_nat i) ∧
       element r =
         GetValue child_vector
           (get_index (child_sel child_vector)
                      (list_entry_t.offset (row_entry st lists i) + child_idx)).
Proof.
  intros lists child_vector out Htype Hi Hvalid Hchild.
  eexists. split.
  - by apply sunk_row_lookup.
  - simpl. split; [done|]. split; [|done].
    intros Hsmall. by apply N.mod_small.
Qed.

Lemma wide_rows count i :
  i < count →
  row_valid wide_lists i = true ∧
  list_entry_t.length (row_entry (wide_store count) wide_lists i) = 1.
Proof.
  intros Hi. split; [done|].
  unfold row_entry, wide_store. simpl. rewrite lookup_total_singleton_eq.
  rewrite list_lookup_total_alt, list_lookup_fmap, lookup_seq_lt by done. done.
Qed.

Lemma wide_batch_collides (STANDARD_VECTOR_SIZE : positive) (info : ListSortBindData)
    (count : nat) :
  (2 ^ 16 < N.of_nat count)%N →
  ¬ assigns_owning_row STANDARD_VECTOR_SIZE (wide_args count) info (wide_store count)
      fresh_result.
Proof.
  intros Hcount Hclaim.
  assert (Hrow : ∃ i, N.of_nat i = (2 ^ 16)%N ∧ i < count).
  { exists (N.to_nat (2 ^ 16)). split; [apply N2Nat.id|lia]. }
  destruct Hrow as (i & Hrow & Hi).
  destruct (wide_rows count i Hi) as [Hvalid Hlen].
  assert (Hchild : 0 < list_entry_t.length (row_entry (wide_store count) wide_lists i))
    by (rewrite Hlen; lia).
  assert (Htype : vtype wide_lists ≠ SQLNULL) by done.
  destruct (Hclaim i 0 Hi Hvalid Hchild) as (r & Hr & Hgroup).
  pose proof (sunk_row_lookup STANDARD_VECTOR_SIZE (wide_args count) info (wide_store count)
                fresh_result i 0 Htype Hi Hvalid Hchild) as Hr'.
  cbv zeta in Hr'. rewrite Hr in Hr'. injection Hr' as Hr'. rewrite Hr' in Hgroup.
  cbn [group] in Hgroup. rewrite Hrow in Hgroup. done.
Qed.

(** In a batch of lists of one element each, row [i] has [i] keys before
    it. *)
Lemma wide_keys count i :
  i ≤ count →
  length (emitted_keys i wide_lists (entries (wide_store count) !!! buffer wide_lists)
            (children (wide_store count) !!! auxiliary wide_lists)) = i.
Proof.
  intros Hi. unfold emitted_keys. induction i as [|i IH]; [done|].
  rewrite seq_S, fmap_app, concat_app, length_app, IH by lia.
  rewrite fmap_cons, fmap_nil, concat_cons, concat_nil, app_nil_r.
  change (0 + i) with i.
  destruct (wide_rows count i) as [Hvalid Hlen]; [lia|].
  unfold row_keys. unfold row_valid in Hvalid. rewrite Hvalid.
  unfold row_entry in Hlen. rewrite length_fmap, length_seq, Hlen. lia.
Qed.

(** In such a batch the element of a row whose number is a multiple of 65536
    is sunk with the list index 0, as the element of row 0 is. *)
Lemma wide_batch_wraps (STANDARD_VECTOR_SIZE : positive) (info : ListSortBindData)
    (count i : nat) :
  i < count → (N.of_nat i mod 2 ^ 16 = 0)%N →
  let out := ListSortFunction STANDARD_VECTOR_SIZE (wide_args count) info (wide_store count)
               fresh_result in
  ∃ r0 r, sunk_rows (out_calls out) !! 0 = Some r0 ∧ group r0 = 0%N ∧
          sunk_rows (out_calls out) !! i = Some r ∧ group r = 0%N.
Proof.
  intros Hi Hwrap out.
  assert (Htype : vtype (chunk_data (wide_args count) !!! 0) ≠ SQLNULL) by done.
  assert (Hrow : ∀ k, k < count →
            sunk_rows (out_calls out) !! k =
            Some {| group := (N.of_nat k mod 2 ^ 16)%N;
                    element :=
                      GetValue (children (wide_store count) !!! auxiliary wide_lists)
                        (get_index
                           (child_sel (children (wide_store count) !!! auxiliary wide_lists))
                           (list_entry_t.offset (row_entry (wide_store count) wide_lists k) + 0));
                    payload := (N.of_nat k mod 2 ^ 32)%N |}).
  { intros k Hk. destruct (wide_rows count k Hk) as [Hvalid Hlen].
    assert (Hchild : 0 < list_entry_t.length (row_entry (wide_store count) wide_lists k))
      by (rewrite Hlen; lia).
    pose proof (sunk_row_lookup STANDARD_VECTOR_SIZE (wide_args count) info (wide_store count)
                  fresh_result k 0 Htype Hk Hvalid Hchild) as Hr.
    cbv zeta in Hr. change (chunk_data (wide_args count) !!! 0) with wide_lists in Hr.
    rewrite wide_keys, Nat.add_0_r in Hr by lia. exact Hr. }
  eexists _, _. split; [apply Hrow; lia|]. split; [done|].
  split; [by apply Hrow|]. exact Hwrap.
Qed.

(** C1 fails on the code. A batch of 65537 lists of one element each, all of
    them valid, is sorted without an error, and the element of row 65536 is
    sunk with the list index 0, the index of row 0: the row counter is stored
    through a 16-bit pointer. The source comment on [lists_indices] says that
    the element corresponds to the index of its list. *)
Theorem group_index_wraps :
  let count := N.to_nat 65537 in
  let out := ListSortFunction 131072 (wide_args count) ascending_info (wide_store count)
               fresh_result in
  (∀ i, i < count →
        row_valid wide_lists i = true ∧
        list_entry_t.length (row_entry (wide_store count) wide_lists i) = 1) ∧
  (∃ r0 r, sunk_rows (out_calls out) !! 0 = Some r0 ∧ group r0 = 0%N ∧
           sunk_rows (out_calls out) !! N.to_nat 65536 = Some r ∧ group r = 0%N) ∧
  ¬ assigns_owning_row 131072 (wide_args count) ascending_info (wide_store count) fresh_result.
Proof.
  split; [|split].
  - intros i Hi. by apply wide_rows.
  - apply (wide_batch_wraps 131072 ascending_info (N.to_nat 65537) (N.to_nat 65536)); [lia|].
    by rewrite N2Nat.id.
  - apply wide_batch_collides. lia.
Qed.

(** ** The permutation *)

Lemma payload_number_rows start keys :
  (N.of_nat (start + length keys) ≤ 2 ^ 32)%N →
  (λ r, N.to_nat (payload r)) <$> number_rows start keys = seq start (length keys).
Proof.
  revert start. induction keys as [|[g v] keys IH]; intros start Hrange; simpl in *; [done|].
  rewrite IH by lia. f_equal. rewrite N.mod_small by lia. lia.
Qed.

(** When at least one and fewer than 2^32 keys are sunk, the scan loop
    appends the payloads the scanner returns to [sel_sorted] in the order they
    are returned, which is the order of the sorted block; when it has
    finished, [sel_sorted_idx] is the number of rows sunk, the assertion that
    it equals [incr_payload_count] holds, and [sel_sorted], which the child
    vector is then sliced with, names every position below that number
    exactly once. *)
Lemma scan_fills_selection (STANDARD_VECTOR_SIZE : positive) (args : DataChunk)
    (info : ListSortBindData) (st : Store) (result : Vector) :
  let lists := chunk_data args !!! 0 in
  let keys := emitted_keys (chunk_size args) lists (entries st !!! buffer lists)
                (children st !!! auxiliary lists) in
  let out := ListSortFunction STANDARD_VECTOR_SIZE args info st result in
  vtype lists ≠ SQLNULL → keys ≠ [] → (N.of_nat (length keys) < 2 ^ 32)%N →
  ∃ sinks chunks block,
    out_calls out =
      setup_calls info ++ (CallSinkChunk <$> sinks) ++
      [CallAddLocalState; CallPrepareMergePhase] ++ (CallScan <$> chunks) ++
      [CallScan []; CallAssert true;
       CallSlice (N.to_nat <$> concat chunks) (length (concat sinks));
       CallNormalify (length (concat sinks))] ∧
    concat sinks = number_rows 0 keys ∧
    block ≡ₚ concat sinks ∧ StronglySorted (row_le (orders info)) block ∧
    concat chunks = payload <$> block ∧
    length (concat chunks) = length (concat sinks) ∧
    N.to_nat <$> concat chunks ≡ₚ seq 0 (length (concat sinks)) ∧
    assertion_holds STANDARD_VECTOR_SIZE args info st result.
Proof.
  intros lists keys out Htype Hkeys Hrange. subst out. unfold assertion_holds.
  destruct (ListSortFunction_sorts STANDARD_VECTOR_SIZE args info st result Htype Hkeys)
    as (sinks & chunks & sel_sorted & -> & Hsinks & Hchunks & Hfill).
  fold lists keys in Hsinks, Hchunks, Hfill |- *.
  set (block := merge_sort (row_le (orders info)) (number_rows 0 keys)) in *.
  assert (Hperm : block ≡ₚ number_rows 0 keys) by apply merge_sort_Permutation.
  assert (Hlen : length (payload <$> block) = length keys).
  { by rewrite length_fmap, Hperm, length_number_rows. }
  rewrite N.mod_small in Hfill |- * by done.
  rewrite Nat2N.id, <- Hlen, fill_sel_sorted_exact in Hfill.
  injection Hfill as ->.
  rewrite bool_decide_eq_true_2 by done.
  exists sinks, chunks, block. cbn [out_calls].
  rewrite Hsinks, Hchunks, length_number_rows, Hlen.
  split; [done|]. split; [done|]. split; [done|].
  split; [apply StronglySorted_merge_sort; apply _|].
  split; [done|]. split; [done|]. split.
  - rewrite <- list_fmap_compose, Hperm.
    rewrite <- (payload_number_rows 0 keys) by (simpl; lia). done.
  - unfold setup_calls.
    rewrite !elem_of_app, !list_elem_of_fmap, !elem_of_cons, elem_of_nil.
    intros [Hin|[Hin|[Hin|[Hin|Hin]]]];
      repeat (destruct Hin as [Hin|Hin]); try done;
      by destruct Hin as (? & ? & ?).
Qed.

Lemma long_keys len :
  length (emitted_keys 1 wide_lists (entries (long_store len) !!! buffer wide_lists)
            (children (long_store len) !!! auxiliary wide_lists)) = len.
Proof.
  unfold emitted_keys, long_store. simpl. rewrite app_nil_r, lookup_total_singleton_eq.
  unfold row_keys.
  change (RowIsValid (validity wide_lists) (get_index (vsel wide_lists) 0)) with true.
  cbv iota. rewrite length_fmap, length_seq. done.
Qed.

(** The capacity of [sel_sorted] is the one it was created with. *)
Lemma fill_sel_sorted_length sel_sorted sel_sorted_idx result_data :
  length (fill_sel_sorted (sel_sorted, sel_sorted_idx) result_data).1 = length sel_sorted.
Proof.
  revert sel_sorted sel_sorted_idx.
  induction result_data as [|v result_data IH]; intros sel_sorted sel_sorted_idx; [done|].
  simpl. unfold fill_sel_sorted in IH. by rewrite IH, length_insert.
Qed.

(** A list whose length is a multiple of 2^32: the payload count has wrapped
    around to 0 when the keys are sunk, [sel_sorted] is created without room
    for a single entry, the scan returns a payload for every key, and the
    assertion compares their number with 0. *)
Lemma long_list_overruns (STANDARD_VECTOR_SIZE : positive) (info : ListSortBindData)
    (len : nat) :
  len ≠ 0 → (N.of_nat len mod 2 ^ 32 = 0)%N →
  let st := long_store len in
  let out := ListSortFunction STANDARD_VECTOR_SIZE long_args info st fresh_result in
  let kb := key_builder STANDARD_VECTOR_SIZE (chunk_size long_args) wide_lists
              (entries st !!! buffer wide_lists) (children st !!! auxiliary wide_lists)
              (new_KeyBuilder STANDARD_VECTOR_SIZE (validity fresh_result) (setup_calls info)) in
  length (sunk_rows (out_calls out)) = len ∧
  incr_payload_count kb = 0%N ∧
  length (scanned (out_calls out)) = len ∧
  (∃ sel_sorted, CallSlice sel_sorted len ∈ out_calls out ∧ length sel_sorted = 0) ∧
  CallAssert false ∈ out_calls out.
Proof.
  intros Hlen Hwrap st out kb.
  assert (Htype : vtype (chunk_data long_args !!! 0) ≠ SQLNULL) by done.
  pose proof (long_keys len) as Hkeys_len. fold st in Hkeys_len.
  assert (Hkeys : emitted_keys (chunk_size long_args) (chunk_data long_args !!! 0)
                    (entries st !!! buffer (chunk_data long_args !!! 0))
                    (children st !!! auxiliary (chunk_data long_args !!! 0)) ≠ []).
  { intros Hnil. apply (f_equal length) in Hnil.
    change (chunk_data long_args !!! 0) with wide_lists in Hnil.
    change (chunk_size long_args) with 1 in Hnil.
    rewrite Hkeys_len in Hnil. done. }
  split; [|split; [|split]].
  - subst out.
    rewrite (ListSortFunction_sunk STANDARD_VECTOR_SIZE long_args info st fresh_result Htype).
    by rewrite length_number_rows.
  - destruct (key_builder_rows STANDARD_VECTOR_SIZE wide_lists
                (entries st !!! buffer wide_lists) (children st !!! auxiliary wide_lists)
                (setup_calls info) (chunk_size long_args) (validity fresh_result))
      as (_ & _ & Hcount & _).
    fold kb in Hcount. rewrite Hcount.
    change (chunk_size long_args) with 1. by rewrite Hkeys_len.
  - subst out.
    rewrite (ListSortFunction_scanned STANDARD_VECTOR_SIZE long_args info st fresh_result Htype).
    rewrite length_fmap, (Permutation_length (merge_sort_Permutation _ _)), length_number_rows.
    done.
  - subst out.
    destruct (ListSortFunction_sorts STANDARD_VECTOR_SIZE long_args info st fresh_result
                Htype Hkeys)
      as (sinks & chunks & sel_sorted & -> & _ & _ & Hfill).
    cbn [out_calls].
    change (chunk_data long_args !!! 0) with wide_lists in Hfill |- *.
    change (chunk_size long_args) with 1 in Hfill |- *.
    rewrite Hkeys_len in Hfill |- *. rewrite Hwrap in Hfill |- *.
    split.
    + exists sel_sorted. split.
      * rewrite !elem_of_app, !elem_of_cons. do 4 right. right. right. by left.
      * pose proof (fill_sel_sorted_length (replicate (N.to_nat 0) 0) 0
                      (payload <$> merge_sort (row_le (orders info))
                                     (number_rows 0
                                        (emitted_keys 1 wide_lists
                                           (entries st !!! buffer wide_lists)
                                           (children st !!! auxiliary wide_lists)))))
          as Hcap.
        rewrite <- Hfill in Hcap. exact Hcap.
    + rewrite bool_decide_eq_false_2 by lia.
      rewrite !elem_of_app, !elem_of_cons. do 4 right. right. by left.
Qed.

(** C9 fails on the code. For one list of 2^32 elements the 32-bit
    [incr_payload_count] has wrapped around to 0 when the keys are sunk, so
    [sel_sorted] is created with room for no entry; the scan returns a payload
    for each of the 2^32 keys, and the loop stores each of them in
    [sel_sorted], the first one at index 0, outside the vector. The assertion
    of line 224 then compares 2^32 with 0 and does not hold. *)
Theorem payload_count_wraps :
  let len := N.to_nat 4294967296 in
  let st := long_store len in
  let out := ListSortFunction 1024 long_args ascending_info st fresh_result in
  let kb := key_builder 1024 (chunk_size long_args) wide_lists
              (entries st !!! buffer wide_lists) (children st !!! auxiliary wide_lists)
              (new_KeyBuilder 1024 (validity fresh_result) (setup_calls ascending_info)) in
  length (sunk_rows (out_calls out)) = len ∧
  incr_payload_count kb = 0%N ∧
  length (scanned (out_calls out)) = len ∧
  (∃ sel_sorted, CallSlice sel_sorted len ∈ out_calls out ∧ length sel_sorted = 0) ∧
  CallAssert false ∈ out_calls out.
Proof.
  apply (long_list_overruns 1024 ascending_info (N.to_nat 4294967296)); [lia|].
  by rewrite N2Nat.id.
Qed.

(** ** The payload *)

(** C2 fails on the code. For the list [[3, 1, 2]] at the positions 1, 2, 3
    of the child storage the payloads sunk are the running count 0, 1, 2 and
    not the positions; the sorted payloads 1, 2, 0 are then used as positions
    of the child storage, and the list the result holds is not [[1, 2, 3]]: it
    starts with 1, goes on with the 9 of another list and ends outside the
    gathered storage. *)
Theorem payload_is_running_count :
  let out := ListSortFunction 1024 sliced_args ascending_info sliced_store fresh_result in
  list_value sliced_store sliced_lists 0 =
    Some [Some (Some 3); Some (Some 1); Some (Some 2)]%Z ∧
  sunk_rows (out_calls out) =
    [ {| group := 0; element := Some 3%Z; payload := 0 |};
      {| group := 0; element := Some 1%Z; payload := 1 |};
      {| group := 0; element := Some 2%Z; payload := 2 |} ] ∧
  scanned (out_calls out) = [1; 2; 0]%N ∧
  children (out_store out) !! 2 =
    Some {| child_sel := incremental; child_values := [Some 3; Some 1; Some 9]%Z |} ∧
  list_value (out_store out) (out_result out) 0 =
    Some [Some (Some 1); Some (Some 9); None]%Z.
Proof. vm_compute. repeat split; reflexivity. Qed.

Example example_ascending_nulls_last :
  let out := ListSortFunction 2 example_args ascending_info example_store fresh_result in
  (λ i, list_value (out_store out) (out_result out) i) <$> seq 0 4 =
  [ Some [Some (Some 1); Some (Some 2); Some (Some 3)]; None; Some [];
    Some [Some (Some 1); Some (Some 5); Some None] ]%Z.
Proof. vm_compute. reflexivity. Qed.

Example example_descending_nulls_first :
  let out := ListSortFunction 1024 example_args
               (new_ListSortBindData DESCENDING NULLS_FIRST (LIST INTEGER) INTEGER)
               example_store fresh_result in
  (λ i, list_value (out_store out) (out_result out) i) <$> seq 0 4 =
  [ Some [Some (Some 3); Some (Some 2); Some (Some 1)]; None; Some [];
    Some [Some None; Some (Some 5); Some (Some 1)] ]%Z.
Proof. vm_compute. reflexivity. Qed.

(** ** The untyped-null argument *)

(** At binding an argument of the untyped-null type gives the untyped-null
    return type and no sort bind data, so no sort order. *)
Lemma ListSortBind_sqlnull (bound_function : ScalarFunction) (arguments : list Expression)
    (order : OrderType) (null_order_p : OrderByNullType) :
  expr_return_type (arguments !!! 0) = SQLNULL →
  ListSortBind bound_function arguments order null_order_p =
  ({| fun_arguments := <[0 := SQLNULL]> (fun_arguments bound_function);
      fun_return_type := SQLNULL |},
   VariableReturnBindData SQLNULL).
Proof.
  intros Htype. unfold ListSortBind.
  by destruct (decide (expr_return_type (arguments !!! 0) = SQLNULL)).
Qed.

(** For an argument of the untyped-null type the function returns at once:
    it calls nothing, leaves the store alone, and marks row 0 of the flat
    result vector null. *)
Lemma sqlnull_returns_at_once (STANDARD_VECTOR_SIZE : positive) (args : DataChunk)
    (info : ListSortBindData) (st : Store) (result : Vector) :
  vtype (chunk_data args !!! 0) = SQLNULL →
  ListSortFunction STANDARD_VECTOR_SIZE args info st result =
  {| out_store := st;
     out_result :=
       {| vtype := vtype result; vsel := incremental;
          validity := SetInvalid (validity result) 0;
          buffer := buffer result; auxiliary := auxiliary result |};
     out_calls := [] |}.
Proof.
  intros Htype. unfold ListSortFunction.
  by destruct (decide (vtype (chunk_data args !!! 0) = SQLNULL)).
Qed.

(** C6 fails on the code for a batch of more than one row. The engine is not
    invoked, but of the two rows of the flat result only row 0 is null: row 1
    is left valid, though both rows of the argument are null. *)
Theorem sqlnull_marks_row_0_only :
  let out := ListSortFunction 1024 sqlnull_args ascending_info empty_store sqlnull_result in
  out_calls out = [] ∧
  row_valid sqlnull_lists 0 = false ∧ row_valid sqlnull_lists 1 = false ∧
  vsel (out_result out) = incremental ∧
  row_valid (out_result out) 0 = false ∧
  row_valid (out_result out) 1 = true.
Proof. vm_compute. repeat split; reflexivity. Qed.

(** ** The theorems at concrete inputs *)

(** [list_sort(l, 'desc', 'Nulls First')] binds. *)
Lemma bind_raises_invalid_input_witness :
  ∃ bound,
    ListNormalSortBind
      {| default_order_type := ASCENDING; default_null_order := NULLS_FIRST |}
      {| fun_arguments := [LIST ANY; VARCHAR; VARCHAR]; fun_return_type := LIST ANY |}
      [ {| expr_return_type := LIST INTEGER; IsFoldable := false; EvaluateScalar := "" |};
        {| expr_return_type := VARCHAR; IsFoldable := true; EvaluateScalar := "desc" |};
        {| expr_return_type := VARCHAR; IsFoldable := true; EvaluateScalar := "Nulls First" |} ]
    = Return bound.
Proof.
  exact (proj1 (proj2 (proj2 (bind_raises_invalid_input
    {| default_order_type := ASCENDING; default_null_order := NULLS_FIRST |}
    {| fun_arguments := [LIST ANY; VARCHAR; VARCHAR]; fun_return_type := LIST ANY |} []))
    {| expr_return_type := LIST INTEGER; IsFoldable := false; EvaluateScalar := "" |}
    {| expr_return_type := VARCHAR; IsFoldable := true; EvaluateScalar := "desc" |}
    {| expr_return_type := VARCHAR; IsFoldable := true; EvaluateScalar := "Nulls First" |}
    eq_refl (or_intror eq_refl) eq_refl (or_introl eq_refl))).
Defined.

(** [list_sort(l, 'DESC', 'NULLS FIRST')] on the example of the spec: the
    engine is set up with the list index ascending before the element
    descending, and the payloads scanned are those of the sunk rows, list by
    list. *)
Lemma two_level_order_witness :
  let info := new_ListSortBindData DESCENDING NULLS_FIRST (LIST INTEGER) INTEGER in
  let out := ListSortFunction 2 example_args info example_store fresh_result in
  vtype (chunk_data example_args !!! 0) ≠ SQLNULL ∧
  (∃ rest,
     out_calls out =
       NewGlobalSortState
         [ {| node_type := ASCENDING; node_null_order := ORDER_DEFAULT;
              node_expression := {| ref_type := USMALLINT; ref_index := 0 |} |};
           {| node_type := DESCENDING; node_null_order := NULLS_FIRST;
              node_expression := {| ref_type := INTEGER; ref_index := 1 |} |} ] :: rest ∧
     ∀ orders, NewGlobalSortState orders ∉ rest) ∧
  ∃ block,
    block ≡ₚ sunk_rows (out_calls out) ∧
    scanned (out_calls out) = payload <$> block ∧
    (∀ i j a b, block !! i = Some a → block !! j = Some b →
                (group a < group b)%N → i < j) ∧
    (∀ i j a b, block !! i = Some a → block !! j = Some b → i < j →
                group a = group b →
                value_le {| node_type := DESCENDING; node_null_order := NULLS_FIRST;
                            node_expression := {| ref_type := INTEGER; ref_index := 1 |} |}
                  (element a) (element b)).
Proof.
  assert (Htype : vtype (chunk_data example_args !!! 0) ≠ SQLNULL) by discriminate.
  split; [exact Htype|].
  pose proof (two_level_order 2 example_args DESCENDING NULLS_FIRST (LIST INTEGER) INTEGER
                example_store fresh_result) as (_ & _ & Hsetup & Hblock).
  split; [exact (Hsetup Htype)|exact Hblock].
Defined.

(** Row 1 of the example is null and row 2 is the empty list. *)
Lemma null_and_empty_rows_witness :
  (vtype (chunk_data example_args !!! 0) ≠ SQLNULL ∧ 1 < chunk_size example_args ∧
   row_valid (chunk_data example_args !!! 0) 1 = false) ∧
  list_value
    (out_store (ListSortFunction 2 example_args ascending_info example_store fresh_result))
    (out_result (ListSortFunction 2 example_args ascending_info example_store fresh_result))
    1 = None.
Proof.
  assert (Htype : vtype (chunk_data example_args !!! 0) ≠ SQLNULL) by discriminate.
  assert (Hrow : 1 < chunk_size example_args) by (simpl; lia).
  assert (Hnull : row_valid (chunk_data example_args !!! 0) 1 = false)
    by (vm_compute; reflexivity).
  split; [done|].
  exact (proj2 (proj2 (proj2 (proj1
    (null_and_empty_rows 2 example_args ascending_info example_store fresh_result 1
       Htype Hrow) Hnull)))).
Defined.

Lemma idle_rows i :
  i < chunk_size idle_args →
  row_valid (chunk_data idle_args !!! 0) i = false ∨
  list_entry_t.length (row_entry idle_store (chunk_data idle_args !!! 0) i) = 0.
Proof.
  intros Hi. destruct i as [|[|i]]; [by left|by right|simpl in Hi; lia].
Defined.

Lemma no_keys_no_sort_witness :
  vtype (chunk_data idle_args !!! 0) ≠ SQLNULL ∧
  ListSortFunction 1024 idle_args ascending_info idle_store fresh_result =
  {| out_store := idle_store; out_result := chunk_data idle_args !!! 0;
     out_calls := [NewGlobalSortState (orders ascending_info); LocalSortStateInitialize] |}.
Proof.
  assert (Htype : vtype (chunk_data idle_args !!! 0) ≠ SQLNULL) by discriminate.
  split; [done|].
  exact (no_keys_no_sort 1024 idle_args ascending_info idle_store fresh_result
           Htype idle_rows).
Defined.

Lemma result_references_input_witness :
  vtype (chunk_data example_args !!! 0) ≠ SQLNULL ∧
  out_result (ListSortFunction 2 example_args ascending_info example_store fresh_result) =
    chunk_data example_args !!! 0 ∧
  entries (out_store (ListSortFunction 2 example_args ascending_info example_store
                        fresh_result)) = entries example_store.
Proof.
  assert (Htype : vtype (chunk_data example_args !!! 0) ≠ SQLNULL) by discriminate.
  split; [done|].
  pose proof (result_references_input 2 example_args ascending_info example_store fresh_result
                Htype) as (Hresult & Hentries & _).
  split; [exact Hresult|exact Hentries].
Defined.

(** * Further properties

    Properties of the code that the claims above leave out. *)

(** ** Binding: what the arguments give *)

Lemma GetNullOrder_messages (arguments : list Expression) (idx : nat) :
  (IsFoldable (arguments !!! idx) = false →
   GetNullOrder arguments idx =
     Throw (InvalidInputException "Null sorting order must be a constant")) ∧
  (IsFoldable (arguments !!! idx) = true →
   ¬ is_null_order_token (EvaluateScalar (arguments !!! idx)) →
   GetNullOrder arguments idx =
     Throw (InvalidInputException
              "Null sorting order must be either NULLS FIRST or NULLS LAST")).
Proof.
  unfold GetNullOrder, is_null_order_token. split.
  - by intros ->.
  - intros -> Hno. cbn [negb].
    destruct (String.eqb (transform_toupper _) "NULLS FIRST") eqn:Hfirst;
      destruct (String.eqb (transform_toupper _) "NULLS LAST") eqn:Hlast;
      token_hyps; try done; exfalso; tauto.
Qed.

(** X11. [GetNullOrder] decides in this order: an argument that is not a
    constant throws "Null sorting order must be a constant"; a constant that
    is NULLS LAST compared case-insensitively gives [NULLS_LAST], one that is
    NULLS FIRST gives [NULLS_FIRST], and any other constant throws "Null
    sorting order must be either NULLS FIRST or NULLS LAST". It returns no
    other null order than these two. *)
Theorem GetNullOrder_result (arguments : list Expression) (idx : nat) :
  let argument := arguments !!! idx in
  (IsFoldable argument = false →
   GetNullOrder arguments idx =
     Throw (InvalidInputException "Null sorting order must be a constant")) ∧
  (IsFoldable argument = true →
   (equal_ignoring_case (EvaluateScalar argument) "NULLS LAST" →
    GetNullOrder arguments idx = Return NULLS_LAST) ∧
   (equal_ignoring_case (EvaluateScalar argument) "NULLS FIRST" →
    GetNullOrder arguments idx = Return NULLS_FIRST) ∧
   (¬ is_null_order_token (EvaluateScalar argument) →
    GetNullOrder arguments idx =
      Throw (InvalidInputException
               "Null sorting order must be either NULLS FIRST or NULLS LAST"))) ∧
  (∀ p, GetNullOrder arguments idx = Return p → p = NULLS_FIRST ∨ p = NULLS_LAST).
Proof.
  intros argument.
  destruct (GetNullOrder_messages arguments idx) as [Hconst Htoken].
  split; [exact Hconst|]. split.
  - intros Hfold. destruct (GetNullOrder_returns arguments idx Hfold) as [Hlast Hfirst].
    auto.
  - intros p. unfold GetNullOrder.
    destruct (negb _); [done|]. destruct (negb _ && negb _); [done|].
    destruct (String.eqb _ _); intros [= <-]; auto.
Qed.

Lemma order_token_cases (s : string) :
  (equal_ignoring_case s "DESC" →
   String.eqb (transform_toupper s) "DESC" = true) ∧
  (equal_ignoring_case s "ASC" →
   String.eqb (transform_toupper s) "DESC" = false ∧
   String.eqb (transform_toupper s) "ASC" = true).
Proof.
  split.
  - intros H. by apply eqb_token.
  - intros H. split; [|by apply eqb_token].
    apply eqb_not_token; [done|]. unfold equal_ignoring_case in *. rewrite H. done.
Qed.

(** X9. An order and a null order given as constant arguments decide the
    bind data whatever the configuration: ASC and DESC, compared
    case-insensitively, give [ASCENDING] and [DESCENDING], NULLS FIRST and
    NULLS LAST give [NULLS_FIRST] and [NULLS_LAST]; with the order alone the
    null order is the configured default. *)
Theorem bind_explicit_orders (config : DBConfig) (bound_function : ScalarFunction)
    (list_arg order_arg null_arg : Expression) (order_name null_name : string)
    (order : OrderType) (null_order_p : OrderByNullType) :
  IsFoldable order_arg = true → IsFoldable null_arg = true →
  (order_name, order) ∈ [("ASC", ASCENDING); ("DESC", DESCENDING)] →
  (null_name, null_order_p) ∈ [("NULLS FIRST", NULLS_FIRST); ("NULLS LAST", NULLS_LAST)] →
  equal_ignoring_case (EvaluateScalar order_arg) order_name →
  equal_ignoring_case (EvaluateScalar null_arg) null_name →
  ListNormalSortBind config bound_function [list_arg; order_arg; null_arg] =
    Return (ListSortBind bound_function [list_arg; order_arg; null_arg] order null_order_p) ∧
  ListNormalSortBind config bound_function [list_arg; order_arg] =
    Return (ListSortBind bound_function [list_arg; order_arg] order (default_null_order config)).
Proof.
  intros Hoc Hnc Horder Hnull Hot Hnt.
  assert (Hgno : GetNullOrder [list_arg; order_arg; null_arg] 2 = Return null_order_p).
  { destruct (GetNullOrder_returns [list_arg; order_arg; null_arg] 2 Hnc) as [Hlast Hfirst].
    apply elem_of_cons in Hnull as [[= -> ->]|Hnull]; [by apply Hfirst|].
    apply elem_of_cons in Hnull as [[= -> ->]|Hnull]; [by apply Hlast|].
    by apply elem_of_nil in Hnull. }
  destruct (order_token_cases (EvaluateScalar order_arg)) as [Hdesc Hasc].
  unfold ListNormalSortBind.
  change ([list_arg; order_arg; null_arg] !!! 1) with order_arg.
  change ([list_arg; order_arg] !!! 1) with order_arg.
  cbn [length Nat.leb Nat.eqb]. rewrite Hoc. cbn [negb].
  apply elem_of_cons in Horder as [[= -> ->]|Horder].
  - destruct (Hasc Hot) as [-> ->]. cbn [negb andb bind_bound]. by rewrite Hgno.
  - apply elem_of_cons in Horder as [[= -> ->]|Horder]; [|by apply elem_of_nil in Horder].
    rewrite (Hdesc Hot). cbn [negb andb bind_bound]. by rewrite Hgno.
Qed.

(** X10. The messages of the binders, and their precedence. [list_sort]
    checks its order argument first: "Sorting order must be a constant", then
    "Sorting order must be either ASC or DESC", whatever the null-order
    argument is; with an accepted order and three arguments it reports "Null
    sorting order must be a constant", then "Null sorting order must be
    either NULLS FIRST or NULLS LAST". [list_reverse_sort] reads its second
    argument as a null order and reports the two null-order messages. *)
Theorem bind_error_messages (config : DBConfig) (bound_function : ScalarFunction)
    (arguments : list Expression) :
  (2 ≤ length arguments → IsFoldable (arguments !!! 1) = false →
   ListNormalSortBind config bound_function arguments =
     Throw (InvalidInputException "Sorting order must be a constant")) ∧
  (2 ≤ length arguments → IsFoldable (arguments !!! 1) = true →
   ¬ is_order_token (EvaluateScalar (arguments !!! 1)) →
   ListNormalSortBind config bound_function arguments =
     Throw (InvalidInputException "Sorting order must be either ASC or DESC")) ∧
  (length arguments = 3 → IsFoldable (arguments !!! 1) = true →
   is_order_token (EvaluateScalar (arguments !!! 1)) →
   (IsFoldable (arguments !!! 2) = false →
    ListNormalSortBind config bound_function arguments =
      Throw (InvalidInputException "Null sorting order must be a constant")) ∧
   (IsFoldable (arguments !!! 2) = true →
    ¬ is_null_order_token (EvaluateScalar (arguments !!! 2)) →
    ListNormalSortBind config bound_function arguments =
      Throw (InvalidInputException
               "Null sorting order must be either NULLS FIRST or NULLS LAST"))) ∧
  (length arguments = 2 →
   (IsFoldable (arguments !!! 1) = false →
    ListReverseSortBind config bound_function arguments =
      Throw (InvalidInputException "Null sorting order must be a constant")) ∧
   (IsFoldable (arguments !!! 1) = true →
    ¬ is_null_order_token (EvaluateScalar (arguments !!! 1)) →
    ListReverseSortBind config bound_function arguments =
      Throw (InvalidInputException
               "Null sorting order must be either NULLS FIRST or NULLS LAST"))).
Proof.
  pose proof (GetNullOrder_messages arguments) as Hgno.
  split; [|split; [|split]].
  - intros Hlen Hconst. unfold ListNormalSortBind.
    destruct (Nat.leb_spec 2 (length arguments)); [|lia]. by rewrite Hconst.
  - intros Hlen Hconst Hno. unfold ListNormalSortBind, is_order_token in *.
    destruct (Nat.leb_spec 2 (length arguments)); [|lia]. rewrite Hconst. cbn [negb].
    destruct (String.eqb (transform_toupper _) "DESC") eqn:Hdesc;
      destruct (String.eqb (transform_toupper _) "ASC") eqn:Hasc;
      token_hyps; try done; exfalso; tauto.
  - intros Hlen Hconst Htoken.
    assert (Horder : ∃ order,
      ListNormalSortBind config bound_function arguments =
      bind_bound (GetNullOrder arguments 2)
        (λ null_order, Return (ListSortBind bound_function arguments order null_order))).
    { unfold ListNormalSortBind, is_order_token in *. rewrite Hlen. cbn [Nat.leb Nat.eqb].
      rewrite Hconst. cbn [negb].
      destruct (String.eqb (transform_toupper _) "DESC") eqn:Hdesc;
        destruct (String.eqb (transform_toupper _) "ASC") eqn:Hasc;
        token_hyps; cbn [negb andb bind_bound]; try (by eexists); exfalso; tauto. }
    destruct Horder as [order ->]. destruct (Hgno 2) as [Hconst2 Htoken2]. split.
    + intros H. by rewrite (Hconst2 H).
    + intros H Hno. by rewrite (Htoken2 H Hno).
  - intros Hlen. unfold ListReverseSortBind. rewrite Hlen. cbn [Nat.eqb].
    destruct (Hgno 1) as [Hconst1 Htoken1]. split.
    + intros H. by rewrite (Hconst1 H).
    + intros H Hno. by rewrite (Htoken1 H Hno).
Qed.

(** What binding returns when it returns. *)
Lemma bind_returns_ListSortBind (config : DBConfig) (bound_function : ScalarFunction)
    (arguments : list Expression) (bound : ScalarFunction * FunctionData) :
  ListNormalSortBind config bound_function arguments = Return bound ∨
  ListReverseSortBind config bound_function arguments = Return bound →
  ∃ order null_order_p, bound = ListSortBind bound_function arguments order null_order_p.
Proof.
  intros [Hbind|Hbind].
  - unfold ListNormalSortBind in Hbind.
    destruct (if 2 <=? length arguments then _ else _) as [e|order]; [done|].
    cbn [bind_bound] in Hbind.
    destruct (if length arguments =? 3 then _ else _) as [e|null_order_p]; [done|].
    cbn [bind_bound] in Hbind. injection Hbind as <-. by eexists _, _.
  - unfold ListReverseSortBind in Hbind.
    destruct (if length arguments =? 2 then _ else _) as [e|null_order_p]; [done|].
    cbn [bind_bound] in Hbind. injection Hbind as <-. by eexists _, _.
Qed.

(** X12. Whenever [list_sort] or [list_reverse_sort] binds, the bound
    function returns the type of its first argument and has this type as the
    type of its first parameter, the other parameters being as declared. For
    the untyped-null type the bind data is the variable-return data of that
    type; otherwise it is sort bind data which records the list type and its
    child type, a key chunk of a USMALLINT and a child column, and a payload
    chunk of one UINTEGER column. (With no argument the source reads
    [arguments[0]] out of range.) *)
Theorem bind_keeps_list_type (config : DBConfig) (bound_function : ScalarFunction)
    (arguments : list Expression) (bound_function' : ScalarFunction) (data : FunctionData) :
  0 < length arguments →
  ListNormalSortBind config bound_function arguments = Return (bound_function', data) ∨
  ListReverseSortBind config bound_function arguments = Return (bound_function', data) →
  let list_type := expr_return_type (arguments !!! 0) in
  fun_return_type bound_function' = list_type ∧
  fun_arguments bound_function' = <[0 := list_type]> (fun_arguments bound_function) ∧
  (list_type = SQLNULL → data = VariableReturnBindData SQLNULL) ∧
  (list_type ≠ SQLNULL →
   ∃ info, data = SortBindData info ∧
           return_type info = list_type ∧ child_type info = GetChildType list_type ∧
           types info = [USMALLINT; GetChildType list_type] ∧
           payload_types info = [UINTEGER]).
Proof.
  intros Hlen Hbind list_type.
  destruct (bind_returns_ListSortBind _ _ _ _ Hbind) as (order & null_order_p & Hbound).
  unfold ListSortBind in Hbound. fold list_type in Hbound.
  destruct (decide (list_type = SQLNULL)) as [Hnull|Hlist]; injection Hbound as -> ->; simpl.
  - rewrite Hnull. by repeat split.
  - repeat split; [done|]. intros _. by eexists.
Qed.

(** X13. [Copy] and [Equals]. A copy equals what it was copied from, copying
    a copy changes nothing, and the copy of bind data made by the constructor
    is that bind data, types and order nodes included. [Equals] is reflexive,
    symmetric and transitive, and it compares the order and the null order
    only: bind data for lists of different types are equal to it. *)
Theorem Copy_Equals (this other : ListSortBindData) :
  Equals (Copy this) this = true ∧ Equals this (Copy this) = true ∧
  Copy (Copy this) = Copy this ∧
  (∀ order_type_p null_order_p return_type_p child_type_p,
     Copy (new_ListSortBindData order_type_p null_order_p return_type_p child_type_p) =
     new_ListSortBindData order_type_p null_order_p return_type_p child_type_p) ∧
  Equals this this = true ∧
  Equals this other = Equals other this ∧
  (∀ third, Equals this other = true → Equals other third = true →
            Equals this third = true) ∧
  (∀ order_type_p null_order_p return_type_p child_type_p return_type_q child_type_q,
     Equals (new_ListSortBindData order_type_p null_order_p return_type_p child_type_p)
            (new_ListSortBindData order_type_p null_order_p return_type_q child_type_q) = true).
Proof.
  unfold Equals, Copy. simpl. rewrite !bool_decide_eq_true_2 by done.
  repeat split.
  - f_equal; apply bool_decide_ext; split; congruence.
  - intros third.
    rewrite !andb_true_iff, !bool_decide_eq_true. intros [-> ->] [-> ->]. done.
  - intros. by rewrite !bool_decide_eq_true_2.
Qed.

(** ** Registration *)

(** X14. [RegisterFunction] adds four sets after those registered before:
    list_sort, array_sort, list_reverse_sort and array_reverse_sort, in this
    order. array_sort has the overloads of list_sort, array_reverse_sort those
    of list_reverse_sort. The overloads of list_sort take a list, a list and
    a VARCHAR, or a list and two VARCHARs and are bound by
    [ListNormalSortBind], whose assertion on the number of parameters they
    meet; those of list_reverse_sort take a list, or a list and a VARCHAR,
    and are bound by [ListReverseSortBind], whose assertion they meet. All of
    them run [ListSortFunction], whose assertion on the number of columns
    they meet, and return a list. *)
Theorem registered_overloads (STANDARD_VECTOR_SIZE : positive) (set : BuiltinFunctions) :
  ∃ list_sort array_sort list_reverse_sort array_reverse_sort,
    RegisterFunction STANDARD_VECTOR_SIZE set =
      set ++ [list_sort; array_sort; list_reverse_sort; array_reverse_sort] ∧
    set_name <$> [list_sort; array_sort; list_reverse_sort; array_reverse_sort] =
      ["list_sort"; "array_sort"; "list_reverse_sort"; "array_reverse_sort"] ∧
    set_functions array_sort = set_functions list_sort ∧
    set_functions array_reverse_sort = set_functions list_reverse_sort ∧
    fun_arguments ∘ reg_signature <$> set_functions list_sort =
      [[LIST ANY]; [LIST ANY; VARCHAR]; [LIST ANY; VARCHAR; VARCHAR]] ∧
    fun_arguments ∘ reg_signature <$> set_functions list_reverse_sort =
      [[LIST ANY]; [LIST ANY; VARCHAR]] ∧
    (∀ f, f ∈ set_functions list_sort →
          reg_bind f = ListNormalSortBind ∧ normal_bind_assertion (reg_signature f)) ∧
    (∀ f, f ∈ set_functions list_reverse_sort →
          reg_bind f = ListReverseSortBind ∧ reverse_bind_assertion (reg_signature f)) ∧
    (∀ f, f ∈ set_functions list_sort ++ set_functions list_reverse_sort →
          reg_function f = ListSortFunction STANDARD_VECTOR_SIZE ∧
          column_count_assertion (reg_signature f) ∧
          fun_return_type (reg_signature f) = LIST ANY).
Proof.
  eexists _, _, _, _. split.
  { unfold RegisterFunction, AddFunctionSet. rewrite <- !app_assoc. reflexivity. }
  unfold normal_bind_assertion, reverse_bind_assertion, column_count_assertion. simpl.
  repeat split; try done;
    repeat match goal with
    | H : _ ∈ _ :: _ |- _ => apply elem_of_cons in H as [->|H]
    | H : _ ∈ [] |- _ => by apply elem_of_nil in H
    end; simpl; auto; lia.
Qed.

(** ** Sorting list by list *)

(** A list sorted by a measure splits into what is below, at and above a
    bound. *)
Lemma sorted_filter_split {A} (f : A → N) (g : N) (l : list A) :
  StronglySorted (λ a b, (f a ≤ f b)%N) l →
  l = filter (λ a, (f a < g)%N) l ++ filter (λ a, f a = g) l ++ filter (λ a, (g < f a)%N) l.
Proof.
  induction 1 as [|x l Hsorted IH Hall]; [done|].
  rewrite !filter_cons.
  assert (Hnil : ∀ (P : A → Prop) `{∀ a, Decision (P a)},
            (∀ a, (f x ≤ f a)%N → ¬ P a) → filter P l = []).
  { intros P ? HP. destruct (filter P l) as [|a k] eqn:Hfilter; [done|].
    assert (Ha : a ∈ filter P l) by (rewrite Hfilter; left).
    apply list_elem_of_filter in Ha as [HPa Ha]. rewrite Forall_forall in Hall.
    exfalso. by eapply HP; [apply Hall|]. }
  destruct (decide (f x < g)%N) as [Hlt|Hge].
  - rewrite decide_False by lia. rewrite decide_False by lia. simpl. by f_equal.
  - rewrite (Hnil (λ a, (f a < g)%N) _) in IH |- * by (intros; lia).
    destruct (decide (f x = g)) as [Heq|Hne].
    + rewrite decide_False by lia. simpl in *. by f_equal.
    + rewrite (Hnil (λ a, f a = g) _) in IH |- * by (intros; lia).
      rewrite decide_True by lia. simpl in *. by f_equal.
Qed.

Lemma filter_all {A} (P : A → Prop) `{∀ a, Decision (P a)} (l : list A) :
  Forall P l → filter P l = l.
Proof.
  induction 1 as [|x l Hx Hl IH]; [done|]. by rewrite filter_cons_True, IH.
Qed.

Lemma filter_none {A} (P : A → Prop) `{∀ a, Decision (P a)} (l : list A) :
  Forall (λ a, ¬ P a) l → filter P l = [].
Proof.
  induction 1 as [|x l Hx Hl IH]; [done|]. by rewrite filter_cons_False.
Qed.

Lemma StronglySorted_fmap_Forall {A B} (R : relation A) (R' : relation B) (P : A → Prop)
    (f : A → B) (l : list A) :
  (∀ a b, P a → P b → R a b → R' (f a) (f b)) →
  Forall P l → StronglySorted R l → StronglySorted R' (f <$> l).
Proof.
  intros HR HP Hsorted. induction Hsorted as [|x l Hsorted IH Hall]; [constructor|].
  apply Forall_cons in HP as [Hx HP]. csimpl. constructor; [by apply IH|].
  apply Forall_fmap. rewrite Forall_forall in Hall, HP |- *.
  intros a Ha. apply HR; auto.
Qed.

(** A window of a list, read position by position. *)
Lemma window_lookup {A} (l : list A) (off len : nat) :
  off + len ≤ length l →
  (λ c, l !! (off + c)) <$> seq 0 len = Some <$> take len (drop off l).
Proof.
  intros Hrange. apply list_eq. intros k. rewrite !list_lookup_fmap.
  destruct (decide (k < len)) as [Hk|Hk].
  - rewrite lookup_seq_lt by done. rewrite lookup_take_lt by done. rewrite lookup_drop. simpl.
    destruct (lookup_lt_is_Some_2 l (off + k)) as [x Hx]; [lia|]. by rewrite Hx.
  - rewrite lookup_seq_ge by lia. rewrite lookup_take_ge by lia. done.
Qed.

Lemma window_lookup_total {A} `{Inhabited A} (l : list A) (off len : nat) :
  off + len ≤ length l →
  take len (drop off l) = (λ c, l !!! (off + c)) <$> seq 0 len.
Proof.
  intros Hrange. apply list_eq. intros k. rewrite list_lookup_fmap.
  destruct (decide (k < len)) as [Hk|Hk].
  - rewrite lookup_seq_lt by done. rewrite lookup_take_lt by done. rewrite lookup_drop. simpl.
    destruct (lookup_lt_is_Some_2 l (off + k)) as [x Hx]; [lia|].
    by rewrite Hx, (list_lookup_total_correct _ _ _ Hx).
  - rewrite lookup_seq_ge by lia. rewrite lookup_take_ge by lia. done.
Qed.

Lemma group_number_rows start keys : group <$> number_rows start keys = keys.*1.
Proof.
  revert start. induction keys as [|[g v] keys IH]; intros start; simpl; [done|].
  by rewrite IH.
Qed.

Lemma element_number_rows start keys : element <$> number_rows start keys = keys.*2.
Proof.
  revert start. induction keys as [|[g v] keys IH]; intros start; simpl; [done|].
  by rewrite IH.
Qed.

Lemma number_rows_lookup_inv start keys k r :
  number_rows start keys !! k = Some r →
  ∃ g v, keys !! k = Some (g, v) ∧
         r = {| group := g; element := v; payload := (N.of_nat (start + k) mod 2 ^ 32)%N |}.
Proof.
  intros Hr.
  destruct (lookup_lt_is_Some_2 keys k) as [[g v] Hkey].
  { rewrite <- (length_number_rows start). by eapply lookup_lt_Some. }
  exists g, v. split; [done|].
  rewrite (number_rows_lookup start keys k g v Hkey) in Hr. by injection Hr.
Qed.

(** The list indices of numbered keys are those of the keys. *)
Lemma number_rows_Forall_group (P : N → Prop) start keys :
  Forall (λ key, P key.1) keys → Forall (λ r, P (group r)) (number_rows start keys).
Proof.
  intros Hkeys. revert start.
  induction Hkeys as [|[g v] keys Hkey Hkeys IH]; intros start; simpl; constructor; auto.
Qed.

Section keys_of_rows.

Context (lists : Vector) (list_entries : list list_entry_t) (child_vector : ChildVector).

Local Abbreviation row_keys := (row_keys lists list_entries child_vector).
Local Abbreviation keys_upto count := (emitted_keys count lists list_entries child_vector).

Lemma emitted_keys_app (i m : nat) :
  keys_upto (i + m) = keys_upto i ++ concat (row_keys <$> seq i m).
Proof. unfold emitted_keys. by rewrite seq_app, fmap_app, concat_app. Qed.

Lemma emitted_keys_split (count i : nat) :
  i < count →
  keys_upto count =
  keys_upto i ++ row_keys i ++ concat (row_keys <$> seq (S i) (count - S i)).
Proof.
  intros Hi. replace count with (i + S (count - S i)) at 1 by lia.
  by rewrite emitted_keys_app.
Qed.

Lemma emitted_keys_length_le (count i : nat) :
  i ≤ count → length (keys_upto i) ≤ length (keys_upto count).
Proof.
  intros Hi. replace count with (i + (count - i)) by lia.
  rewrite emitted_keys_app, length_app. lia.
Qed.

Lemma row_keys_group (i : nat) :
  Forall (λ key, key.1 = (N.of_nat i mod 2 ^ 16)%N) (row_keys i).
Proof.
  unfold row_keys. destruct (RowIsValid _ _); [|constructor].
  apply Forall_fmap, Forall_forall. done.
Qed.

Lemma row_keys_length (i : nat) :
  length (row_keys i) =
  if RowIsValid (validity lists) (get_index (vsel lists) i)
  then list_entry_t.length (list_entries !!! get_index (vsel lists) i) else 0.
Proof.
  unfold row_keys. destruct (RowIsValid _ _); [|done].
  by rewrite length_fmap, length_seq.
Qed.

(** The list indices of the rows [a .. a + m) that fit into 16 bits. *)
Lemma keys_group_range (a m : nat) :
  (N.of_nat (a + m) ≤ 2 ^ 16)%N →
  Forall (λ key, (N.of_nat a ≤ key.1 < N.of_nat (a + m))%N) (concat (row_keys <$> seq a m)).
Proof.
  intros Hrange. apply Forall_concat, Forall_fmap, Forall_forall.
  intros i Hi. apply elem_of_seq in Hi. simpl.
  eapply Forall_impl; [apply row_keys_group|]. simpl.
  intros key ->. rewrite N.mod_small by lia. lia.
Qed.

End keys_of_rows.

Section sorted_block.

Context (lists : Vector) (list_entries : list list_entry_t) (child_vector : ChildVector).
Context (order_type_p : OrderType) (null_order_p : OrderByNullType).
Context (return_type_p child_type_p : LogicalType).

Local Abbreviation row_keys := (row_keys lists list_entries child_vector).
Local Abbreviation keys_upto count := (emitted_keys count lists list_entries child_vector).
Local Abbreviation info :=
  (new_ListSortBindData order_type_p null_order_p return_type_p child_type_p).
Local Abbreviation node :=
  {| node_type := order_type_p; node_null_order := null_order_p;
     node_expression := {| ref_type := child_type_p; ref_index := 1 |} |}.

(** Sorting keeps every list in its own places: in the sorted block the
    places of the rows of list [i] hold a permutation of these rows, sorted
    by the element. *)
Lemma block_segment (count i : nat) :
  (N.of_nat count ≤ 2 ^ 16)%N → i < count →
  let block := merge_sort (row_le (orders info)) (number_rows 0 (keys_upto count)) in
  let off := length (keys_upto i) in
  let seg := take (length (row_keys i)) (drop off block) in
  seg ≡ₚ number_rows off (row_keys i) ∧
  StronglySorted (value_le node) (element <$> seg).
Proof.
  intros Hcount Hi block off seg.
  set (rows := number_rows 0 (keys_upto count)) in *.
  assert (Hperm : block ≡ₚ rows) by apply merge_sort_Permutation.
  assert (Hsorted : StronglySorted (row_le (orders info)) block)
    by (apply StronglySorted_merge_sort; apply _).
  assert (Hgroups : StronglySorted (λ a b, (group a ≤ group b)%N) block).
  { rewrite <- (list_fmap_id block).
    eapply (StronglySorted_fmap id); [|exact Hsorted].
    intros a b Hle. by apply row_le_levels in Hle as [Hle _]. }
  pose proof (sorted_filter_split group (N.of_nat i) block Hgroups) as Hsplit.
  (* the sunk rows, split at list [i] *)
  assert (Hrows : rows =
            number_rows 0 (keys_upto i) ++ number_rows off (row_keys i) ++
            number_rows (off + length (row_keys i))
              (concat (row_keys <$> seq (S i) (count - S i)))).
  { unfold rows. rewrite (emitted_keys_split _ _ _ count i Hi).
    rewrite !number_rows_app. simpl. done. }
  assert (Hbelow : Forall (λ r, (group r < N.of_nat i)%N) (number_rows 0 (keys_upto i))).
  { apply (number_rows_Forall_group (λ g, (g < N.of_nat i)%N)).
    eapply Forall_impl; [apply (keys_group_range lists list_entries child_vector 0 i); lia|].
    simpl. intros key Hkey. lia. }
  assert (Hat : Forall (λ r, group r = N.of_nat i) (number_rows off (row_keys i))).
  { apply (number_rows_Forall_group (λ g, g = N.of_nat i)).
    eapply Forall_impl; [apply row_keys_group|].
    simpl. intros key ->. apply N.mod_small. lia. }
  assert (Habove : Forall (λ r, (N.of_nat i < group r)%N)
            (number_rows (off + length (row_keys i))
               (concat (row_keys <$> seq (S i) (count - S i))))).
  { apply (number_rows_Forall_group (λ g, (N.of_nat i < g)%N)).
    eapply Forall_impl;
      [apply (keys_group_range lists list_entries child_vector (S i) (count - S i)); lia|].
    simpl. intros key Hkey. lia. }
  assert (Hfilter_lt : filter (λ r, (group r < N.of_nat i)%N) rows = number_rows 0 (keys_upto i)).
  { rewrite Hrows, !filter_app. rewrite (filter_all _ _ Hbelow).
    rewrite !filter_none, app_nil_r; [done| |].
    - eapply Forall_impl; [exact Habove|]. simpl. intros; lia.
    - eapply Forall_impl; [exact Hat|]. simpl. intros; lia. }
  assert (Hfilter_eq : filter (λ r, group r = N.of_nat i) rows = number_rows off (row_keys i)).
  { rewrite Hrows, !filter_app. rewrite (filter_all _ _ Hat).
    rewrite !filter_none, app_nil_r; [done| |].
    - eapply Forall_impl; [exact Habove|]. simpl. intros; lia.
    - eapply Forall_impl; [exact Hbelow|]. simpl. intros; lia. }
  assert (Hoff : length (filter (λ r, (group r < N.of_nat i)%N) block) = off).
  { rewrite Hperm, Hfilter_lt, length_number_rows. done. }
  assert (Hseg_perm : filter (λ r, group r = N.of_nat i) block ≡ₚ number_rows off (row_keys i)).
  { by rewrite Hperm, Hfilter_eq. }
  assert (Hseg : seg = filter (λ r, group r = N.of_nat i) block).
  { unfold seg. rewrite Hsplit at 1.
    rewrite drop_app_length' by done.
    rewrite take_app_length'; [done|].
    by rewrite Hseg_perm, length_number_rows. }
  rewrite Hseg. split; [done|].
  eapply (StronglySorted_fmap_Forall _ _ (λ r, group r = N.of_nat i)).
  - intros a b Ha Hb Hle.
    apply (row_le_levels order_type_p null_order_p return_type_p child_type_p) in Hle
      as [_ Hle].
    apply Hle. congruence.
  - apply Forall_forall. intros r Hr. by apply list_elem_of_filter in Hr as [Hr _].
  - rewrite Hsplit in Hsorted.
    apply StronglySorted_app_1_r, StronglySorted_app_1_l in Hsorted. done.
Qed.

End sorted_block.

(** Gathering through a selection vector reads the rows it names. *)
Lemma Normalify_Slice (v : ChildVector) (sel_sorted : list nat) :
  Normalify (Slice v sel_sorted (length sel_sorted)) (length sel_sorted) =
  {| child_sel := incremental; child_values := GetValue v <$> sel_sorted |}.
Proof.
  unfold Normalify. f_equal. apply list_eq. intros k. rewrite !list_lookup_fmap.
  destruct (decide (k < length sel_sorted)) as [Hk|Hk].
  - rewrite lookup_seq_lt by done. simpl. rewrite GetValue_Slice by done.
    destruct (lookup_lt_is_Some_2 sel_sorted k Hk) as [x Hx].
    by rewrite Hx, (list_lookup_total_correct _ _ _ Hx).
  - rewrite lookup_seq_ge by lia. rewrite lookup_ge_None_2 by lia. done.
Qed.

(** With keys, and fewer than 2^32 of them: what the call leaves. *)
Lemma ListSortFunction_gathers (STANDARD_VECTOR_SIZE : positive) (args : DataChunk)
    (info : ListSortBindData) (st : Store) (result : Vector) :
  let lists := chunk_data args !!! 0 in
  let child_vector := children st !!! auxiliary lists in
  let keys := emitted_keys (chunk_size args) lists (entries st !!! buffer lists) child_vector in
  let block := merge_sort (row_le (orders info)) (number_rows 0 keys) in
  let out := ListSortFunction STANDARD_VECTOR_SIZE args info st result in
  vtype lists ≠ SQLNULL → keys ≠ [] → (N.of_nat (length keys) < 2 ^ 32)%N →
  out_store out =
    {| entries := entries st;
       children :=
         <[auxiliary lists :=
             {| child_sel := incremental;
                child_values := (λ r, GetValue child_vector (N.to_nat (payload r))) <$> block |}]>
           (children st) |} ∧
  out_result out = lists ∧
  sunk_rows (out_calls out) = number_rows 0 keys ∧
  scanned (out_calls out) = payload <$> block.
Proof.
  intros lists child_vector keys block out Htype Hkeys Hrange. subst out.
  destruct (ListSortFunction_sorts STANDARD_VECTOR_SIZE args info st result Htype Hkeys)
    as (sinks & chunks & sel_sorted & -> & Hsinks & Hchunks & Hfill).
  fold lists child_vector keys in Hsinks, Hchunks, Hfill |- *. fold block in Hchunks, Hfill.
  assert (Hlen : length (payload <$> block) = length keys).
  { rewrite length_fmap. unfold block.
    by rewrite (Permutation_length (merge_sort_Permutation _ _)), length_number_rows. }
  rewrite N.mod_small in Hfill by done.
  rewrite Nat2N.id, <- Hlen, fill_sel_sorted_exact in Hfill.
  injection Hfill as ->. cbn [out_store out_result out_calls].
  split; [|split; [done|split]].
  - f_equal. f_equal. rewrite <- Hlen at 1 2.
    rewrite <- (length_fmap N.to_nat (payload <$> block)), Normalify_Slice.
    f_equal. by rewrite <- !list_fmap_compose.
  - rewrite !sunk_rows_app, sunk_rows_sinks, sunk_rows_scans, Hsinks.
    unfold sunk_rows. simpl. by rewrite app_nil_r.
  - rewrite !scanned_app, scanned_sinks, scanned_scans, Hchunks.
    unfold scanned. simpl. by rewrite app_nil_r.
Qed.

(** In the back-to-back layout of a flat child vector, the payload of a sunk
    row is the position its element is read at. *)
Lemma back_to_back_rows (count : nat) (st : Store) (lists : Vector) :
  let child_vector := children st !!! auxiliary lists in
  let keys := emitted_keys count lists (entries st !!! buffer lists) child_vector in
  child_sel child_vector = incremental → back_to_back count st lists →
  (N.of_nat (length keys) ≤ 2 ^ 32)%N →
  Forall (λ r, GetValue child_vector (N.to_nat (payload r)) = element r) (number_rows 0 keys).
Proof.
  intros child_vector keys Hflat Hdense Hrange. subst keys.
  assert (Hupto : ∀ c, c ≤ count →
    Forall (λ r, GetValue child_vector (N.to_nat (payload r)) = element r)
      (number_rows 0 (emitted_keys c lists (entries st !!! buffer lists) child_vector)));
    [|by apply Hupto].
  induction c as [|c IH]; intros Hc; [constructor|].
  pose proof (emitted_keys_length_le lists (entries st !!! buffer lists) child_vector
                count (S c) Hc) as Hlen.
  replace (S c) with (c + 1) in Hlen |- * by lia.
  rewrite (emitted_keys_app _ _ _ c 1) in Hlen |- *. simpl in Hlen |- *.
  rewrite app_nil_r in Hlen |- *. rewrite number_rows_app. simpl.
  apply Forall_app. split; [apply IH; lia|].
  apply Forall_lookup. intros k r Hr.
  apply number_rows_lookup_inv in Hr as (g & v & Hkey & ->). simpl.
  assert (Hk : k < length (row_keys lists (entries st !!! buffer lists) child_vector c))
    by (by eapply lookup_lt_Some).
  rewrite length_app in Hlen.
  rewrite N.mod_small by lia. rewrite Nat2N.id.
  unfold row_keys in Hkey, Hk.
  pose proof (Hdense c) as Hoffset. unfold row_valid, row_entry in Hoffset.
  destruct (RowIsValid _ _); [|done].
  rewrite length_fmap, length_seq in Hk.
  rewrite list_lookup_fmap, lookup_seq_lt in Hkey by done. injection Hkey as <- <-.
  fold child_vector. rewrite Hflat. simpl. rewrite Hoffset by (done || lia). done.
Qed.

Global Instance value_le_total o : Total (value_le o).
Proof.
  intros a b. unfold value_le. rewrite (compare_column_opp o a b).
  destruct (compare_column o a b); simpl; auto.
Qed.

Global Instance value_le_trans o : Transitive (value_le o).
Proof.
  intros a b c Hab Hbc. by destruct (compare_column_trans o a b c Hab Hbc).
Qed.

Global Instance value_le_anti_symm o : AntiSymm (=) (value_le o).
Proof.
  intros a b. unfold value_le. rewrite (compare_column_opp o a b).
  destruct a as [x|], b as [y|]; simpl; try done.
  - destruct (node_type o); compare_cases; simpl; try done; congruence.
  - destruct (nulls_first (node_null_order o)); done.
  - destruct (nulls_first (node_null_order o)); done.
Qed.

(** What a valid row of a list vector over a flat child vector reads. *)
Lemma list_value_window (st : Store) (lists : Vector) (i : nat) :
  let child_vector := children st !!! auxiliary lists in
  let list_entry := row_entry st lists i in
  row_valid lists i = true → child_sel child_vector = incremental →
  list_entry_t.offset list_entry + list_entry_t.length list_entry
    ≤ length (child_values child_vector) →
  list_value st lists i =
  Some (Some <$> take (list_entry_t.length list_entry)
                   (drop (list_entry_t.offset list_entry) (child_values child_vector))).
Proof.
  intros child_vector list_entry Hvalid Hflat Hrange.
  unfold list_value. unfold row_valid in Hvalid. rewrite Hvalid.
  fold child_vector. rewrite Hflat. simpl. f_equal.
  by rewrite <- window_lookup.
Qed.

(** In the back-to-back layout a valid row of the result holds the elements
    of the places of its list in the sorted block: the elements the row had,
    in the order asked for. *)
Lemma ListSortFunction_sorts_lists (STANDARD_VECTOR_SIZE : positive) (args : DataChunk)
    (order_type_p : OrderType) (null_order_p : OrderByNullType)
    (return_type_p child_type_p : LogicalType) (st : Store) (result : Vector) (i : nat) :
  let info := new_ListSortBindData order_type_p null_order_p return_type_p child_type_p in
  let node := {| node_type := order_type_p; node_null_order := null_order_p;
                 node_expression := {| ref_type := child_type_p; ref_index := 1 |} |} in
  let lists := chunk_data args !!! 0 in
  let child_vector := children st !!! auxiliary lists in
  let keys := emitted_keys (chunk_size args) lists (entries st !!! buffer lists) child_vector in
  let out := ListSortFunction STANDARD_VECTOR_SIZE args info st result in
  vtype lists ≠ SQLNULL →
  (N.of_nat (chunk_size args) ≤ 2 ^ 16)%N → (N.of_nat (length keys) < 2 ^ 32)%N →
  child_sel child_vector = incremental →
  length keys ≤ length (child_values child_vector) →
  back_to_back (chunk_size args) st lists →
  i < chunk_size args → row_valid lists i = true →
  ∃ before after,
    list_value st lists i = Some (Some <$> before) ∧
    list_value (out_store out) (out_result out) i = Some (Some <$> after) ∧
    after ≡ₚ before ∧ StronglySorted (value_le node) after.
Proof.
  intros info node lists child_vector keys out Htype Hcount Hrange Hflat Hstorage Hdense Hi Hvalid.
  set (list_entries := entries st !!! buffer lists) in *.
  set (len := list_entry_t.length (row_entry st lists i)).
  set (off := length (emitted_keys i lists list_entries child_vector)).
  assert (Hrow : length (row_keys lists list_entries child_vector i) = len).
  { rewrite row_keys_length. unfold row_valid in Hvalid. by rewrite Hvalid. }
  assert (Hsplit : keys = emitted_keys i lists list_entries child_vector ++
                          row_keys lists list_entries child_vector i ++
                          concat (row_keys lists list_entries child_vector <$>
                                    seq (S i) (chunk_size args - S i)))
    by (by apply emitted_keys_split).
  assert (Hwindow : off + len ≤ length keys).
  { rewrite Hsplit, !length_app, Hrow. fold off. lia. }
  (* an empty list stays as it is *)
  destruct (decide (len = 0)) as [Hempty|Hlen].
  { exists [], [].
    assert (Hframe : out_result out = lists ∧ entries (out_store out) = entries st)
      by (by apply ListSortFunction_frame).
    destruct Hframe as [Hresult Hentries].
    assert (Hvalue : ∀ st', entries st' = entries st → list_value st' lists i = Some []).
    { intros st' Hst'. unfold list_value. unfold row_valid in Hvalid. rewrite Hvalid, Hst'.
      fold list_entries. unfold len, row_entry in Hempty. fold list_entries in Hempty.
      by rewrite Hempty. }
    rewrite Hresult, (Hvalue st eq_refl), (Hvalue _ Hentries).
    repeat split; try done. constructor. }
  assert (Hkeys : keys ≠ []).
  { intros Hnil. rewrite Hnil in Hwindow. simpl in Hwindow. lia. }
  assert (Hoffset : list_entry_t.offset (row_entry st lists i) = off) by (by apply Hdense).
  destruct (ListSortFunction_gathers STANDARD_VECTOR_SIZE args info st result
              Htype Hkeys Hrange) as (Hstore & Hresult & _ & _).
  fold lists child_vector out in Hstore, Hresult.
  set (block := merge_sort (row_le (orders info)) (number_rows 0 keys)) in *.
  change (merge_sort _ _) with block in Hstore.
  assert (Hperm : block ≡ₚ number_rows 0 keys) by apply merge_sort_Permutation.
  (* the child storage after the call holds the elements of the sorted block *)
  assert (Hvalues : (λ r, GetValue child_vector (N.to_nat (payload r))) <$> block
                    = element <$> block).
  { apply list_fmap_ext. intros k r Hr.
    assert (Hin : r ∈ number_rows 0 keys).
    { rewrite <- Hperm. by eapply list_elem_of_lookup_2. }
    pose proof (back_to_back_rows (chunk_size args) st lists Hflat Hdense) as Hrows.
    fold child_vector list_entries keys in Hrows.
    rewrite Forall_forall in Hrows. apply Hrows; [lia|done]. }
  rewrite Hvalues in Hstore.
  destruct (block_segment lists list_entries child_vector order_type_p null_order_p
              return_type_p child_type_p (chunk_size args) i Hcount Hi)
    as (Hseg_perm & Hafter_sorted).
  change (merge_sort _ _) with block in Hseg_perm, Hafter_sorted.
  fold off in Hseg_perm, Hafter_sorted. rewrite Hrow in *.
  set (seg := take len (drop off block)) in *.
  set (before := (row_keys lists list_entries child_vector i).*2).
  exists before, (element <$> seg).
  assert (Hafter_perm : element <$> seg ≡ₚ before).
  { unfold before. by rewrite Hseg_perm, element_number_rows. }
  split; [|split; [|split; done]].
  - rewrite list_value_window; [|done|done|].
    + fold child_vector len. rewrite Hoffset. do 2 f_equal.
      unfold before, row_keys. unfold row_valid in Hvalid. rewrite Hvalid.
      rewrite <- list_fmap_compose, window_lookup_total by lia.
      apply list_fmap_ext. intros k c Hc. simpl. unfold GetValue. rewrite Hflat. simpl.
      change (list_entries !!! get_index (vsel lists) i) with (row_entry st lists i).
      by rewrite Hoffset.
    + fold child_vector len. rewrite Hoffset. lia.
  - rewrite Hresult, Hstore.
    set (st' := {| entries := entries st; children := _ |}).
    assert (Hentry : row_entry st' lists i = row_entry st lists i) by done.
    assert (Hchild : children st' !!! auxiliary lists =
                     {| child_sel := incremental; child_values := element <$> block |})
      by apply lookup_total_insert_eq.
    assert (Hblock : length block = length keys)
      by (by rewrite Hperm, length_number_rows).
    rewrite list_value_window; rewrite ?Hentry, ?Hchild, ?Hoffset; fold len; simpl.
    + unfold seg. by rewrite (fmap_take element), (fmap_drop element).
    + done.
    + done.
    + rewrite length_fmap. lia.
Qed.

(** X1. [ListSortFunction] sorts every list. For a batch of at most 65536
    rows with fewer than 2^32 elements, over a flat child vector in which the
    lists lie back to back and which holds all their elements: a valid row of
    the result holds the elements the row had, each as often as before, in
    the order the bind data asks for (ascending or descending, nulls first
    or last), which makes it the list the row's elements sort to. *)
Theorem sorts_each_list (STANDARD_VECTOR_SIZE : positive) (args : DataChunk)
    (order_type_p : OrderType) (null_order_p : OrderByNullType)
    (return_type_p child_type_p : LogicalType) (st : Store) (result : Vector) (i : nat) :
  let info := new_ListSortBindData order_type_p null_order_p return_type_p child_type_p in
  let node := {| node_type := order_type_p; node_null_order := null_order_p;
                 node_expression := {| ref_type := child_type_p; ref_index := 1 |} |} in
  let lists := chunk_data args !!! 0 in
  let child_vector := children st !!! auxiliary lists in
  let keys := emitted_keys (chunk_size args) lists (entries st !!! buffer lists) child_vector in
  let out := ListSortFunction STANDARD_VECTOR_SIZE args info st result in
  vtype lists ≠ SQLNULL →
  (N.of_nat (chunk_size args) ≤ 2 ^ 16)%N → (N.of_nat (length keys) < 2 ^ 32)%N →
  child_sel child_vector = incremental →
  length keys ≤ length (child_values child_vector) →
  back_to_back (chunk_size args) st lists →
  i < chunk_size args → row_valid lists i = true →
  ∃ before after,
    list_value st lists i = Some (Some <$> before) ∧
    list_value (out_store out) (out_result out) i = Some (Some <$> after) ∧
    after ≡ₚ before ∧ StronglySorted (value_le node) after ∧
    after = merge_sort (value_le node) before.
Proof.
  intros info node lists child_vector keys out Htype Hcount Hrange Hflat Hstorage Hdense Hi Hvalid.
  destruct (ListSortFunction_sorts_lists STANDARD_VECTOR_SIZE args order_type_p null_order_p
              return_type_p child_type_p st result i Htype Hcount Hrange Hflat Hstorage
              Hdense Hi Hvalid) as (before & after & Hbefore & Hafter & Hperm & Hsorted).
  exists before, after. repeat split; try done.
  apply (StronglySorted_unique (value_le node)); [done| |].
  - apply StronglySorted_merge_sort; apply _.
  - by rewrite Hperm, merge_sort_Permutation.
Qed.


(** The payload of a sunk row names its place among the sunk rows. *)
Lemma number_rows_payload keys r :
  (N.of_nat (length keys) ≤ 2 ^ 32)%N → r ∈ number_rows 0 keys →
  number_rows 0 keys !! N.to_nat (payload r) = Some r.
Proof.
  intros Hrange Hr. apply list_elem_of_lookup_1 in Hr as [k Hk].
  assert (Hlt : k < length keys).
  { rewrite <- (length_number_rows 0). by eapply lookup_lt_Some. }
  pose proof Hk as Hk'.
  apply number_rows_lookup_inv in Hk' as (g & v & _ & ->). simpl in *.
  rewrite N.mod_small in Hk |- * by lia. by rewrite Nat2N.id.
Qed.

(** X4. The scan returns the keys list by list, whatever the layout of the
    lists. For a batch of at most 65536 rows with fewer than 2^32 elements,
    over a flat child vector that holds every list: the payloads the scan
    returns at the places of the keys of row [i] are the numbers the Key
    Builder gave to the elements of row [i] (these places, permuted), and the
    elements that were sunk under these numbers are in the order the bind
    data asks for. This is a property of the rows sunk and of the payloads
    scanned, not of the rows of the result: the gather puts the elements back
    into the list they came from only where the number of an element is its
    position in the child vector. *)
Theorem permutation_within_lists (STANDARD_VECTOR_SIZE : positive) (args : DataChunk)
    (order_type_p : OrderType) (null_order_p : OrderByNullType)
    (return_type_p child_type_p : LogicalType) (st : Store) (result : Vector) (i : nat) :
  let info := new_ListSortBindData order_type_p null_order_p return_type_p child_type_p in
  let node := {| node_type := order_type_p; node_null_order := null_order_p;
                 node_expression := {| ref_type := child_type_p; ref_index := 1 |} |} in
  let lists := chunk_data args !!! 0 in
  let list_entries := entries st !!! buffer lists in
  let child_vector := children st !!! auxiliary lists in
  let keys := emitted_keys (chunk_size args) lists list_entries child_vector in
  let out := ListSortFunction STANDARD_VECTOR_SIZE args info st result in
  let off := length (emitted_keys i lists list_entries child_vector) in
  let len := length (row_keys lists list_entries child_vector i) in
  let places := take len (drop off (N.to_nat <$> scanned (out_calls out))) in
  vtype lists ≠ SQLNULL →
  (N.of_nat (chunk_size args) ≤ 2 ^ 16)%N → (N.of_nat (length keys) < 2 ^ 32)%N →
  child_sel child_vector = incremental →
  lists_in_storage (chunk_size args) st lists →
  i < chunk_size args →
  places ≡ₚ seq off len ∧
  StronglySorted (value_le node)
    ((λ place, element (sunk_rows (out_calls out) !!! place)) <$> places).
Proof.
  intros info node lists list_entries child_vector keys out off len places
    Htype Hcount Hrange _ _ Hi.
  assert (Hsplit : keys = emitted_keys i lists list_entries child_vector ++
                          row_keys lists list_entries child_vector i ++
                          concat (row_keys lists list_entries child_vector <$>
                                    seq (S i) (chunk_size args - S i)))
    by (by apply emitted_keys_split).
  assert (Hwindow : off + len ≤ length keys).
  { rewrite Hsplit, !length_app. fold off len. lia. }
  destruct (decide (keys = [])) as [Hnil|Hkeys].
  { assert (Hlen : len = 0) by (rewrite Hnil in Hwindow; simpl in Hwindow; lia).
    subst places. rewrite Hlen. simpl. split; constructor. }
  destruct (ListSortFunction_gathers STANDARD_VECTOR_SIZE args info st result
              Htype Hkeys Hrange) as (_ & _ & Hsunk & Hscanned).
  fold lists out in Hsunk, Hscanned.
  set (block := merge_sort (row_le (orders info)) (number_rows 0 keys)) in *.
  change (merge_sort _ _) with block in Hscanned.
  change (emitted_keys _ _ _ _) with keys in Hsunk.
  assert (Hperm : block ≡ₚ number_rows 0 keys) by apply merge_sort_Permutation.
  destruct (block_segment lists list_entries child_vector order_type_p null_order_p
              return_type_p child_type_p (chunk_size args) i Hcount Hi)
    as (Hseg_perm & Hseg_sorted).
  change (merge_sort _ _) with block in Hseg_perm, Hseg_sorted.
  fold off len in Hseg_perm, Hseg_sorted.
  set (seg := take len (drop off block)) in *.
  assert (Hplaces : places = (λ r, N.to_nat (payload r)) <$> seg).
  { subst places seg. rewrite Hscanned, <- list_fmap_compose.
    by rewrite (fmap_take (N.to_nat ∘ payload)), (fmap_drop (N.to_nat ∘ payload)). }
  split.
  - rewrite Hplaces, Hseg_perm. subst len.
    apply reflexive_eq, payload_number_rows. fold off. lia.
  - rewrite Hplaces, Hsunk, <- list_fmap_compose.
    erewrite list_fmap_ext; [exact Hseg_sorted|].
    intros k r Hr. simpl.
    assert (Hin : r ∈ number_rows 0 keys).
    { rewrite <- Hperm. apply list_elem_of_lookup_2 in Hr.
      subst seg. by eapply subseteq_drop, subseteq_take. }
    assert (Hplace : number_rows 0 keys !! N.to_nat (payload r) = Some r)
      by (apply number_rows_payload; [lia|done]).
    by rewrite (list_lookup_total_correct _ _ _ Hplace).
Qed.

Lemma sink_calls_app log1 log2 : sink_calls (log1 ++ log2) = sink_calls log1 ++ sink_calls log2.
Proof. apply omap_app. Qed.

Lemma sink_calls_sinks sinks : sink_calls (CallSinkChunk <$> sinks) = sinks.
Proof. induction sinks as [|rows sinks IH]; [done|]. csimpl. by rewrite IH. Qed.

Lemma sink_calls_scans chunks : sink_calls (CallScan <$> chunks) = [].
Proof. induction chunks as [|chunk chunks IH]; [done|]. csimpl. by rewrite IH. Qed.

Section sink_sizes.

Context (STANDARD_VECTOR_SIZE : positive).
Context (lists : Vector) (list_entries : list list_entry_t) (child_vector : ChildVector).
Context (log0 : list Call).

Local Abbreviation full_sinks := (full_sinks STANDARD_VECTOR_SIZE log0).

Lemma length_pending_rows (kb : KeyBuilder) :
  length (pending_rows child_vector kb) = offset_lists_indices kb.
Proof. unfold pending_rows. by rewrite length_fmap, length_seq. Qed.

(** Inside the loop only full vectors are sunk. *)
Lemma child_step_full (kb : KeyBuilder) (i : nat) (list_entry : list_entry_t) (child_idx : nat) :
  full_sinks kb →
  full_sinks (child_step STANDARD_VECTOR_SIZE child_vector i list_entry kb child_idx).
Proof.
  intros (sinks & Hcalls & Hfull). unfold child_step.
  destruct (Nat.eqb_spec (offset_lists_indices kb) (Pos.to_nat STANDARD_VECTOR_SIZE))
    as [Hoff|Hoff].
  - exists (sinks ++ [pending_rows child_vector kb]). split.
    + change (calls (store_element _ _ _)) with (calls (SinkDataChunk child_vector kb)).
      rewrite (proj2 (SinkDataChunk_rows child_vector kb)), Hcalls, fmap_app, <- app_assoc.
      done.
    + apply Forall_app. split; [done|]. constructor; [|constructor].
      by rewrite length_pending_rows.
  - by exists sinks.
Qed.

Lemma row_step_full (kb : KeyBuilder) (i : nat) :
  full_sinks kb →
  full_sinks (row_step STANDARD_VECTOR_SIZE lists list_entries child_vector kb i).
Proof.
  intros Hfull. unfold row_step.
  destruct (negb _); [done|]. destruct (_ =? 0); [done|].
  generalize (seq 0 (list_entry_t.length (list_entries !!! get_index (vsel lists) i))).
  intros l. revert kb Hfull. induction l as [|c l IH]; intros kb Hfull; simpl; [done|].
  by apply IH, child_step_full.
Qed.

Lemma row_loop_full (rows : list nat) (kb : KeyBuilder) :
  full_sinks kb →
  full_sinks (foldl (row_step STANDARD_VECTOR_SIZE lists list_entries child_vector) kb rows).
Proof.
  revert kb. induction rows as [|i rows IH]; intros kb Hfull; simpl; [done|].
  by apply IH, row_step_full.
Qed.

(** The chunks the Key Builder sinks: full vectors, and a last one with what
    is left. *)
Lemma key_builder_sinks (count : nat) (mask : gset nat) :
  let kb := key_builder STANDARD_VECTOR_SIZE count lists list_entries child_vector
              (new_KeyBuilder STANDARD_VECTOR_SIZE mask log0) in
  ∃ sinks, calls kb = log0 ++ (CallSinkChunk <$> sinks) ∧
    Forall (λ rows, 0 < length rows ≤ Pos.to_nat STANDARD_VECTOR_SIZE) sinks ∧
    ∀ k rows, S k < length sinks → sinks !! k = Some rows →
              length rows = Pos.to_nat STANDARD_VECTOR_SIZE.
Proof.
  intros kb. subst kb. unfold key_builder.
  destruct (row_loop_inv STANDARD_VECTOR_SIZE lists list_entries child_vector log0
              (seq 0 count) _ (new_KeyBuilder_inv STANDARD_VECTOR_SIZE child_vector log0 mask))
    as (Hinv & _).
  assert (Hfull : full_sinks (new_KeyBuilder STANDARD_VECTOR_SIZE mask log0)).
  { exists []. simpl. by rewrite app_nil_r. }
  apply (row_loop_full (seq 0 count)) in Hfull.
  set (kb := foldl _ _ _) in *.
  destruct Hfull as (sinks & Hcalls & Hfull).
  assert (Hsizes : Forall (λ rows, 0 < length rows ≤ Pos.to_nat STANDARD_VECTOR_SIZE) sinks).
  { eapply Forall_impl; [exact Hfull|]. simpl. intros rows ->. lia. }
  destruct (Nat.eqb_spec (offset_lists_indices kb) 0) as [Hoff|Hoff]; cbn [negb].
  - exists sinks. split; [done|]. split; [done|].
    intros k rows _ Hrows. rewrite Forall_lookup in Hfull. by eapply Hfull.
  - exists (sinks ++ [pending_rows child_vector kb]). split; [|split].
    + rewrite (proj2 (SinkDataChunk_rows child_vector kb)), Hcalls, fmap_app, <- app_assoc.
      done.
    + apply Forall_app. split; [done|]. constructor; [|constructor].
      rewrite length_pending_rows.
      pose proof (inv_offset STANDARD_VECTOR_SIZE child_vector log0 kb Hinv). lia.
    + intros k rows Hk Hrows. rewrite length_app in Hk. simpl in Hk.
      rewrite lookup_app_l in Hrows by lia.
      rewrite Forall_lookup in Hfull. by eapply Hfull.
Qed.

End sink_sizes.

(** After the Key Builder nothing is sunk. *)
Lemma ListSortFunction_sink_calls (STANDARD_VECTOR_SIZE : positive) (args : DataChunk)
    (info : ListSortBindData) (st : Store) (result : Vector) :
  let lists := chunk_data args !!! 0 in
  let kb := key_builder STANDARD_VECTOR_SIZE (chunk_size args) lists
              (entries st !!! buffer lists) (children st !!! auxiliary lists)
              (new_KeyBuilder STANDARD_VECTOR_SIZE (validity result) (setup_calls info)) in
  vtype lists ≠ SQLNULL →
  sink_calls (out_calls (ListSortFunction STANDARD_VECTOR_SIZE args info st result)) =
  sink_calls (calls kb).
Proof.
  intros lists kb Htype. unfold ListSortFunction. fold lists.
  destruct (decide (vtype lists = SQLNULL)); [done|].
  change (key_builder _ _ _ _ _ _) with kb.
  destruct (data_to_sort kb); [|done].
  unfold sort_and_scan.
  destruct (scan_loop_drains STANDARD_VECTOR_SIZE
              (new_PayloadScanner
                 (PrepareMergePhase
                    (AddLocalState {| gs_orders := orders info; sorted_blocks := [] |}
                       (local_sort_state kb))))
              (replicate (N.to_nat (incr_payload_count kb)) 0, 0)
              (calls kb ++ [CallAddLocalState; CallPrepareMergePhase]))
    as (chunks & -> & _).
  destruct (fill_sel_sorted _ _) as [sel_sorted sel_sorted_idx]. cbn [out_calls].
  rewrite !sink_calls_app, sink_calls_scans. simpl. by rewrite !app_nil_r.
Qed.

(** X6. The Key Builder sinks whole vectors. The chunks handed to
    [SinkChunk], put together, are the numbered keys of the rows; none of
    them is empty or holds more than [STANDARD_VECTOR_SIZE] rows, every one
    but the last holds exactly [STANDARD_VECTOR_SIZE], and so there are as
    many of them as vectors are needed for the keys. *)
Theorem sinks_are_vectors (STANDARD_VECTOR_SIZE : positive) (args : DataChunk)
    (info : ListSortBindData) (st : Store) (result : Vector) :
  let lists := chunk_data args !!! 0 in
  let keys := emitted_keys (chunk_size args) lists (entries st !!! buffer lists)
                (children st !!! auxiliary lists) in
  let out := ListSortFunction STANDARD_VECTOR_SIZE args info st result in
  let sinks := sink_calls (out_calls out) in
  let capacity := Pos.to_nat STANDARD_VECTOR_SIZE in
  vtype lists ≠ SQLNULL →
  concat sinks = number_rows 0 keys ∧
  Forall (λ rows, 0 < length rows ≤ capacity) sinks ∧
  (∀ k rows, S k < length sinks → sinks !! k = Some rows → length rows = capacity) ∧
  length sinks = (length keys + capacity - 1) / capacity.
Proof.
  intros lists keys out sinks capacity Htype.
  assert (Hconcat : concat sinks = number_rows 0 keys).
  { subst sinks out.
    pose proof (ListSortFunction_sunk STANDARD_VECTOR_SIZE args info st result Htype) as Hsunk.
    fold lists keys in Hsunk. rewrite <- Hsunk.
    generalize (out_calls (ListSortFunction STANDARD_VECTOR_SIZE args info st result)).
    intros log. unfold sunk_rows, sink_calls.
    induction log as [|[] log IH]; csimpl; rewrite ?IH; done. }
  subst sinks out. rewrite ListSortFunction_sink_calls in Hconcat |- * by done.
  destruct (key_builder_sinks STANDARD_VECTOR_SIZE lists (entries st !!! buffer lists)
              (children st !!! auxiliary lists) (setup_calls info) (chunk_size args)
              (validity result)) as (sinks & Hcalls & Hsizes & Hfull).
  unfold lists in Hcalls. rewrite Hcalls in Hconcat |- *.
  rewrite sink_calls_app, sink_calls_sinks in Hconcat |- *.
  change (sink_calls (setup_calls info)) with (@nil (list SortRow)) in Hconcat |- *.
  simpl in Hconcat |- *.
  split; [done|]. split; [done|]. split; [done|].
  (* the number of chunks *)
  apply (f_equal length) in Hconcat. rewrite length_number_rows in Hconcat.
  rewrite <- Hconcat. clear Hconcat Hcalls.
  assert (Hpos : 0 < capacity) by (unfold capacity; lia).
  destruct (decide (sinks = [])) as [->|Hsome].
  { simpl. symmetry. apply Nat.div_small. lia. }
  destruct (exists_last Hsome) as (front & rows & ->).
  assert (Hfront : length (concat front) = length front * capacity).
  { assert (Hall : Forall (λ rows, length rows = capacity) front).
    { apply Forall_lookup. intros k rows' Hk. apply (Hfull k).
      - rewrite length_app. simpl. apply lookup_lt_Some in Hk. lia.
      - by rewrite lookup_app_l by (by eapply lookup_lt_Some). }
    clear -Hall. induction Hall as [|x l Hx Hl IH]; simpl; [done|].
    rewrite length_app, IH, Hx. lia. }
  apply Forall_app in Hsizes as [_ Hlast]. rewrite Forall_singleton in Hlast.
  rewrite concat_app, !length_app, Hfront. simpl. rewrite app_nil_r.
  apply (Nat.div_unique _ _ _ (length rows - 1)); [lia|].
  fold capacity in Hlast. nia.
Qed.

(** X5. What the call leaves in the child vector. Over a flat child vector
    that holds every list and has a value for every key, when there are keys,
    fewer than 2^32: the child vector of the input is replaced by a flat
    vector with one value for every payload the scan returned, in the order
    the scan returned them, each the value the child vector had at the
    position the payload names, which is a position of its storage; it has as
    many values as keys were sunk, whatever it held before. *)
Theorem gathers_scanned_payloads (STANDARD_VECTOR_SIZE : positive) (args : DataChunk)
    (info : ListSortBindData) (st : Store) (result : Vector) :
  let lists := chunk_data args !!! 0 in
  let child_vector := children st !!! auxiliary lists in
  let keys := emitted_keys (chunk_size args) lists (entries st !!! buffer lists) child_vector in
  let out := ListSortFunction STANDARD_VECTOR_SIZE args info st result in
  vtype lists ≠ SQLNULL → keys ≠ [] → (N.of_nat (length keys) < 2 ^ 32)%N →
  child_sel child_vector = incremental →
  length keys ≤ length (child_values child_vector) →
  lists_in_storage (chunk_size args) st lists →
  children (out_store out) !! auxiliary lists =
    Some {| child_sel := incremental;
            child_values :=
              (λ p, GetValue child_vector (N.to_nat p)) <$> scanned (out_calls out) |} ∧
  length (scanned (out_calls out)) = length keys ∧
  Forall (λ p, N.to_nat p < length (child_values child_vector)) (scanned (out_calls out)).
Proof.
  intros lists child_vector keys out Htype Hkeys Hrange _ Hstorage _.
  destruct (ListSortFunction_gathers STANDARD_VECTOR_SIZE args info st result
              Htype Hkeys Hrange) as (Hstore & _ & _ & Hscanned).
  fold lists child_vector out in Hstore, Hscanned.
  rewrite Hstore, Hscanned. cbn [children]. rewrite lookup_insert_eq.
  split; [|split].
  - by rewrite <- list_fmap_compose.
  - rewrite length_fmap.
    by rewrite (Permutation_length (merge_sort_Permutation _ _)), length_number_rows.
  - apply Forall_fmap, Forall_forall. intros r Hr. simpl.
    rewrite merge_sort_Permutation in Hr.
    apply list_elem_of_lookup_1 in Hr as [k Hk].
    assert (Hlt : k < length keys).
    { rewrite <- (length_number_rows 0). by eapply lookup_lt_Some. }
    apply number_rows_lookup_inv in Hk as (g & v & _ & ->). simpl.
    rewrite N.mod_small by lia. lia.
Qed.

Global Instance key_le_anti_symm o : AntiSymm (=) (key_le o).
Proof.
  intros [g v] [g' v'] [Hlt|[Heq Hle]] [Hlt'|[Heq' Hle']]; simpl in *; try lia.
  subst. f_equal. by apply (anti_symm (value_le o)).
Qed.

Lemma key_of_number_rows start keys : key_of <$> number_rows start keys = keys.
Proof.
  revert start. induction keys as [|[g v] keys IH]; intros start; simpl; [done|].
  by rewrite IH.
Qed.

(** The keys of the sorted block are determined by the keys that were sunk,
    in whatever order and with whatever payloads they were sunk. *)
Lemma block_keys_unique (order_type_p : OrderType) (null_order_p : OrderByNullType)
    (return_type_p child_type_p : LogicalType) (rows rows' : list SortRow) :
  let info := new_ListSortBindData order_type_p null_order_p return_type_p child_type_p in
  key_of <$> rows ≡ₚ key_of <$> rows' →
  key_of <$> merge_sort (row_le (orders info)) rows =
  key_of <$> merge_sort (row_le (orders info)) rows'.
Proof.
  intros info Hperm.
  set (node := {| node_type := order_type_p; node_null_order := null_order_p;
                  node_expression := {| ref_type := child_type_p; ref_index := 1 |} |}).
  assert (Hsorted : ∀ l, StronglySorted (key_le node)
                           (key_of <$> merge_sort (row_le (orders info)) l)).
  { intros l. eapply StronglySorted_fmap; [|apply StronglySorted_merge_sort; apply _].
    intros a b Hle.
    apply (row_le_levels order_type_p null_order_p return_type_p child_type_p) in Hle
      as [Hgroup Hvalue].
    unfold key_le, key_of. simpl.
    destruct (decide (group a = group b)) as [Heq|Hne]; [right; auto|left; lia]. }
  apply (StronglySorted_unique (key_le node)); [apply Hsorted..|].
  by rewrite !merge_sort_Permutation.
Qed.

(** Lists that are permutations of each other piece by piece. *)
Lemma concat_fmap_Permutation {A B} (f g : A → list B) (l : list A) :
  (∀ x, x ∈ l → f x ≡ₚ g x) → concat (f <$> l) ≡ₚ concat (g <$> l).
Proof.
  induction l as [|x l IH]; intros Hfg; simpl; [done|].
  rewrite (Hfg x) by left. rewrite IH; [done|]. intros y Hy. apply Hfg. by right.
Qed.

(** The number of keys of the rows does not depend on the child vector. *)
Lemma emitted_keys_length_child count lists list_entries child_vector child_vector' :
  length (emitted_keys count lists list_entries child_vector) =
  length (emitted_keys count lists list_entries child_vector').
Proof.
  induction count as [|count IH]; [done|].
  replace (S count) with (count + 1) by lia. rewrite !emitted_keys_app, !length_app, IH.
  simpl. by rewrite !app_nil_r, !row_keys_length.
Qed.

(** In the back-to-back layout the child storage the call leaves holds the
    elements of the sorted block. *)
Lemma back_to_back_gathers (STANDARD_VECTOR_SIZE : positive) (args : DataChunk)
    (info : ListSortBindData) (st : Store) (result : Vector) :
  let lists := chunk_data args !!! 0 in
  let child_vector := children st !!! auxiliary lists in
  let keys := emitted_keys (chunk_size args) lists (entries st !!! buffer lists) child_vector in
  let block := merge_sort (row_le (orders info)) (number_rows 0 keys) in
  let out := ListSortFunction STANDARD_VECTOR_SIZE args info st result in
  vtype lists ≠ SQLNULL → keys ≠ [] → (N.of_nat (length keys) < 2 ^ 32)%N →
  child_sel child_vector = incremental → back_to_back (chunk_size args) st lists →
  out_store out =
    {| entries := entries st;
       children :=
         <[auxiliary lists := {| child_sel := incremental; child_values := element <$> block |}]>
           (children st) |} ∧
  out_result out = lists.
Proof.
  intros lists child_vector keys block out Htype Hkeys Hrange Hflat Hdense.
  destruct (ListSortFunction_gathers STANDARD_VECTOR_SIZE args info st result
              Htype Hkeys Hrange) as (Hstore & Hresult & _ & _).
  fold lists child_vector out in Hstore, Hresult.
  change (merge_sort _ _) with block in Hstore.
  split; [|done]. rewrite Hstore. do 3 f_equal.
  apply list_fmap_ext. intros k r Hr.
  assert (Hin : r ∈ number_rows 0 keys).
  { rewrite <- (merge_sort_Permutation (row_le (orders info))).
    by eapply list_elem_of_lookup_2. }
  pose proof (back_to_back_rows (chunk_size args) st lists Hflat Hdense) as Hrows.
  fold child_vector keys in Hrows.
  rewrite Forall_forall in Hrows. apply Hrows; [lia|done].
Qed.

(** X7. What [ListSortFunction] leaves does not depend on the capacity of
    the vectors it buffers the keys in. The rows it sinks are the same for any
    two values of [STANDARD_VECTOR_SIZE]; and with fewer than 2^32 elements,
    over a flat child vector in which the lists lie back to back and which
    holds all their elements, so are the store and the result it leaves. (The
    order in which the payloads of equal keys are scanned is the engine's, and
    is not part of this.) *)
Theorem capacity_independent (STANDARD_VECTOR_SIZE STANDARD_VECTOR_SIZE' : positive)
    (args : DataChunk) (info : ListSortBindData) (st : Store) (result : Vector) :
  let lists := chunk_data args !!! 0 in
  let child_vector := children st !!! auxiliary lists in
  let keys := emitted_keys (chunk_size args) lists (entries st !!! buffer lists) child_vector in
  let out := ListSortFunction STANDARD_VECTOR_SIZE args info st result in
  let out' := ListSortFunction STANDARD_VECTOR_SIZE' args info st result in
  (N.of_nat (length keys) < 2 ^ 32)%N →
  child_sel child_vector = incremental →
  length keys ≤ length (child_values child_vector) →
  back_to_back (chunk_size args) st lists →
  sunk_rows (out_calls out) = sunk_rows (out_calls out') ∧
  out_store out = out_store out' ∧ out_result out = out_result out'.
Proof.
  intros lists child_vector keys out out' Hrange Hflat _ Hdense. subst out out'.
  destruct (decide (vtype lists = SQLNULL)) as [Hnull|Htype].
  { unfold ListSortFunction. fold lists. by destruct (decide (vtype lists = SQLNULL)). }
  split.
  { by rewrite !(ListSortFunction_sunk _ args info st result Htype). }
  destruct (decide (keys = [])) as [Hkeys|Hkeys].
  { by rewrite !(ListSortFunction_idle _ args info st result Htype Hkeys). }
  destruct (back_to_back_gathers STANDARD_VECTOR_SIZE args info st result
              Htype Hkeys Hrange Hflat Hdense) as [-> ->].
  destruct (back_to_back_gathers STANDARD_VECTOR_SIZE' args info st result
              Htype Hkeys Hrange Hflat Hdense) as [-> ->].
  done.
Qed.

(** X2. Sorting what has been sorted changes nothing. Under the conditions
    of X1 (at most 65536 rows, fewer than 2^32 elements, a flat child vector
    in which the lists lie back to back and which holds all their elements),
    calling [ListSortFunction] with the same bind data on the vector it
    returned, in the store it left, leaves this store and returns this
    vector. *)
Theorem sort_is_idempotent (STANDARD_VECTOR_SIZE : positive) (args : DataChunk)
    (order_type_p : OrderType) (null_order_p : OrderByNullType)
    (return_type_p child_type_p : LogicalType) (st : Store) (result result' : Vector) :
  let info := new_ListSortBindData order_type_p null_order_p return_type_p child_type_p in
  let lists := chunk_data args !!! 0 in
  let child_vector := children st !!! auxiliary lists in
  let keys := emitted_keys (chunk_size args) lists (entries st !!! buffer lists) child_vector in
  let out := ListSortFunction STANDARD_VECTOR_SIZE args info st result in
  let out' := ListSortFunction STANDARD_VECTOR_SIZE args info (out_store out) result' in
  vtype lists ≠ SQLNULL →
  (N.of_nat (chunk_size args) ≤ 2 ^ 16)%N → (N.of_nat (length keys) < 2 ^ 32)%N →
  child_sel child_vector = incremental →
  length keys ≤ length (child_values child_vector) →
  back_to_back (chunk_size args) st lists →
  out_store out' = out_store out ∧ out_result out' = out_result out.
Proof.
  intros info lists child_vector keys out out' Htype Hcount Hrange Hflat Hstorage Hdense.
  set (list_entries := entries st !!! buffer lists) in *.
  destruct (decide (keys = [])) as [Hnil|Hkeys].
  { subst out' out.
    rewrite (ListSortFunction_idle STANDARD_VECTOR_SIZE args info st result Htype Hnil).
    cbn [out_store out_result].
    by rewrite (ListSortFunction_idle STANDARD_VECTOR_SIZE args info st result' Htype Hnil). }
  destruct (back_to_back_gathers STANDARD_VECTOR_SIZE args info st result
              Htype Hkeys Hrange Hflat Hdense) as (Hstore & Hresult).
  fold lists child_vector out in Hstore, Hresult.
  set (block := merge_sort (row_le (orders info)) (number_rows 0 keys)) in *.
  change (merge_sort _ _) with block in Hstore.
  assert (Hblock : length block = length keys).
  { unfold block. by rewrite merge_sort_Permutation, length_number_rows. }
  set (child_vector' := {| child_sel := incremental; child_values := element <$> block |}) in *.
  assert (Hentries : entries (out_store out) = entries st) by (by rewrite Hstore).
  assert (Hchild : children (out_store out) !!! auxiliary lists = child_vector').
  { rewrite Hstore. apply lookup_total_insert_eq. }
  (* the keys of the second call are those of the first, list by list *)
  set (keys' := emitted_keys (chunk_size args) lists list_entries child_vector').
  assert (Hrows : ∀ i, i ∈ seq 0 (chunk_size args) →
            row_keys lists list_entries child_vector' i ≡ₚ
            row_keys lists list_entries child_vector i).
  { intros i Hi. apply elem_of_seq in Hi as [_ Hi]. simpl in Hi.
    destruct (block_segment lists list_entries child_vector order_type_p null_order_p
                return_type_p child_type_p (chunk_size args) i Hcount Hi) as (Hseg & _).
    change (merge_sort _ _) with block in Hseg.
    apply (fmap_Permutation element) in Hseg. rewrite element_number_rows in Hseg.
    pose proof (emitted_keys_split lists list_entries child_vector (chunk_size args) i Hi)
      as Hsplit.
    apply (f_equal length) in Hsplit. rewrite !length_app in Hsplit. fold keys in Hsplit.
    rewrite row_keys_length in Hseg, Hsplit.
    pose proof (Hdense i Hi) as Hoffset. unfold row_valid, row_entry in Hoffset.
    fold list_entries child_vector in Hoffset.
    unfold row_keys in Hseg |- *.
    destruct (RowIsValid _ _); [|done].
    set (list_entry := list_entries !!! get_index (vsel lists) i) in *.
    destruct (decide (list_entry_t.length list_entry = 0)) as [->|Hlen]; [done|].
    rewrite Hoffset in * by done.
    rewrite <- list_fmap_compose in Hseg.
    rewrite (fmap_take element), (fmap_drop element), window_lookup_total in Hseg
      by (rewrite length_fmap; lia).
    set (off := length (emitted_keys i lists list_entries child_vector)) in *.
    set (pair := λ v : Value, ((N.of_nat i mod 2 ^ 16)%N, v)).
    set (read := λ (v : ChildVector) (c : nat),
                   GetValue v (get_index (child_sel v) (off + c))).
    change (pair ∘ read child_vector' <$> seq 0 (list_entry_t.length list_entry) ≡ₚ
            pair ∘ read child_vector <$> seq 0 (list_entry_t.length list_entry)).
    rewrite !(list_fmap_compose _ pair). apply fmap_Permutation. exact Hseg. }
  assert (Hperm : keys' ≡ₚ keys) by (by apply concat_fmap_Permutation).
  assert (Hkeys' : keys' ≠ []).
  { intros Hnil. rewrite Hnil in Hperm. by apply Permutation_nil_l in Hperm. }
  assert (Hdense' : back_to_back (chunk_size args) (out_store out) lists).
  { intros i Hi Hvalid Hlen. unfold row_entry in *. rewrite Hentries, Hchild in *.
    fold list_entries in Hlen |- *.
    rewrite (emitted_keys_length_child i lists list_entries child_vector' child_vector).
    by apply Hdense. }
  destruct (back_to_back_gathers STANDARD_VECTOR_SIZE args info (out_store out) result')
    as (Hstore' & Hresult'); fold lists; rewrite ?Hentries, ?Hchild;
    fold list_entries keys'; try done.
  { by rewrite Hperm. }
  fold lists out' in Hstore', Hresult'.
  rewrite Hentries, Hchild in Hstore'. fold list_entries keys' in Hstore'.
  split; [|congruence].
  rewrite Hstore'. rewrite Hstore at 2. f_equal. rewrite Hstore. cbn [children].
  rewrite insert_insert_eq. do 2 f_equal.
  pose proof (block_keys_unique order_type_p null_order_p return_type_p child_type_p
                (number_rows 0 keys') (number_rows 0 keys)) as Hunique.
  rewrite !key_of_number_rows in Hunique. specialize (Hunique Hperm).
  apply (f_equal (fmap snd)) in Hunique. by rewrite <- !list_fmap_compose in Hunique.
Qed.



(** ** The result vector *)

Section result_validity.

Context (STANDARD_VECTOR_SIZE : positive).
Context (lists : Vector) (list_entries : list list_entry_t) (child_vector : ChildVector).

(** The loop writes the validity mask of the result and never reads it. *)
Lemma child_step_validity (mask : gset nat) (kb : KeyBuilder) (i : nat)
    (list_entry : list_entry_t) (child_idx : nat) :
  child_step STANDARD_VECTOR_SIZE child_vector i list_entry (with_validity mask kb) child_idx =
  with_validity mask (child_step STANDARD_VECTOR_SIZE child_vector i list_entry kb child_idx).
Proof.
  unfold child_step. simpl. by destruct (_ =? _).
Qed.

Lemma child_loop_validity (mask : gset nat) (i : nat) (list_entry : list_entry_t)
    (l : list nat) (kb : KeyBuilder) :
  foldl (child_step STANDARD_VECTOR_SIZE child_vector i list_entry) (with_validity mask kb) l =
  with_validity mask (foldl (child_step STANDARD_VECTOR_SIZE child_vector i list_entry) kb l).
Proof.
  revert kb. induction l as [|c l IH]; intros kb; simpl; [done|].
  by rewrite child_step_validity, IH.
Qed.

Lemma row_step_validity (mask : gset nat) (kb : KeyBuilder) (i : nat) :
  ∃ mask',
    row_step STANDARD_VECTOR_SIZE lists list_entries child_vector (with_validity mask kb) i =
    with_validity mask' (row_step STANDARD_VECTOR_SIZE lists list_entries child_vector kb i).
Proof.
  unfold row_step. destruct (negb _).
  - by exists (SetInvalid mask i).
  - exists mask. destruct (_ =? 0); [done|]. apply child_loop_validity.
Qed.

Lemma row_loop_validity (rows : list nat) (mask : gset nat) (kb : KeyBuilder) :
  ∃ mask',
    foldl (row_step STANDARD_VECTOR_SIZE lists list_entries child_vector)
          (with_validity mask kb) rows =
    with_validity mask'
      (foldl (row_step STANDARD_VECTOR_SIZE lists list_entries child_vector) kb rows).
Proof.
  revert mask kb. induction rows as [|i rows IH]; intros mask kb; simpl; [by exists mask|].
  destruct (row_step_validity mask kb i) as [mask1 ->]. apply IH.
Qed.

Lemma key_builder_validity (count : nat) (mask mask0 : gset nat) (log0 : list Call) :
  ∃ mask',
    key_builder STANDARD_VECTOR_SIZE count lists list_entries child_vector
      (new_KeyBuilder STANDARD_VECTOR_SIZE mask log0) =
    with_validity mask'
      (key_builder STANDARD_VECTOR_SIZE count lists list_entries child_vector
         (new_KeyBuilder STANDARD_VECTOR_SIZE mask0 log0)).
Proof.
  unfold key_builder.
  destruct (row_loop_validity (seq 0 count) mask
              (new_KeyBuilder STANDARD_VECTOR_SIZE mask0 log0)) as [mask' Hloop].
  change (with_validity mask (new_KeyBuilder STANDARD_VECTOR_SIZE mask0 log0))
    with (new_KeyBuilder STANDARD_VECTOR_SIZE mask log0) in Hloop.
  rewrite Hloop. simpl. destruct (negb _); by exists mask'.
Qed.

End result_validity.

(** X15. For a list-typed argument the result vector that is handed in does
    not matter: the loop writes null marks into its validity mask (line 160)
    and reads none of it, and in the end the result is made a reference to
    the input (line 229). The store, the vector returned and the calls are
    the same for any two result vectors. *)
Theorem result_vector_ignored (STANDARD_VECTOR_SIZE : positive) (args : DataChunk)
    (info : ListSortBindData) (st : Store) (result result' : Vector) :
  vtype (chunk_data args !!! 0) ≠ SQLNULL →
  ListSortFunction STANDARD_VECTOR_SIZE args info st result =
  ListSortFunction STANDARD_VECTOR_SIZE args info st result'.
Proof.
  intros Htype. unfold ListSortFunction.
  destruct (decide (vtype (chunk_data args !!! 0) = SQLNULL)); [done|]. simpl.
  destruct (key_builder_validity STANDARD_VECTOR_SIZE (chunk_data args !!! 0)
              (entries st !!! buffer (chunk_data args !!! 0))
              (children st !!! auxiliary (chunk_data args !!! 0))
              (chunk_size args) (validity result) (validity result')
              [NewGlobalSortState (orders info); LocalSortStateInitialize]) as [mask' ->].
  reflexivity.
Qed.

(** ** Binding and running *)

(** X8. Binding, then running. Whatever sort bind data [list_sort] or
    [list_reverse_sort] binds to, [ListSortFunction] run with it sorts every
    list in the order and null order the bind data carries, under the
    conditions of X1. *)
Theorem bound_sort_sorts_lists (STANDARD_VECTOR_SIZE : positive) (config : DBConfig)
    (bound_function bound_function' : ScalarFunction) (arguments : list Expression)
    (info : ListSortBindData) (args : DataChunk) (st : Store) (result : Vector) (i : nat) :
  let node := {| node_type := order_type info; node_null_order := null_order info;
                 node_expression := {| ref_type := child_type info; ref_index := 1 |} |} in
  let lists := chunk_data args !!! 0 in
  let child_vector := children st !!! auxiliary lists in
  let keys := emitted_keys (chunk_size args) lists (entries st !!! buffer lists) child_vector in
  let out := ListSortFunction STANDARD_VECTOR_SIZE args info st result in
  ListNormalSortBind config bound_function arguments =
    Return (bound_function', SortBindData info) ∨
  ListReverseSortBind config bound_function arguments =
    Return (bound_function', SortBindData info) →
  vtype lists ≠ SQLNULL →
  (N.of_nat (chunk_size args) ≤ 2 ^ 16)%N → (N.of_nat (length keys) < 2 ^ 32)%N →
  child_sel child_vector = incremental →
  length keys ≤ length (child_values child_vector) →
  back_to_back (chunk_size args) st lists →
  i < chunk_size args → row_valid lists i = true →
  ∃ before after,
    list_value st lists i = Some (Some <$> before) ∧
    list_value (out_store out) (out_result out) i = Some (Some <$> after) ∧
    after ≡ₚ before ∧ StronglySorted (value_le node) after ∧
    after = merge_sort (value_le node) before.
Proof.
  intros node lists child_vector keys out Hbind Htype Hcount Hrange Hflat Hstorage Hdense
    Hi Hvalid.
  destruct (bind_returns_ListSortBind _ _ _ _ Hbind) as (order & null_order_p & Hbound).
  unfold ListSortBind in Hbound.
  destruct (decide (expr_return_type (arguments !!! 0) = SQLNULL)); [done|].
  injection Hbound as _ Hinfo. subst info. simpl in node.
  destruct (ListSortFunction_sorts_lists STANDARD_VECTOR_SIZE args order null_order_p
              (expr_return_type (arguments !!! 0))
              (GetChildType (expr_return_type (arguments !!! 0))) st result i
              Htype Hcount Hrange Hflat Hstorage Hdense Hi Hvalid)
    as (before & after & Hbefore & Hafter & Hperm & Hsorted).
  exists before, after. repeat split; try done.
  apply (StronglySorted_unique (value_le node)); [done| |].
  - apply StronglySorted_merge_sort; apply _.
  - by rewrite Hperm, merge_sort_Permutation.
Qed.

(** ** The further properties on the example *)

Lemma example_back_to_back :
  back_to_back (chunk_size example_args) example_store (chunk_data example_args !!! 0).
Proof.
  intros i Hi Hvalid Hlen. destruct i as [|[|[|[|i]]]].
  - reflexivity.
  - discriminate Hvalid.
  - exfalso. apply Hlen. reflexivity.
  - vm_compute. reflexivity.
  - simpl in Hi. lia.
Defined.

Lemma example_keys_range :
  N.lt (N.of_nat (length
          (emitted_keys (chunk_size example_args) (chunk_data example_args !!! 0)
             (entries example_store !!! buffer (chunk_data example_args !!! 0))
             (children example_store !!! auxiliary (chunk_data example_args !!! 0)))))
       (2 ^ 32)%N.
Proof. vm_compute. reflexivity. Defined.

Lemma sorts_each_list_witness :
  (row_valid (chunk_data example_args !!! 0) 3 = true ∧
   list_value example_store (chunk_data example_args !!! 0) 3 =
     Some [Some (Some 5%Z); Some None; Some (Some 1%Z)]) ∧
  ∃ before after,
    list_value example_store (chunk_data example_args !!! 0) 3 = Some (Some <$> before) ∧
    list_value
      (out_store (ListSortFunction 2 example_args ascending_info example_store fresh_result))
      (out_result (ListSortFunction 2 example_args ascending_info example_store fresh_result))
      3 = Some (Some <$> after) ∧
    after ≡ₚ before ∧
    StronglySorted
      (value_le {| node_type := ASCENDING; node_null_order := NULLS_LAST;
                   node_expression := {| ref_type := INTEGER; ref_index := 1 |} |}) after ∧
    after =
      merge_sort
        (value_le {| node_type := ASCENDING; node_null_order := NULLS_LAST;
                     node_expression := {| ref_type := INTEGER; ref_index := 1 |} |}) before.
Proof.
  assert (Htype : vtype (chunk_data example_args !!! 0) ≠ SQLNULL) by discriminate.
  assert (Hcount : N.le (N.of_nat (chunk_size example_args)) (2 ^ 16)%N)
    by (vm_compute; discriminate).
  assert (Hflat : child_sel (children example_store !!! auxiliary (chunk_data example_args !!! 0))
                  = incremental) by (vm_compute; reflexivity).
  assert (Hstorage :
    length (emitted_keys (chunk_size example_args) (chunk_data example_args !!! 0)
              (entries example_store !!! buffer (chunk_data example_args !!! 0))
              (children example_store !!! auxiliary (chunk_data example_args !!! 0)))
    ≤ length (child_values
                (children example_store !!! auxiliary (chunk_data example_args !!! 0))))
    by (vm_compute; lia).
  assert (Hrow : 3 < chunk_size example_args) by (simpl; lia).
  assert (Hvalid : row_valid (chunk_data example_args !!! 0) 3 = true)
    by (vm_compute; reflexivity).
  split; [split; [exact Hvalid|vm_compute; reflexivity]|].
  exact (sorts_each_list 2 example_args ASCENDING NULLS_LAST (LIST INTEGER) INTEGER
           example_store fresh_result 3 Htype Hcount example_keys_range Hflat Hstorage
           example_back_to_back Hrow Hvalid).
Defined.

Lemma sort_is_idempotent_witness :
  out_store
    (ListSortFunction 2 example_args ascending_info
       (out_store (ListSortFunction 2 example_args ascending_info example_store fresh_result))
       fresh_result) =
  out_store (ListSortFunction 2 example_args ascending_info example_store fresh_result).
Proof.
  assert (Htype : vtype (chunk_data example_args !!! 0) ≠ SQLNULL) by discriminate.
  assert (Hcount : N.le (N.of_nat (chunk_size example_args)) (2 ^ 16)%N)
    by (vm_compute; discriminate).
  assert (Hflat : child_sel (children example_store !!! auxiliary (chunk_data example_args !!! 0))
                  = incremental) by (vm_compute; reflexivity).
  assert (Hstorage :
    length (emitted_keys (chunk_size example_args) (chunk_data example_args !!! 0)
              (entries example_store !!! buffer (chunk_data example_args !!! 0))
              (children example_store !!! auxiliary (chunk_data example_args !!! 0)))
    ≤ length (child_values
                (children example_store !!! auxiliary (chunk_data example_args !!! 0))))
    by (vm_compute; lia).
  exact (proj1 (sort_is_idempotent 2 example_args ASCENDING NULLS_LAST (LIST INTEGER) INTEGER
                  example_store fresh_result fresh_result Htype Hcount example_keys_range
                  Hflat Hstorage example_back_to_back)).
Defined.

Lemma sliced_keys_range :
  N.lt (N.of_nat (length
          (emitted_keys (chunk_size sliced_args) (chunk_data sliced_args !!! 0)
             (entries sliced_store !!! buffer (chunk_data sliced_args !!! 0))
             (children sliced_store !!! auxiliary (chunk_data sliced_args !!! 0)))))
       (2 ^ 32)%N.
Proof. vm_compute. reflexivity. Defined.

Lemma sliced_lists_in_storage :
  lists_in_storage (chunk_size sliced_args) sliced_store (chunk_data sliced_args !!! 0).
Proof.
  intros i Hi Hvalid. destruct i as [|i]; [vm_compute; lia|simpl in Hi; lia].
Defined.

Lemma example_lists_in_storage :
  lists_in_storage (chunk_size example_args) example_store (chunk_data example_args !!! 0).
Proof.
  intros i Hi Hvalid. destruct i as [|[|[|[|i]]]]; [vm_compute; lia..|simpl in Hi; lia].
Defined.

(** The list [[3, 1, 2]] held at the positions 1, 2, 3: the places 0, 1, 2 are
    permuted among themselves. *)
Lemma permutation_within_lists_witness :
  N.to_nat <$> scanned (out_calls (ListSortFunction 2 sliced_args ascending_info sliced_store
                                     fresh_result)) ≡ₚ seq 0 3.
Proof.
  assert (Htype : vtype (chunk_data sliced_args !!! 0) ≠ SQLNULL) by discriminate.
  assert (Hcount : N.le (N.of_nat (chunk_size sliced_args)) (2 ^ 16)%N)
    by (vm_compute; discriminate).
  assert (Hflat : child_sel (children sliced_store !!! auxiliary (chunk_data sliced_args !!! 0))
                  = incremental) by (vm_compute; reflexivity).
  assert (Hrow : 0 < chunk_size sliced_args) by (simpl; lia).
  exact (proj1 (permutation_within_lists 2 sliced_args ASCENDING NULLS_LAST (LIST INTEGER)
                  INTEGER sliced_store fresh_result 0 Htype Hcount sliced_keys_range Hflat
                  sliced_lists_in_storage Hrow)).
Defined.

(** The example of the spec: six payloads are scanned, each a position of the
    six values of the child vector. *)
Lemma gathers_scanned_payloads_witness :
  length (scanned (out_calls (ListSortFunction 2 example_args ascending_info example_store
                                fresh_result))) = 6 ∧
  Forall (λ p, N.to_nat p < 6)
    (scanned (out_calls (ListSortFunction 2 example_args ascending_info example_store
                           fresh_result))).
Proof.
  assert (Htype : vtype (chunk_data example_args !!! 0) ≠ SQLNULL) by discriminate.
  assert (Hkeys : emitted_keys (chunk_size example_args) (chunk_data example_args !!! 0)
            (entries example_store !!! buffer (chunk_data example_args !!! 0))
            (children example_store !!! auxiliary (chunk_data example_args !!! 0)) ≠ [])
    by (vm_compute; discriminate).
  assert (Hflat : child_sel (children example_store !!! auxiliary (chunk_data example_args !!! 0))
                  = incremental) by (vm_compute; reflexivity).
  assert (Hstorage :
    length (emitted_keys (chunk_size example_args) (chunk_data example_args !!! 0)
              (entries example_store !!! buffer (chunk_data example_args !!! 0))
              (children example_store !!! auxiliary (chunk_data example_args !!! 0)))
    ≤ length (child_values
                (children example_store !!! auxiliary (chunk_data example_args !!! 0))))
    by (vm_compute; lia).
  exact (proj2 (gathers_scanned_payloads 2 example_args ascending_info example_store
                  fresh_result Htype Hkeys example_keys_range Hflat Hstorage
                  example_lists_in_storage)).
Defined.

(** The example of the spec, buffered two keys at a time and 1024 at a time:
    the same store is left. *)
Lemma capacity_independent_witness :
  out_store (ListSortFunction 2 example_args ascending_info example_store fresh_result) =
  out_store (ListSortFunction 1024 example_args ascending_info example_store fresh_result).
Proof.
  assert (Hflat : child_sel (children example_store !!! auxiliary (chunk_data example_args !!! 0))
                  = incremental) by (vm_compute; reflexivity).
  assert (Hstorage :
    length (emitted_keys (chunk_size example_args) (chunk_data example_args !!! 0)
              (entries example_store !!! buffer (chunk_data example_args !!! 0))
              (children example_store !!! auxiliary (chunk_data example_args !!! 0)))
    ≤ length (child_values
                (children example_store !!! auxiliary (chunk_data example_args !!! 0))))
    by (vm_compute; lia).
  exact (proj1 (proj2 (capacity_independent 2 1024 example_args ascending_info example_store
                         fresh_result example_keys_range Hflat Hstorage
                         example_back_to_back))).
Defined.

(** The six keys of the example are sunk in three vectors of two rows. *)
Lemma sinks_are_vectors_witness :
  length (sink_calls (out_calls (ListSortFunction 2 example_args ascending_info example_store
                                   fresh_result))) = (6 + 2 - 1) / 2.
Proof.
  assert (Htype : vtype (chunk_data example_args !!! 0) ≠ SQLNULL) by discriminate.
  exact (proj2 (proj2 (proj2 (sinks_are_vectors 2 example_args ascending_info example_store
                                fresh_result Htype)))).
Defined.

Lemma bind_explicit_orders_witness :
  ListNormalSortBind ascending_config sort_orders_signature desc_nulls_first_arguments =
  Return (ListSortBind sort_orders_signature desc_nulls_first_arguments
            DESCENDING NULLS_FIRST).
Proof.
  assert (Horder : ("DESC", DESCENDING) ∈ [("ASC", ASCENDING); ("DESC", DESCENDING)])
    by (right; left).
  assert (Hnull : ("NULLS FIRST", NULLS_FIRST) ∈
                  [("NULLS FIRST", NULLS_FIRST); ("NULLS LAST", NULLS_LAST)]) by left.
  exact (proj1 (bind_explicit_orders ascending_config sort_orders_signature
                  (desc_nulls_first_arguments !!! 0) (desc_nulls_first_arguments !!! 1)
                  (desc_nulls_first_arguments !!! 2) "DESC" "NULLS FIRST"
                  DESCENDING NULLS_FIRST eq_refl eq_refl Horder Hnull eq_refl eq_refl)).
Defined.

(** [list_reverse_sort(l, 'ASC')]: the second argument is a null order. *)
Lemma bind_error_messages_witness :
  ListReverseSortBind ascending_config
    {| fun_arguments := [LIST ANY; VARCHAR]; fun_return_type := LIST ANY |}
    [ {| expr_return_type := LIST INTEGER; IsFoldable := false; EvaluateScalar := "" |};
      {| expr_return_type := VARCHAR; IsFoldable := true; EvaluateScalar := "ASC" |} ] =
  Throw (InvalidInputException "Null sorting order must be either NULLS FIRST or NULLS LAST").
Proof.
  refine (proj2 (proj2 (proj2 (proj2 (bind_error_messages ascending_config
    {| fun_arguments := [LIST ANY; VARCHAR]; fun_return_type := LIST ANY |}
    [ {| expr_return_type := LIST INTEGER; IsFoldable := false; EvaluateScalar := "" |};
      {| expr_return_type := VARCHAR; IsFoldable := true; EvaluateScalar := "ASC" |} ])))
    eq_refl) eq_refl _).
  intros [H|H]; discriminate H.
Defined.

Lemma GetNullOrder_result_witness :
  GetNullOrder desc_nulls_first_arguments 2 = Return NULLS_FIRST.
Proof.
  exact (proj1 (proj2 (proj1 (proj2 (GetNullOrder_result desc_nulls_first_arguments 2))
                         eq_refl)) eq_refl).
Defined.

Lemma bind_keeps_list_type_witness :
  fun_return_type
    (ListSortBind sort_orders_signature desc_nulls_first_arguments DESCENDING NULLS_FIRST).1
  = LIST INTEGER.
Proof.
  assert (Hlen : 0 < length desc_nulls_first_arguments) by (simpl; lia).
  exact (proj1 (bind_keeps_list_type ascending_config sort_orders_signature
                  desc_nulls_first_arguments
                  (ListSortBind sort_orders_signature desc_nulls_first_arguments
                     DESCENDING NULLS_FIRST).1
                  (ListSortBind sort_orders_signature desc_nulls_first_arguments
                     DESCENDING NULLS_FIRST).2
                  Hlen (or_introl eq_refl))).
Defined.


(** [list_sort(l, 'Desc', 'nulls first')] bound and run on the example: row 3,
    the list [[5, NULL, 1]], becomes [[NULL, 5, 1]]. *)
Lemma bound_sort_sorts_lists_witness :
  let info := new_ListSortBindData DESCENDING NULLS_FIRST (LIST INTEGER) INTEGER in
  ListNormalSortBind ascending_config sort_orders_signature desc_nulls_first_arguments =
    Return ({| fun_arguments := [LIST INTEGER; VARCHAR; VARCHAR];
               fun_return_type := LIST INTEGER |}, SortBindData info) ∧
  list_value
    (out_store (ListSortFunction 2 example_args info example_store fresh_result))
    (out_result (ListSortFunction 2 example_args info example_store fresh_result)) 3 =
  Some [Some None; Some (Some 5%Z); Some (Some 1%Z)] ∧
  ∃ before after,
    list_value example_store (chunk_data example_args !!! 0) 3 = Some (Some <$> before) ∧
    list_value
      (out_store (ListSortFunction 2 example_args info example_store fresh_result))
      (out_result (ListSortFunction 2 example_args info example_store fresh_result))
      3 = Some (Some <$> after) ∧
    after ≡ₚ before ∧
    StronglySorted
      (value_le {| node_type := DESCENDING; node_null_order := NULLS_FIRST;
                   node_expression := {| ref_type := INTEGER; ref_index := 1 |} |}) after ∧
    after =
      merge_sort
        (value_le {| node_type := DESCENDING; node_null_order := NULLS_FIRST;
                     node_expression := {| ref_type := INTEGER; ref_index := 1 |} |}) before.
Proof.
  intros info.
  assert (Hbind :
    ListNormalSortBind ascending_config sort_orders_signature desc_nulls_first_arguments =
    Return ({| fun_arguments := [LIST INTEGER; VARCHAR; VARCHAR];
               fun_return_type := LIST INTEGER |}, SortBindData info))
    by (vm_compute; reflexivity).
  assert (Htype : vtype (chunk_data example_args !!! 0) ≠ SQLNULL) by discriminate.
  assert (Hcount : N.le (N.of_nat (chunk_size example_args)) (2 ^ 16)%N)
    by (vm_compute; discriminate).
  assert (Hflat : child_sel (children example_store !!! auxiliary (chunk_data example_args !!! 0))
                  = incremental) by (vm_compute; reflexivity).
  assert (Hstorage :
    length (emitted_keys (chunk_size example_args) (chunk_data example_args !!! 0)
              (entries example_store !!! buffer (chunk_data example_args !!! 0))
              (children example_store !!! auxiliary (chunk_data example_args !!! 0)))
    ≤ length (child_values
                (children example_store !!! auxiliary (chunk_data example_args !!! 0))))
    by (vm_compute; lia).
  assert (Hrow : 3 < chunk_size example_args) by (simpl; lia).
  assert (Hvalid : row_valid (chunk_data example_args !!! 0) 3 = true)
    by (vm_compute; reflexivity).
  split; [exact Hbind|]. split; [vm_compute; reflexivity|].
  exact (bound_sort_sorts_lists 2 ascending_config sort_orders_signature _
           desc_nulls_first_arguments info example_args example_store fresh_result 3
           (or_introl Hbind) Htype Hcount example_keys_range Hflat Hstorage
           example_back_to_back Hrow Hvalid).
Defined.

(** The example run with two different result vectors. *)
Lemma result_vector_ignored_witness :
  ListSortFunction 2 example_args ascending_info example_store fresh_result =
  ListSortFunction 2 example_args ascending_info example_store sqlnull_result.
Proof.
  assert (Htype : vtype (chunk_data example_args !!! 0) ≠ SQLNULL) by discriminate.
  exact (result_vector_ignored 2 example_args ascending_info example_store fresh_result
           sqlnull_result Htype).
Defined.
